(** * collab.nvim: the operational-transformation engine of [go/sync.go]

    A shallow embedding of the synchronisation engine (vector clocks,
    operations, the pairwise inclusion transforms, the document state and
    the sync manager) together with the properties of it that the
    specification states, and further properties of the clocks, the
    buffers, the constructors of operations and the front-end handler of
    [main.go].

    Conventions of the embedding.
    - Go's [int] and [int64] are 64-bit two's-complement integers (as on the
      64-bit platforms); they are modelled as [Z] and every arithmetic
      result is passed through [wrap64].
    - A Go [string] is a sequence of bytes; it is modelled as [string]
      (a sequence of 8-bit [ascii] characters).  [len s] is its byte
      length, [s[:n]] and [s[n:]] are [sliceTo] and [sliceFrom].
    - [map[string]int64] is [gmap string Z]; a nil map is the empty map.
      The order in which Go walks a map is unspecified; the loops over
      maps are modelled over [map_to_list], and what they compute does not
      depend on the order.
    - A method that mutates the manager and returns an [error] becomes a
      function [SyncManager -> SyncManager * option error]: the state is
      returned on the error path too, with whatever had been written
      before the [return].
    - The three observer callbacks are opaque to the engine; the calls the
      manager makes to them are recorded in the field [notified].
    - [sort.Slice] belongs to the Go library: the manager is defined over an
      arbitrary [sortSlice], and [insertionSort] is what the library runs
      on short slices.
    - Locks are not modelled: every function is one sequential call.
    - The operation buffers ([Add], [GetAll], [Clear]) are lists.
    - The readings of the clock ([time.Now]) and the random bytes
      ([rand.Read]) are arguments of the functions that draw them.
    - A run-time panic of a slice expression is the result [None]. *)

From Stdlib Require Import ZArith Ascii String List Bool Lia.
From Stdlib Require Import DecimalString DecimalPos DecimalZ.
From stdpp Require Import gmap strings list fin_maps.

Local Open Scope string_scope.
Local Open Scope Z_scope.

(** ** Machine integers *)

Definition wrap64 (z : Z) : Z := (z + 2 ^ 63) mod 2 ^ 64 - 2 ^ 63.

Definition MaxInt64 : Z := 2 ^ 63 - 1.
Definition MinInt64 : Z := - 2 ^ 63.

Definition inInt64 (z : Z) : Prop := MinInt64 <= z <= MaxInt64.

(** ** Strings *)

Definition len (s : string) : Z := Z.of_nat (String.length s).

Fixpoint stake (n : nat) (s : string) : string :=
  match n, s with
  | S n', String c s' => String c (stake n' s')
  | _, _ => EmptyString
  end.

Fixpoint sdrop (n : nat) (s : string) : string :=
  match n, s with
  | S n', String c s' => sdrop n' s'
  | _, _ => s
  end.

(** [s[:n]] and [s[n:]]; every use in the source is guarded by
    [0 <= n <= len s], so the run-time panic of an out-of-range slice is
    never reached. *)
Definition sliceTo (s : string) (n : Z) : string := stake (Z.to_nat n) s.
Definition sliceFrom (s : string) (n : Z) : string := sdrop (Z.to_nat n) s.

(** The bytes of a string, as numbers. *)
Definition bytesOf (s : string) : list Z :=
  List.map (fun a => Z.of_N (N_of_ascii a)) (list_ascii_of_string s).

(** [for _, c := range s] walks the string by UTF-8 code point: a byte
    below 0x80 is its own rune, a well-formed multi-byte sequence is decoded,
    anything else yields U+FFFD and advances by one byte. *)
Definition runeError : Z := 65533.

Definition isCont (b : Z) : bool := (128 <=? b) && (b <=? 191).

Fixpoint decodeRunes (bs : list Z) : list Z :=
  match bs with
  | [] => []
  | b0 :: r0 =>
    if b0 <? 128 then b0 :: decodeRunes r0
    else
      match r0 with
      | [] => runeError :: decodeRunes r0
      | b1 :: r1 =>
        if (192 <=? b0) && (b0 <? 224) then
          let r := Z.lor (Z.shiftl (Z.land b0 31) 6) (Z.land b1 63) in
          if isCont b1 && (127 <? r) then r :: decodeRunes r1
          else runeError :: decodeRunes r0
        else
          match r1 with
          | [] => runeError :: decodeRunes r0
          | b2 :: r2 =>
            if (224 <=? b0) && (b0 <? 240) then
              let r := Z.lor (Z.lor (Z.shiftl (Z.land b0 15) 12)
                                    (Z.shiftl (Z.land b1 63) 6))
                             (Z.land b2 63) in
              if isCont b1 && isCont b2 && (2047 <? r)
                 && negb ((55296 <=? r) && (r <=? 57343))
              then r :: decodeRunes r2
              else runeError :: decodeRunes r0
            else
              match r2 with
              | [] => runeError :: decodeRunes r0
              | b3 :: r3 =>
                if (240 <=? b0) && (b0 <? 248) then
                  let r := Z.lor (Z.lor (Z.lor (Z.shiftl (Z.land b0 7) 18)
                                               (Z.shiftl (Z.land b1 63) 12))
                                        (Z.shiftl (Z.land b2 63) 6))
                                 (Z.land b3 63) in
                  if isCont b1 && isCont b2 && isCont b3
                     && (65535 <? r) && (r <=? 1114111)
                  then r :: decodeRunes r3
                  else runeError :: decodeRunes r0
                else runeError :: decodeRunes r0
              end
          end
      end
  end.

Definition runes (s : string) : list Z := decodeRunes (bytesOf s).

(** ** Operations and vector clocks *)

Definition OperationType := string.

Definition OpInsert : OperationType := "insert".
Definition OpDelete : OperationType := "delete".
Definition OpRetain : OperationType := "retain".

Abbreviation VectorClock := (gmap string Z).

Record Operation := mkOperation {
  Type_ : OperationType;
  Position : Z;
  Content : string;
  Length : Z;
  UserID : string;
  Timestamp : Z;
  ID : string;
  Op_VectorClock : VectorClock
}.

(** [vc[k]] read: a missing key reads as the zero value. *)
Definition vcGet (vc : VectorClock) (k : string) : Z :=
  match vc !! k with
  | Some t => t
  | None => 0
  end.

Definition Copy (vc : VectorClock) : VectorClock := vc.

Definition Increment (userID : string) (vc : VectorClock) : VectorClock :=
  <[userID := wrap64 (vcGet vc userID + 1)]> vc.

Definition Update (other : VectorClock) (vc : VectorClock) : VectorClock :=
  fold_left
    (fun acc '(userID, timestamp) =>
       if vcGet acc userID <? timestamp then <[userID := timestamp]> acc
       else acc)
    (map_to_list other) vc.

(** The first loop of [HappensBefore] over the receiver's entries; [None]
    is the early [return false]. *)
Fixpoint hbLoopSelf (entries : list (string * Z)) (other : VectorClock)
    (hasSmaller : bool) : option bool :=
  match entries with
  | [] => Some hasSmaller
  | (userID, timestamp) :: rest =>
    let otherTimestamp := vcGet other userID in
    if otherTimestamp <? timestamp then None
    else hbLoopSelf rest other
           (if timestamp <? otherTimestamp then true else hasSmaller)
  end.

(** The second loop, over the entries of [other]. *)
Fixpoint hbLoopOther (entries : list (string * Z)) (vc : VectorClock)
    (hasSmaller : bool) : option bool :=
  match entries with
  | [] => Some hasSmaller
  | (userID, otherTimestamp) :: rest =>
    let timestamp := vcGet vc userID in
    if otherTimestamp <? timestamp then None
    else hbLoopOther rest vc
           (if timestamp <? otherTimestamp then true else hasSmaller)
  end.

Definition HappensBefore (vc other : VectorClock) : bool :=
  match hbLoopSelf (map_to_list vc) other false with
  | None => false
  | Some hasSmaller =>
    match hbLoopOther (map_to_list other) vc hasSmaller with
    | None => false
    | Some hasSmaller' => hasSmaller'
    end
  end.

Definition Equals (vc other : VectorClock) : bool :=
  if negb (Nat.eqb (size vc) (size other)) then
    let allUsers : gset string := dom vc ∪ dom other in
    forallb (fun userID => vcGet vc userID =? vcGet other userID)
            (elements allUsers)
  else
    forallb (fun '(userID, timestamp) => vcGet other userID =? timestamp)
            (map_to_list vc).

Definition IsConcurrent (vc other : VectorClock) : bool :=
  negb (HappensBefore vc other) && negb (HappensBefore other vc)
  && negb (Equals vc other).

(** ** The pairwise inclusion transforms *)

Definition transformInsertInsert (op1 op2 : Operation) (op1HasPriority : bool)
    : Operation :=
  if Position op2 <? Position op1 then
    mkOperation (Type_ op1) (wrap64 (Position op1 + Length op2)) (Content op1)
      (Length op1) (UserID op1) (Timestamp op1) (ID op1) (Op_VectorClock op1)
  else if Position op2 =? Position op1 then
    if op1HasPriority then op1
    else
      mkOperation (Type_ op1) (wrap64 (Position op1 + Length op2))
        (Content op1) (Length op1) (UserID op1) (Timestamp op1) (ID op1)
        (Op_VectorClock op1)
  else op1.

Definition transformInsertDelete (op1 op2 : Operation) : Operation :=
  if Position op2 <=? Position op1 then
    if wrap64 (Position op2 + Length op2) <=? Position op1 then
      mkOperation (Type_ op1) (wrap64 (Position op1 - Length op2))
        (Content op1) (Length op1) (UserID op1) (Timestamp op1) (ID op1)
        (Op_VectorClock op1)
    else
      mkOperation (Type_ op1) (Position op2) (Content op1) (Length op1)
        (UserID op1) (Timestamp op1) (ID op1) (Op_VectorClock op1)
  else op1.

Definition transformDeleteInsert (op1 op2 : Operation) : Operation :=
  if Position op2 <=? Position op1 then
    mkOperation (Type_ op1) (wrap64 (Position op1 + Length op2)) (Content op1)
      (Length op1) (UserID op1) (Timestamp op1) (ID op1) (Op_VectorClock op1)
  else if Position op2 <? wrap64 (Position op1 + Length op1) then
    mkOperation (Type_ op1) (Position op1) (Content op1)
      (wrap64 (Length op1 + Length op2)) (UserID op1) (Timestamp op1) (ID op1)
      (Op_VectorClock op1)
  else op1.

Definition transformDeleteDelete (op1 op2 : Operation) (op1HasPriority : bool)
    : Operation :=
  if wrap64 (Position op2 + Length op2) <=? Position op1 then
    mkOperation (Type_ op1) (wrap64 (Position op1 - Length op2)) (Content op1)
      (Length op1) (UserID op1) (Timestamp op1) (ID op1) (Op_VectorClock op1)
  else if wrap64 (Position op1 + Length op1) <=? Position op2 then op1
  else
    let start1 := Position op1 in
    let end1 := wrap64 (Position op1 + Length op1) in
    let start2 := Position op2 in
    let end2 := wrap64 (Position op2 + Length op2) in
    if (start2 <=? start1) && (end1 <=? end2) then
      mkOperation (Type_ op1) start2 "" 0 (UserID op1) (Timestamp op1)
        (ID op1) (Op_VectorClock op1)
    else if (start1 <=? start2) && (end2 <=? end1) then
      mkOperation (Type_ op1) (Position op1) (Content op1)
        (wrap64 (Length op1 - Length op2)) (UserID op1) (Timestamp op1)
        (ID op1) (Op_VectorClock op1)
    else
      let '(newStart, newLength) :=
        if start2 <? start1 then
          let overlap := wrap64 (end2 - start1) in
          (start2, wrap64 (Length op1 - overlap))
        else
          let overlap := wrap64 (end1 - start2) in
          (start1, wrap64 (Length op1 - overlap)) in
      let newLength := if newLength <? 0 then 0 else newLength in
      mkOperation (Type_ op1) newStart (Content op1) newLength (UserID op1)
        (Timestamp op1) (ID op1) (Op_VectorClock op1).

Definition inclusionTransform (op1 op2 : Operation) (op1HasPriority : bool)
    : Operation :=
  if String.eqb (Type_ op1) OpInsert && String.eqb (Type_ op2) OpInsert then
    transformInsertInsert op1 op2 op1HasPriority
  else if String.eqb (Type_ op1) OpInsert && String.eqb (Type_ op2) OpDelete
  then transformInsertDelete op1 op2
  else if String.eqb (Type_ op1) OpDelete && String.eqb (Type_ op2) OpInsert
  then transformDeleteInsert op1 op2
  else if String.eqb (Type_ op1) OpDelete && String.eqb (Type_ op2) OpDelete
  then transformDeleteDelete op1 op2 op1HasPriority
  else op1.

(** ** Priorities *)

Definition hashString (s : string) : Z :=
  let hash :=
    fold_left
      (fun hash c => wrap64 (wrap64 (wrap64 (Z.shiftl hash 5) + hash) + c))
      (runes s) 5381 in
  if hash <? 0 then wrap64 (- hash) else hash.

Definition calculatePriority (op : Operation) : Z :=
  let hash := hashString (String.append (UserID op) (ID op)) in
  wrap64 (hash + Timestamp op).

(** The comparison [topologicalSort] hands to [sort.Slice]. *)
Definition causalLess (op1 op2 : Operation) : bool :=
  if HappensBefore (Op_VectorClock op1) (Op_VectorClock op2) then true
  else if HappensBefore (Op_VectorClock op2) (Op_VectorClock op1) then false
  else calculatePriority op1 <? calculatePriority op2.

(** ** Errors and notifications *)

(** [ErrWrap prefix e] is [fmt.Errorf(prefix + ": %v", e)]. *)
Inductive error :=
  | ErrInvalidInsertPosition (position docLen : Z)
  | ErrUnknownOperationType (t : OperationType)
  | ErrWrap (prefix : string) (e : error).

(** What the manager hands to its observers. *)
Inductive Event :=
  | DocumentChanged (content : string)
  | OperationApplied (op : Operation)
  | ConflictResolved (localOp remoteOp resolution : Operation).

(** ** Document state and sync manager *)

Record DocumentState := mkDocumentState {
  Doc_Content : string;
  Version : Z;
  Operations : list Operation;
  Doc_VectorClock : VectorClock
}.

(** The three handler fields are kept as flags (is the handler non-nil?);
    the calls made to non-nil handlers are recorded, in order, in
    [notified]. *)
Record SyncManager := mkSyncManager {
  document : DocumentState;
  userID : string;
  vectorClock : VectorClock;
  localBuffer : list Operation;
  remoteBuffer : list Operation;
  acknowledgedOps : gset string;
  isTransforming : bool;
  onDocumentChanged : bool;
  onOperationApplied : bool;
  onConflictResolved : bool;
  stateVector : gmap string Z;
  operationHistory : list Operation;
  maxHistorySize : Z;
  notified : list Event
}.

Definition set_document (d : DocumentState) (sm : SyncManager) : SyncManager :=
  mkSyncManager d (userID sm) (vectorClock sm) (localBuffer sm)
    (remoteBuffer sm) (acknowledgedOps sm) (isTransforming sm)
    (onDocumentChanged sm) (onOperationApplied sm) (onConflictResolved sm)
    (stateVector sm) (operationHistory sm) (maxHistorySize sm) (notified sm).

Definition set_vectorClock (vc : VectorClock) (sm : SyncManager)
    : SyncManager :=
  mkSyncManager (document sm) (userID sm) vc (localBuffer sm)
    (remoteBuffer sm) (acknowledgedOps sm) (isTransforming sm)
    (onDocumentChanged sm) (onOperationApplied sm) (onConflictResolved sm)
    (stateVector sm) (operationHistory sm) (maxHistorySize sm) (notified sm).

Definition set_localBuffer (b : list Operation) (sm : SyncManager)
    : SyncManager :=
  mkSyncManager (document sm) (userID sm) (vectorClock sm) b
    (remoteBuffer sm) (acknowledgedOps sm) (isTransforming sm)
    (onDocumentChanged sm) (onOperationApplied sm) (onConflictResolved sm)
    (stateVector sm) (operationHistory sm) (maxHistorySize sm) (notified sm).

Definition set_remoteBuffer (b : list Operation) (sm : SyncManager)
    : SyncManager :=
  mkSyncManager (document sm) (userID sm) (vectorClock sm) (localBuffer sm)
    b (acknowledgedOps sm) (isTransforming sm)
    (onDocumentChanged sm) (onOperationApplied sm) (onConflictResolved sm)
    (stateVector sm) (operationHistory sm) (maxHistorySize sm) (notified sm).

Definition set_operationHistory (h : list Operation) (sm : SyncManager)
    : SyncManager :=
  mkSyncManager (document sm) (userID sm) (vectorClock sm) (localBuffer sm)
    (remoteBuffer sm) (acknowledgedOps sm) (isTransforming sm)
    (onDocumentChanged sm) (onOperationApplied sm) (onConflictResolved sm)
    (stateVector sm) h (maxHistorySize sm) (notified sm).

Definition set_notified (n : list Event) (sm : SyncManager) : SyncManager :=
  mkSyncManager (document sm) (userID sm) (vectorClock sm) (localBuffer sm)
    (remoteBuffer sm) (acknowledgedOps sm) (isTransforming sm)
    (onDocumentChanged sm) (onOperationApplied sm) (onConflictResolved sm)
    (stateVector sm) (operationHistory sm) (maxHistorySize sm) n.

(** [if handler != nil { handler(...) }] *)
Definition notify (present : bool) (e : Event) (sm : SyncManager)
    : SyncManager :=
  if present then set_notified (notified sm ++ [e]) sm else sm.

Definition NewSyncManager : SyncManager :=
  mkSyncManager (mkDocumentState "" 0 [] ∅) "" ∅ [] [] ∅ false
    false false false ∅ [] 1000 [].

Definition SetUserID (u : string) (sm : SyncManager) : SyncManager :=
  mkSyncManager (document sm) u (<[u := 0]> (vectorClock sm))
    (localBuffer sm) (remoteBuffer sm) (acknowledgedOps sm)
    (isTransforming sm) (onDocumentChanged sm) (onOperationApplied sm)
    (onConflictResolved sm) (<[u := 0]> (stateVector sm))
    (operationHistory sm) (maxHistorySize sm) (notified sm).

Definition SetEventHandlers (hDoc hOp hConflict : bool) (sm : SyncManager)
    : SyncManager :=
  mkSyncManager (document sm) (userID sm) (vectorClock sm) (localBuffer sm)
    (remoteBuffer sm) (acknowledgedOps sm) (isTransforming sm)
    hDoc hOp hConflict
    (stateVector sm) (operationHistory sm) (maxHistorySize sm) (notified sm).

Definition InitializeDocument (content : string) (sm : SyncManager)
    : SyncManager :=
  set_vectorClock (<[userID sm := 0]> ∅)
    (set_document (mkDocumentState content 0 [] ∅) sm).

Definition GetDocumentContent (sm : SyncManager) : string :=
  Doc_Content (document sm).

Definition GetDocumentVersion (sm : SyncManager) : Z :=
  Version (document sm).

Definition GetVectorClock (sm : SyncManager) : VectorClock :=
  Copy (vectorClock sm).

(** The tail shared by the successful branches of
    [applyOperationToDocument]: store the new content, bump the version,
    merge the clock, log the operation, tell the observer. *)
Definition commitToDocument (op : Operation) (newContent : string)
    (sm : SyncManager) : SyncManager :=
  let d := document sm in
  let sm1 :=
    set_document
      (mkDocumentState newContent (wrap64 (Version d + 1))
         (Operations d ++ [op])
         (Update (Op_VectorClock op) (Doc_VectorClock d))) sm in
  notify (onDocumentChanged sm1) (DocumentChanged newContent) sm1.

Definition applyOperationToDocument (op : Operation) (sm : SyncManager)
    : SyncManager * option error :=
  let content := Doc_Content (document sm) in
  if String.eqb (Type_ op) OpInsert then
    if (Position op <? 0) || (len content <? Position op) then
      (sm, Some (ErrInvalidInsertPosition (Position op) (len content)))
    else
      let newContent :=
        String.append (sliceTo content (Position op))
          (String.append (Content op) (sliceFrom content (Position op))) in
      (commitToDocument op newContent sm, None)
  else if String.eqb (Type_ op) OpDelete then
    if (Position op <? 0) || (len content <=? Position op) then (sm, None)
    else
      let endPos := wrap64 (Position op + Length op) in
      let endPos := if len content <? endPos then len content else endPos in
      if endPos <=? Position op then (sm, None)
      else
        let newContent :=
          String.append (sliceTo content (Position op))
            (sliceFrom content endPos) in
        (commitToDocument op newContent sm, None)
  else (sm, Some (ErrUnknownOperationType (Type_ op))).

(** The lock-free twin used while rebuilding: it never fails, and it logs
    the operation and bumps the version even when the operation is out of
    range. *)
Definition applyOperationDirectly (op : Operation) (sm : SyncManager)
    : SyncManager * option error :=
  let d := document sm in
  let content := Doc_Content d in
  let content' :=
    if String.eqb (Type_ op) OpInsert then
      if (0 <=? Position op) && (Position op <=? len content) then
        String.append (sliceTo content (Position op))
          (String.append (Content op) (sliceFrom content (Position op)))
      else content
    else if String.eqb (Type_ op) OpDelete then
      if (0 <=? Position op) && (Position op <? len content) then
        let endPos := wrap64 (Position op + Length op) in
        let endPos := if len content <? endPos then len content else endPos in
        if Position op <? endPos then
          String.append (sliceTo content (Position op))
            (sliceFrom content endPos)
        else content
      else content
    else content in
  (set_document
     (mkDocumentState content' (wrap64 (Version d + 1))
        (Operations d ++ [op])
        (Update (Op_VectorClock op) (Doc_VectorClock d))) sm,
   None).

(** [for _, op := range ops { err := f(op); if err != nil { return wrap } }] *)
Fixpoint applyEach (f : Operation -> SyncManager -> SyncManager * option error)
    (prefix : string) (ops : list Operation) (sm : SyncManager)
    : SyncManager * option error :=
  match ops with
  | [] => (sm, None)
  | op :: rest =>
    match f op sm with
    | (sm1, Some err) => (sm1, Some (ErrWrap prefix err))
    | (sm1, None) => applyEach f prefix rest sm1
    end
  end.

Definition idSet (ops : list Operation) : gset string :=
  list_to_set (List.map ID ops).

Definition undoLocalOperations (operations : list Operation)
    (sm : SyncManager) : SyncManager * option error :=
  let localOpIDs := idSet operations in
  let d := document sm in
  let remainingOps :=
    List.filter (fun op => negb (bool_decide (ID op ∈ localOpIDs)))
      (Operations d) in
  let sm1 := set_document (mkDocumentState "" 0 [] (Doc_VectorClock d)) sm in
  applyEach applyOperationDirectly "failed to reapply operation during undo"
    remainingOps sm1.

Definition addToHistory (op : Operation) (sm : SyncManager) : SyncManager :=
  let h := operationHistory sm in
  let h1 :=
    if maxHistorySize sm <=? Z.of_nat (length h)
    then drop (Z.to_nat (Z.of_nat (length h) / 2)) h
    else h in
  set_operationHistory (h1 ++ [op]) sm.

Definition GetOperationsSince (vc : VectorClock) (sm : SyncManager)
    : list Operation :=
  List.filter
    (fun op => negb (HappensBefore (Op_VectorClock op) vc)
               && negb (Equals (Op_VectorClock op) vc))
    (Operations (document sm)).

Definition ApplyLocalOperation (op : Operation) (sm : SyncManager)
    : SyncManager * option error :=
  let sm1 := set_localBuffer (localBuffer sm ++ [op]) sm in
  match applyOperationToDocument op sm1 with
  | (sm2, Some err) =>
    (sm2, Some (ErrWrap "failed to apply local operation" err))
  | (sm2, None) =>
    let sm3 :=
      set_vectorClock (Update (Op_VectorClock op) (vectorClock sm2)) sm2 in
    (addToHistory op sm3, None)
  end.

(** ** Transformation of a remote operation against the pending ones *)

(** [for k, localOp := range ops { if localOp.ID == id { ops[k] = f(localOp); break } }] *)
Fixpoint updateFirstByID (id : string) (f : Operation -> Operation)
    (ops : list Operation) : list Operation :=
  match ops with
  | [] => []
  | localOp :: rest =>
    if String.eqb (ID localOp) id then f localOp :: rest
    else localOp :: updateFirstByID id f rest
  end.

(** The loop state of [performOperationalTransformation]. *)
Record OTState := mkOTState {
  transformedRemoteOp : Operation;
  transformedLocalOps : list Operation;
  conflicts : list Event
}.

(** Transform [target] against [against]: the running remote operation
    when [target] carries the remote id, else the first pending operation
    with [target]'s id. *)
Definition transformTarget (remoteOp target against : Operation)
    (targetHasPriority : bool) (st : OTState) : OTState :=
  if String.eqb (ID target) (ID remoteOp) then
    mkOTState
      (inclusionTransform (transformedRemoteOp st) against targetHasPriority)
      (transformedLocalOps st) (conflicts st)
  else
    mkOTState (transformedRemoteOp st)
      (updateFirstByID (ID target)
         (fun localOp => inclusionTransform localOp against targetHasPriority)
         (transformedLocalOps st))
      (conflicts st).

(** The body of the inner loop, for the pair [(op1, op2)] with [op1]
    earlier than [op2] in the sorted order.  [transformedLocalOps[0]] is
    read only when [op1] is not the remote operation, that is when [op1]
    is one of the pending operations, so the index is in range; [nth]'s
    default is never used on such a state. *)
Definition transformPair (hasConflictHandler : bool)
    (remoteOp op1 op2 : Operation) (st : OTState) : OTState :=
  if HappensBefore (Op_VectorClock op1) (Op_VectorClock op2) then
    transformTarget remoteOp op2 op1 false st
  else if HappensBefore (Op_VectorClock op2) (Op_VectorClock op1) then
    transformTarget remoteOp op1 op2 true st
  else if IsConcurrent (Op_VectorClock op1) (Op_VectorClock op2) then
    let priority1 := calculatePriority op1 in
    let priority2 := calculatePriority op2 in
    let st1 :=
      if priority1 <? priority2
      then transformTarget remoteOp op2 op1 false st
      else transformTarget remoteOp op1 op2 true st in
    if hasConflictHandler then
      let e :=
        if String.eqb (ID op1) (ID remoteOp)
        then ConflictResolved op2 op1 (transformedRemoteOp st1)
        else ConflictResolved op1 op2 (nth 0 (transformedLocalOps st1) op1) in
      mkOTState (transformedRemoteOp st1) (transformedLocalOps st1)
        (conflicts st1 ++ [e])
    else st1
  else st.

(** [for i, op1 := range sortedOps { for j := i + 1; j < len; j++ { ... } }] *)
Fixpoint transformAll (hasConflictHandler : bool) (remoteOp : Operation)
    (sortedOps : list Operation) (st : OTState) : OTState :=
  match sortedOps with
  | [] => st
  | op1 :: rest =>
    transformAll hasConflictHandler remoteOp rest
      (fold_left (fun st op2 => transformPair hasConflictHandler remoteOp op1 op2 st)
         rest st)
  end.

Section Manager.

(** [sort.Slice] of the Go library, applied to a copy of the slice with
    the given comparison. *)
Variable sortSlice :
  (Operation -> Operation -> bool) -> list Operation -> list Operation.

Definition topologicalSort (operations : list Operation) : list Operation :=
  sortSlice causalLess operations.

Definition performOperationalTransformation (remoteOp : Operation)
    (localOps : list Operation) (sm : SyncManager)
    : SyncManager * (Operation * list Operation * option error) :=
  let allOps := remoteOp :: localOps in
  let sortedOps := topologicalSort allOps in
  let st :=
    transformAll (onConflictResolved sm) remoteOp sortedOps
      (mkOTState remoteOp localOps []) in
  (set_notified (notified sm ++ conflicts st) sm,
   (transformedRemoteOp st, transformedLocalOps st, None)).

Definition ApplyRemoteOperation (remoteOp : Operation) (sm : SyncManager)
    : SyncManager * option error :=
  let sm1 := set_remoteBuffer (remoteBuffer sm ++ [remoteOp]) sm in
  let sm2 :=
    set_vectorClock (Update (Op_VectorClock remoteOp) (vectorClock sm1)) sm1 in
  let localOps := localBuffer sm2 in
  match performOperationalTransformation remoteOp localOps sm2 with
  | (sm3, (_, _, Some err)) =>
    (sm3, Some (ErrWrap "operational transformation failed" err))
  | (sm3, (transformedOp, transformedLocalOps, None)) =>
    match undoLocalOperations localOps sm3 with
    | (sm4, Some err) =>
      (sm4, Some (ErrWrap "failed to undo local operations" err))
    | (sm4, None) =>
      match applyOperationToDocument transformedOp sm4 with
      | (sm5, Some err) =>
        (sm5,
         Some (ErrWrap "failed to apply transformed remote operation" err))
      | (sm5, None) =>
        match applyEach applyOperationToDocument
                "failed to reapply transformed local operation"
                transformedLocalOps sm5 with
        | (sm6, Some err) => (sm6, Some err)
        | (sm6, None) =>
          let sm7 := set_localBuffer transformedLocalOps sm6 in
          let sm8 := addToHistory transformedOp sm7 in
          (notify (onOperationApplied sm8) (OperationApplied transformedOp)
             sm8, None)
        end
      end
    end
  end.

End Manager.

(** ** The library sort on short slices

    On a slice of at most 12 elements [sort.Slice] (Go 1.19 and later; on
    at most 6 elements, every version) is an insertion sort: each element
    in turn is swapped leftwards while it is less than its left neighbour.
    [sinkLeft] keeps the already sorted prefix reversed, nearest neighbour
    first. *)

Fixpoint sinkLeft {A} (less : A -> A -> bool) (x : A) (revPrefix : list A)
    : list A :=
  match revPrefix with
  | [] => [x]
  | y :: r => if less x y then y :: sinkLeft less x r else x :: y :: r
  end.

Definition insertionSort {A} (less : A -> A -> bool) (l : list A) : list A :=
  rev (fold_left (fun revPrefix x => sinkLeft less x revPrefix) l []).

(** ** Predicates used in the statements *)

(** The positions the two range checks of [applyOperationToDocument]
    turn away. *)
Definition insertOutOfRange (op : Operation) (content : string) : Prop :=
  Position op < 0 \/ len content < Position op.

Definition deleteOutOfRange (op : Operation) (content : string) : Prop :=
  Position op < 0 \/ len content <= Position op.

(** The branch of [transformDeleteDelete] in which [op2] covers [op1]: both
    are deletes, the two earlier branches (disjoint ranges) do not apply,
    and [op2]'s range contains [op1]'s. *)
Definition coveredBranch (op1 op2 : Operation) : bool :=
  String.eqb (Type_ op1) OpDelete && String.eqb (Type_ op2) OpDelete
  && negb (wrap64 (Position op2 + Length op2) <=? Position op1)
  && negb (wrap64 (Position op1 + Length op1) <=? Position op2)
  && (Position op2 <=? Position op1)
  && (wrap64 (Position op1 + Length op1)
      <=? wrap64 (Position op2 + Length op2)).

(** Componentwise order of vector clocks, a missing entry reading as 0. *)
Definition vc_le (a b : VectorClock) : Prop :=
  forall p, vcGet a p <= vcGet b p.

Definition vc_nonneg (a : VectorClock) : Prop :=
  forall p, 0 <= vcGet a p.

(** [version] against the length of the applied log.  A Go slice never
    holds more than [MaxInt64] elements, so on the program's states the
    right-hand side is the length itself. *)
Definition versionInv (sm : SyncManager) : Prop :=
  Version (document sm)
  = wrap64 (Z.of_nat (length (Operations (document sm)))).

(** Applying a sequence of operations to a document, and the content that
    results from a base string. *)
Definition applyAll (ops : list Operation) (sm : SyncManager) : SyncManager :=
  fold_left (fun sm op => fst (applyOperationToDocument op sm)) ops sm.

Definition contentAfter (S : string) (ops : list Operation) : string :=
  GetDocumentContent (applyAll ops (InitializeDocument S NewSyncManager)).




(** The state of [ApplyRemoteOperation] just before the transformed remote
    operation is applied: the remote operation staged and its clock merged,
    the pending operations transformed and undone. *)
Definition remoteStage
    (sortSlice : (Operation -> Operation -> bool) -> list Operation
                 -> list Operation)
    (remoteOp : Operation) (sm : SyncManager)
    : SyncManager * Operation * list Operation :=
  let sm1 := set_remoteBuffer (remoteBuffer sm ++ [remoteOp]) sm in
  let sm2 :=
    set_vectorClock (Update (Op_VectorClock remoteOp) (vectorClock sm1)) sm1 in
  let '(sm3, (transformedOp, transformedLocalOps, _)) :=
    performOperationalTransformation sortSlice remoteOp (localBuffer sm2) sm2 in
  (fst (undoLocalOperations (localBuffer sm2) sm3), transformedOp,
   transformedLocalOps).

(** What [ApplyRemoteOperation] does after the remote operation itself:
    re-apply the transformed pending operations, store them, record the
    remote operation in the history and tell the observer. *)
Definition finishRemote (transformedOp : Operation)
    (transformedLocalOps : list Operation) (sm5 : SyncManager)
    : SyncManager * option error :=
  match applyEach applyOperationToDocument
          "failed to reapply transformed local operation"
          transformedLocalOps sm5 with
  | (sm6, Some err) => (sm6, Some err)
  | (sm6, None) =>
    let sm8 := addToHistory transformedOp (set_localBuffer transformedLocalOps sm6) in
    (notify (onOperationApplied sm8) (OperationApplied transformedOp) sm8, None)
  end.

(** The content [applyOperationDirectly] leaves, as a function of the
    content it finds, and the content rebuilt from a log by
    [undoLocalOperations]. *)
Definition directContent (op : Operation) (content : string) : string :=
  if String.eqb (Type_ op) OpInsert then
    if (0 <=? Position op) && (Position op <=? len content) then
      String.append (sliceTo content (Position op))
        (String.append (Content op) (sliceFrom content (Position op)))
    else content
  else if String.eqb (Type_ op) OpDelete then
    if (0 <=? Position op) && (Position op <? len content) then
      let endPos := wrap64 (Position op + Length op) in
      let endPos := if len content <? endPos then len content else endPos in
      if Position op <? endPos then
        String.append (sliceTo content (Position op))
          (sliceFrom content endPos)
      else content
    else content
  else content.

Definition replayContent (ops : list Operation) : string :=
  fold_left (fun content op => directContent op content) ops "".


(** The content [applyOperationToDocument] leaves, as a function of the
    content it finds (on the error and skip paths: the content as it was). *)
Definition stepContent (op : Operation) (content : string) : string :=
  if String.eqb (Type_ op) OpInsert then
    if (Position op <? 0) || (len content <? Position op) then content
    else
      String.append (sliceTo content (Position op))
        (String.append (Content op) (sliceFrom content (Position op)))
  else if String.eqb (Type_ op) OpDelete then
    if (Position op <? 0) || (len content <=? Position op) then content
    else
      let endPos := wrap64 (Position op + Length op) in
      let endPos := if len content <? endPos then len content else endPos in
      if endPos <=? Position op then content
      else
        String.append (sliceTo content (Position op))
          (sliceFrom content endPos)
  else content.

(** A string as the list of its bytes, and the two edits on such lists. *)
Definition chars (s : string) : list ascii := list_ascii_of_string s.

Definition insL (p : nat) (x l : list ascii) : list ascii :=
  take p l ++ x ++ drop p l.

Definition delL (p n : nat) (l : list ascii) : list ascii :=
  take p l ++ drop (p + n) l.

(** An operation that respects the invariants of the data model and lies
    within the base string [S]. *)
Definition validOn (S : string) (op : Operation) : Prop :=
  (Type_ op = OpInsert /\ 0 <= Position op <= len S
   /\ Length op = len (Content op))
  \/ (Type_ op = OpDelete /\ 0 <= Position op /\ 0 <= Length op
      /\ Position op + Length op <= len S).

(** A non-empty insert strictly inside the range of a delete. *)
Definition insertInsideDelete (i d : Operation) : Prop :=
  Type_ i = OpInsert /\ Type_ d = OpDelete /\ Content i <> ""
  /\ Position d < Position i < Position d + Length d.

(** ** Concrete operations and states used as examples *)

Definition insertOp (p : Z) (c : string) (u : string) (t : Z) (i : string)
    (vc : VectorClock) : Operation :=
  mkOperation OpInsert p c (len c) u t i vc.

Definition deleteOp (p : Z) (c : string) (n : Z) (u : string) (t : Z)
    (i : string) (vc : VectorClock) : Operation :=
  mkOperation OpDelete p c n u t i vc.

(** A manager for participant [u1] holding the document [content]. *)
Definition managerWith (content : string) : SyncManager :=
  InitializeDocument content (SetUserID "u1" NewSyncManager).

(** Scenario 4 of the specification: base ["abcdefg"], one participant
    deletes [bcde], the other inserts [X] at offset 3. *)
Definition ex_insertX : Operation :=
  insertOp 3 "X" "u2" 1 "u2-1" {[ "u2" := 1 ]}.
Definition ex_deleteBCDE : Operation :=
  deleteOp 1 "bcde" 4 "u1" 1 "u1-1" {[ "u1" := 1 ]}.

(** A remote insert at the head of the document. *)
Definition ex_remoteA : Operation :=
  insertOp 0 "a" "u2" 1 "u2-1" {[ "u2" := 1 ]}.

(** A delete and an insert that lie past the end of ["abc"]. *)
Definition ex_deletePastEnd : Operation :=
  deleteOp 5 "" 1 "u1" 1 "u1-1" {[ "u1" := 1 ]}.
Definition ex_insertPastEnd : Operation :=
  insertOp 5 "x" "u1" 1 "u1-1" {[ "u1" := 1 ]}.
Definition ex_remoteInsertPastEnd : Operation :=
  insertOp 5 "x" "u2" 1 "u2-1" {[ "u2" := 1 ]}.
Definition ex_remoteDeletePastEnd : Operation :=
  deleteOp 5 "" 1 "u2" 1 "u2-1" {[ "u2" := 1 ]}.
Definition ex_retain : Operation :=
  mkOperation OpRetain 0 "" 0 "u1" 1 "u1-1" {[ "u1" := 1 ]}.

(** Two participants delete the whole of ["ab"] concurrently. *)
Definition ex_localDeleteAB : Operation :=
  deleteOp 0 "ab" 2 "u1" 1 "u1-1" {[ "u1" := 1 ]}.
Definition ex_remoteDeleteAB : Operation :=
  deleteOp 0 "ab" 2 "u2" 1 "u2-1" {[ "u2" := 1 ]}.
Definition ex_afterLocalDelete : SyncManager :=
  fst (ApplyLocalOperation ex_localDeleteAB (managerWith "ab")).

(** A run from the empty document: [u2]'s insert of ["ab"] arrives; [u1]
    deletes [a], then [b]; [u3]'s concurrent delete of the whole of ["ab"]
    arrives last. *)
Definition ex_insertAB : Operation :=
  insertOp 0 "ab" "u2" 1 "u2-1" {[ "u2" := 1 ]}.
Definition ex_deleteA : Operation :=
  deleteOp 0 "a" 1 "u1" 2 "u1-1" (<[ "u1" := 1 ]> {[ "u2" := 1 ]}).
Definition ex_deleteB : Operation :=
  deleteOp 0 "b" 1 "u1" 3 "u1-2" (<[ "u1" := 2 ]> {[ "u2" := 1 ]}).
Definition ex_remoteDeleteBoth : Operation :=
  deleteOp 0 "ab" 2 "u3" 2 "u3-1" (<[ "u3" := 1 ]> {[ "u2" := 1 ]}).
Definition ex_afterTwoDeletes : SyncManager :=
  fst (ApplyLocalOperation ex_deleteB
         (fst (ApplyLocalOperation ex_deleteA
                 (fst (ApplyRemoteOperation insertionSort ex_insertAB
                         (SetUserID "u1" NewSyncManager)))))).



(** ** The rest of the manager

    The operation buffers, acknowledgement and clean-up, the two
    constructors of local operations, the snapshot of the document, and the
    handler of the front-end that feeds the manager. *)

(** The methods of [OperationBuffer], on the list the buffer holds. *)
Definition OperationBuffer_Add (op : Operation) (ob : list Operation)
    : list Operation := ob ++ [op].

Definition OperationBuffer_GetAll (ob : list Operation) : list Operation := ob.

Definition OperationBuffer_Clear (ob : list Operation) : list Operation := [].

Definition OperationBuffer_RemoveApplied (appliedOps : list Operation)
    (ob : list Operation) : list Operation :=
  let appliedSet := idSet appliedOps in
  List.filter (fun op => negb (bool_decide (ID op ∈ appliedSet))) ob.

Definition set_acknowledgedOps (a : gset string) (sm : SyncManager)
    : SyncManager :=
  mkSyncManager (document sm) (userID sm) (vectorClock sm) (localBuffer sm)
    (remoteBuffer sm) a (isTransforming sm)
    (onDocumentChanged sm) (onOperationApplied sm) (onConflictResolved sm)
    (stateVector sm) (operationHistory sm) (maxHistorySize sm) (notified sm).

(** [acknowledgedOps] only ever receives the value [true]; it is the set of
    its keys. *)
Definition AcknowledgeOperation (opID : string) (sm : SyncManager)
    : SyncManager :=
  set_acknowledgedOps ({[ opID ]} ∪ acknowledgedOps sm) sm.

(** The search [for _, op := range localOps { if op.ID == opID ... }]. *)
Definition pendingID (localOps : list Operation) (opID : string) : bool :=
  existsb (fun op => String.eqb (ID op) opID) localOps.

Definition CleanupHistory (sm : SyncManager) : SyncManager :=
  let localOps := OperationBuffer_GetAll (localBuffer sm) in
  let acknowledgedLocal :=
    List.filter (fun op => bool_decide (ID op ∈ acknowledgedOps sm))
      localOps in
  let sm1 :=
    set_localBuffer
      (OperationBuffer_RemoveApplied acknowledgedLocal (localBuffer sm)) sm in
  set_acknowledgedOps
    (filter (fun opID => pendingID localOps opID = true)
       (acknowledgedOps sm1)) sm1.

Definition GetDocumentState (sm : SyncManager) : DocumentState :=
  mkDocumentState (Doc_Content (document sm)) (Version (document sm))
    (Operations (document sm)) (Copy (Doc_VectorClock (document sm))).

(** [hex.EncodeToString]: two lower-case digits per byte. *)
Definition hexDigit (b3 b2 b1 b0 : bool) : ascii :=
  match b3, b2, b1, b0 with
  | false, false, false, false => "0"
  | false, false, false, true => "1"
  | false, false, true, false => "2"
  | false, false, true, true => "3"
  | false, true, false, false => "4"
  | false, true, false, true => "5"
  | false, true, true, false => "6"
  | false, true, true, true => "7"
  | true, false, false, false => "8"
  | true, false, false, true => "9"
  | true, false, true, false => "a"
  | true, false, true, true => "b"
  | true, true, false, false => "c"
  | true, true, false, true => "d"
  | true, true, true, false => "e"
  | true, true, true, true => "f"
  end%char.

Fixpoint hexEncode (bytes : list ascii) : string :=
  match bytes with
  | [] => EmptyString
  | Ascii a0 a1 a2 a3 a4 a5 a6 a7 :: rest =>
    String (hexDigit a7 a6 a5 a4) (String (hexDigit a3 a2 a1 a0)
      (hexEncode rest))
  end.

(** The verb [%d] on an [int64]. *)
Definition formatInt (z : Z) : string := NilZero.string_of_int (Z.to_int z).

(** [generateOperationID]; the eight random bytes and the clock reading
    are inputs. *)
Definition generateOperationID (userID : string) (randomBytes : list ascii)
    (timestamp : Z) : string :=
  String.append userID
    (String.append "-"
       (String.append (formatInt timestamp)
          (String.append "-" (hexEncode randomBytes)))).

(** [now] is the reading of the clock for the time stamp; [randomBytes] and
    [idNow] are what [generateOperationID] draws. *)
Definition CreateInsertOperation (position : Z) (content : string)
    (now : Z) (randomBytes : list ascii) (idNow : Z) (sm : SyncManager)
    : SyncManager * Operation :=
  let sm1 := set_vectorClock (Increment (userID sm) (vectorClock sm)) sm in
  (sm1,
   mkOperation OpInsert position content (len content) (userID sm1) now
     (generateOperationID (userID sm1) randomBytes idNow)
     (Copy (vectorClock sm1))).

(** [s[a:b]]; out of range it panics, which is [None]. *)
Definition sliceBetween (s : string) (a b : Z) : option string :=
  if (0 <=? a) && (a <=? b) && (b <=? len s)
  then Some (sdrop (Z.to_nat a) (stake (Z.to_nat b) s))
  else None.

(** The operation is [None] when the slice expression panics; the clock has
    been incremented by then. *)
Definition CreateDeleteOperation (position : Z) (length : Z)
    (now : Z) (randomBytes : list ascii) (idNow : Z) (sm : SyncManager)
    : SyncManager * option Operation :=
  let sm1 := set_vectorClock (Increment (userID sm) (vectorClock sm)) sm in
  let doc := Doc_Content (document sm1) in
  let captured :=
    if (0 <=? position) && (position <? len doc) then
      let endPos := wrap64 (position + length) in
      let endPos := if len doc <? endPos then len doc else endPos in
      sliceBetween doc position endPos
    else Some "" in
  (sm1,
   match captured with
   | None => None
   | Some content =>
     Some (mkOperation OpDelete position content length (userID sm1) now
             (generateOperationID (userID sm1) randomBytes idNow)
             (Copy (vectorClock sm1)))
   end).

(** *** The front-end handler ([handleDocumentOperation])

    The collaboration manager holds the session manager, of which only the
    user id matters here, and the sync manager. *)
Record DocumentOperation := mkDocumentOperation {
  DO_Type : string;
  DO_Position : Z;
  DO_Content : string;
  DO_Length : Z;
  DO_UserID : string
}.

Record CollabManager := mkCollabManager {
  sessionUserID : string;
  syncManager : SyncManager
}.

(** [NewCollabManager], given the user id the session manager drew. *)
Definition NewCollabManager (newUserID : string) : CollabManager :=
  mkCollabManager newUserID
    (SetEventHandlers true true true (SetUserID newUserID NewSyncManager)).

(** The reply: a status message, or an error message carrying the error. *)
Inductive Reply :=
  | StatusReply (status info : string)
  | ErrorReply (code : string) (err : error).

Section Handler.

Variable sortSlice :
  (Operation -> Operation -> bool) -> list Operation -> list Operation.

Definition handleDocumentOperation (op : DocumentOperation)
    (now : Z) (randomBytes : list ascii) (idNow : Z) (cm : CollabManager)
    : CollabManager * Reply :=
  let syncOp :=
    mkOperation (DO_Type op) (DO_Position op) (DO_Content op) (DO_Length op)
      (DO_UserID op) now
      (generateOperationID (DO_UserID op) randomBytes idNow) ∅ in
  let '(sm', err) :=
    if String.eqb (DO_UserID op) (sessionUserID cm)
    then ApplyLocalOperation syncOp (syncManager cm)
    else ApplyRemoteOperation sortSlice syncOp (syncManager cm) in
  (mkCollabManager (sessionUserID cm) sm',
   match err with
   | Some e => ErrorReply "operation_failed" e
   | None =>
     StatusReply "operation_applied"
       "Document operation processed successfully"
   end).

End Handler.

(** ** Further predicates used in the statements *)

(** The two clocks are ordered neither way. *)
Definition vc_incomparable (a b : VectorClock) : Prop :=
  (exists p, vcGet a p < vcGet b p) /\ (exists q, vcGet b q < vcGet a q).

(** The content of the document is what replaying its log gives. *)
Definition contentInv (sm : SyncManager) : Prop :=
  Doc_Content (document sm) = replayContent (Operations (document sm)).

(** The history holds at most [maxHistorySize] operations. *)
Definition historyBounded (sm : SyncManager) : Prop :=
  Z.of_nat (length (operationHistory sm)) <= maxHistorySize sm.

(** The clock of the document is at least the clock of every operation it
    has logged, on the participants that clock mentions. *)
Definition dominates (big small : VectorClock) : Prop :=
  forall k, k ∈ dom small -> vcGet small k <= vcGet big k.

Definition docClockInv (sm : SyncManager) : Prop :=
  Forall (fun op => dominates (Doc_VectorClock (document sm)) (Op_VectorClock op))
    (Operations (document sm)).

(** What the transformation may not touch in an operation. *)
Definition sameIdentity (op op' : Operation) : Prop :=
  Type_ op' = Type_ op /\ UserID op' = UserID op
  /\ Timestamp op' = Timestamp op /\ ID op' = ID op
  /\ Op_VectorClock op' = Op_VectorClock op.

(** One step of the loop of [Update]. *)
Definition updateStep (acc : VectorClock) (e : string * Z) : VectorClock :=
  let '(userID, timestamp) := e in
  if vcGet acc userID <? timestamp then <[userID := timestamp]> acc else acc.

(** Two states of the manager that differ at most in the document and in
    what the observers have been told. *)
Definition sameOutsideDocument (sm sm' : SyncManager) : Prop :=
  userID sm' = userID sm /\ vectorClock sm' = vectorClock sm
  /\ localBuffer sm' = localBuffer sm /\ remoteBuffer sm' = remoteBuffer sm
  /\ acknowledgedOps sm' = acknowledgedOps sm
  /\ operationHistory sm' = operationHistory sm
  /\ maxHistorySize sm' = maxHistorySize sm
  /\ onDocumentChanged sm' = onDocumentChanged sm
  /\ onOperationApplied sm' = onOperationApplied sm
  /\ onConflictResolved sm' = onConflictResolved sm.

(** Operations that carry no vector clock, as the front-end handler builds
    them. *)
Definition clockless (ops : list Operation) : Prop :=
  Forall (fun op => Op_VectorClock op = ∅) ops.

(** The log and the clock of the document after an operation has been
    logged. *)
Definition loggedStep (op : Operation) (d d' : DocumentState) : Prop :=
  Operations d' = (Operations d ++ [op])%list
  /\ Doc_VectorClock d' = Update (Op_VectorClock op) (Doc_VectorClock d).



(** Two pending operations of [u1], the second after the first, and a
    remote operation of [u2] concurrent with both; the wall times put the
    priority of the remote one between those of the pending ones. *)
Definition ex_pendingFirst : Operation :=
  insertOp 0 "x" "u1" 3000000000000000 "u1-1" {[ "u1" := 1 ]}.
Definition ex_pendingSecond : Operation :=
  insertOp 1 "y" "u1" 1000000000000000 "u1-2" {[ "u1" := 2 ]}.
Definition ex_remoteBetween : Operation :=
  insertOp 0 "z" "u2" 2000000000000000 "u2-1" {[ "u2" := 1 ]}.

(** * Properties *)

(** ** Auxiliary facts: machine integers and strings *)

Lemma wrap64_small z : inInt64 z -> wrap64 z = z.
Proof.
  unfold inInt64, MinInt64, MaxInt64, wrap64. intros H.
  rewrite Z.mod_small by lia. lia.
Qed.

Lemma wrap64_range z : inInt64 (wrap64 z).
Proof.
  unfold inInt64, MinInt64, MaxInt64, wrap64.
  pose proof (Z.mod_pos_bound (z + 2 ^ 63) (2 ^ 64) ltac:(lia)). lia.
Qed.

Lemma wrap64_eqm a b : a mod 2 ^ 64 = b mod 2 ^ 64 -> wrap64 a = wrap64 b.
Proof.
  intros H. unfold wrap64. f_equal.
  rewrite (Z.add_mod a), (Z.add_mod b), H by lia. reflexivity.
Qed.

Lemma wrap64_mod a : wrap64 a mod 2 ^ 64 = a mod 2 ^ 64.
Proof.
  unfold wrap64.
  rewrite <- (Zminus_mod_idemp_l _ (2 ^ 63)).
  rewrite Z.mod_mod by lia.
  rewrite Zminus_mod_idemp_l. f_equal. lia.
Qed.

Lemma wrap64_add_l a b : wrap64 (wrap64 a + b) = wrap64 (a + b).
Proof.
  apply wrap64_eqm.
  rewrite Z.add_mod, wrap64_mod, <- Z.add_mod by lia. reflexivity.
Qed.

Lemma len_nonneg s : 0 <= len s.
Proof. unfold len. lia. Qed.

Lemma eqb_OpInsert t : String.eqb t OpInsert = true -> t = OpInsert.
Proof. apply String.eqb_eq. Qed.

Lemma eqb_OpDelete t : String.eqb t OpDelete = true -> t = OpDelete.
Proof. apply String.eqb_eq. Qed.

(** ** The inclusion transforms only move and resize *)

Ltac case_cmp :=
  repeat match goal with
  | |- context [Z.leb ?a ?b] => destruct (Z.leb a b) eqn:?
  | |- context [Z.ltb ?a ?b] => destruct (Z.ltb a b) eqn:?
  | |- context [Z.eqb ?a ?b] => destruct (Z.eqb a b) eqn:?
  end.

Lemma transformInsertInsert_frame op1 op2 f :
  let r := transformInsertInsert op1 op2 f in
  Type_ r = Type_ op1 /\ Content r = Content op1 /\ Length r = Length op1
  /\ UserID r = UserID op1 /\ Timestamp r = Timestamp op1 /\ ID r = ID op1
  /\ Op_VectorClock r = Op_VectorClock op1.
Proof.
  unfold transformInsertInsert. case_cmp; destruct f; cbn; repeat split.
Qed.

Lemma transformInsertDelete_frame op1 op2 :
  let r := transformInsertDelete op1 op2 in
  Type_ r = Type_ op1 /\ Content r = Content op1 /\ Length r = Length op1
  /\ UserID r = UserID op1 /\ Timestamp r = Timestamp op1 /\ ID r = ID op1
  /\ Op_VectorClock r = Op_VectorClock op1.
Proof.
  unfold transformInsertDelete. case_cmp; cbn; repeat split.
Qed.

Lemma transformDeleteInsert_frame op1 op2 :
  let r := transformDeleteInsert op1 op2 in
  Type_ r = Type_ op1 /\ Content r = Content op1
  /\ UserID r = UserID op1 /\ Timestamp r = Timestamp op1 /\ ID r = ID op1
  /\ Op_VectorClock r = Op_VectorClock op1.
Proof.
  unfold transformDeleteInsert. case_cmp; cbn; repeat split.
Qed.

Lemma transformDeleteDelete_frame op1 op2 f :
  let r := transformDeleteDelete op1 op2 f in
  Type_ r = Type_ op1
  /\ UserID r = UserID op1 /\ Timestamp r = Timestamp op1 /\ ID r = ID op1
  /\ Op_VectorClock r = Op_VectorClock op1
  /\ (if negb (wrap64 (Position op2 + Length op2) <=? Position op1)
         && negb (wrap64 (Position op1 + Length op1) <=? Position op2)
         && (Position op2 <=? Position op1)
         && (wrap64 (Position op1 + Length op1)
             <=? wrap64 (Position op2 + Length op2))
      then Content r = "" /\ Length r = 0
      else Content r = Content op1).
Proof.
  unfold transformDeleteDelete.
  destruct (wrap64 (Position op2 + Length op2) <=? Position op1);
    [cbn; repeat split |].
  destruct (wrap64 (Position op1 + Length op1) <=? Position op2);
    [cbn; repeat split |].
  destruct (Position op2 <=? Position op1);
    destruct (wrap64 (Position op1 + Length op1)
              <=? wrap64 (Position op2 + Length op2));
    cbn; case_cmp; cbn; repeat split.
Qed.

(** C9. Frame property of [inclusionTransform]: for every pair of
    operations and every tie-break flag the result has the type, user,
    timestamp, id and vector clock of [op]; its content is that of [op]
    too, except in the delete-against-delete branch in which [against]
    covers [op], where the content becomes empty and the length 0.  Only
    position and length are otherwise free to change. *)
Theorem inclusionTransform_frame (op against : Operation) (flag : bool) :
  let r := inclusionTransform op against flag in
  Type_ r = Type_ op /\ UserID r = UserID op /\ Timestamp r = Timestamp op
  /\ ID r = ID op /\ Op_VectorClock r = Op_VectorClock op
  /\ (if coveredBranch op against
      then Content r = "" /\ Length r = 0
      else Content r = Content op).
Proof.
  unfold inclusionTransform, coveredBranch.
  destruct (String.eqb (Type_ op) OpInsert) eqn:Ei.
  - apply eqb_OpInsert in Ei. rewrite Ei.
    change (String.eqb OpInsert OpDelete) with false. cbn [andb].
    destruct (String.eqb (Type_ against) OpInsert).
    + pose proof (transformInsertInsert_frame op against flag) as H.
      cbn zeta in H. rewrite Ei in H. tauto.
    + destruct (String.eqb (Type_ against) OpDelete).
      * pose proof (transformInsertDelete_frame op against) as H.
        cbn zeta in H. rewrite Ei in H. tauto.
      * cbn. rewrite Ei. tauto.
  - cbn [andb].
    destruct (String.eqb (Type_ op) OpDelete) eqn:Ed; cbn [andb].
    + destruct (String.eqb (Type_ against) OpInsert) eqn:Eai.
      * apply eqb_OpInsert in Eai. rewrite Eai.
        change (String.eqb OpInsert OpDelete) with false. cbn [andb].
        pose proof (transformDeleteInsert_frame op against) as H.
        cbn zeta in H. tauto.
      * destruct (String.eqb (Type_ against) OpDelete); cbn [andb].
        -- pose proof (transformDeleteDelete_frame op against flag) as H.
           cbn zeta in H. tauto.
        -- cbn. tauto.
    + cbn. tauto.
Qed.

(** On a non-empty delete whose ranges do not overflow, the covered
    branch is taken exactly when [against]'s range contains [op]'s. *)
Lemma coveredBranch_iff_covers (op against : Operation) :
  Type_ op = OpDelete -> Type_ against = OpDelete ->
  0 < Length op ->
  inInt64 (Position op + Length op) ->
  inInt64 (Position against + Length against) ->
  coveredBranch op against = true
  <-> Position against <= Position op
      /\ Position op + Length op <= Position against + Length against.
Proof.
  intros Ho Ha Hl H1 H2. unfold coveredBranch.
  rewrite Ho, Ha, !wrap64_small by assumption.
  change (String.eqb OpDelete OpDelete) with true. cbn [andb].
  rewrite !andb_true_iff, !negb_true_iff, !Z.leb_le, !Z.leb_gt. lia.
Qed.

(** ** Applying one operation to the document *)

Lemma applyOperationToDocument_insert_out_of_range op sm :
  Type_ op = OpInsert ->
  insertOutOfRange op (Doc_Content (document sm)) ->
  applyOperationToDocument op sm
  = (sm, Some (ErrInvalidInsertPosition (Position op)
                 (len (Doc_Content (document sm))))).
Proof.
  intros Ht Hr. unfold applyOperationToDocument. rewrite Ht.
  change (String.eqb OpInsert OpInsert) with true. cbv iota.
  destruct Hr as [Hr | Hr].
  - apply Z.ltb_lt in Hr. rewrite Hr. reflexivity.
  - apply Z.ltb_lt in Hr. rewrite Hr, orb_true_r. reflexivity.
Qed.

Lemma applyOperationToDocument_delete_out_of_range op sm :
  Type_ op = OpDelete ->
  deleteOutOfRange op (Doc_Content (document sm)) ->
  applyOperationToDocument op sm = (sm, None).
Proof.
  intros Ht Hr. unfold applyOperationToDocument. rewrite Ht.
  change (String.eqb OpDelete OpInsert) with false.
  change (String.eqb OpDelete OpDelete) with true. cbv iota.
  destruct Hr as [Hr | Hr].
  - apply Z.ltb_lt in Hr. rewrite Hr. reflexivity.
  - apply Z.leb_le in Hr. rewrite Hr, orb_true_r. reflexivity.
Qed.

Lemma applyOperationToDocument_unknown op sm :
  Type_ op <> OpInsert -> Type_ op <> OpDelete ->
  applyOperationToDocument op sm
  = (sm, Some (ErrUnknownOperationType (Type_ op))).
Proof.
  intros Hi Hd. unfold applyOperationToDocument.
  apply String.eqb_neq in Hi. apply String.eqb_neq in Hd.
  rewrite Hi, Hd. reflexivity.
Qed.

(** An error is returned before anything is written, and only for an
    insert out of range or an operation of unknown kind. *)
Lemma applyOperationToDocument_error op sm sm' e :
  applyOperationToDocument op sm = (sm', Some e) ->
  sm' = sm
  /\ ((Type_ op = OpInsert
       /\ insertOutOfRange op (Doc_Content (document sm))
       /\ e = ErrInvalidInsertPosition (Position op)
                (len (Doc_Content (document sm))))
      \/ (Type_ op <> OpInsert /\ Type_ op <> OpDelete
          /\ e = ErrUnknownOperationType (Type_ op))).
Proof.
  unfold applyOperationToDocument, insertOutOfRange.
  destruct (String.eqb (Type_ op) OpInsert) eqn:Ei.
  - apply eqb_OpInsert in Ei.
    destruct (Position op <? 0) eqn:E1; cbn [orb].
    + intros [= <- <-]. apply Z.ltb_lt in E1. split; [reflexivity |].
      left. repeat split; auto.
    + destruct (len (Doc_Content (document sm)) <? Position op) eqn:E2.
      * intros [= <- <-]. apply Z.ltb_lt in E2. split; [reflexivity |].
        left. repeat split; auto.
      * intros [=].
  - destruct (String.eqb (Type_ op) OpDelete) eqn:Ed.
    + case_cmp; cbn [orb]; intros [=].
    + intros [= <- <-]. apply String.eqb_neq in Ei, Ed. split; [reflexivity |].
      right. repeat split; auto.
Qed.

Lemma applyOperationToDocument_buffer_irrelevant op sm b :
  snd (applyOperationToDocument op (set_localBuffer b sm))
  = snd (applyOperationToDocument op sm).
Proof.
  unfold applyOperationToDocument. cbn.
  repeat match goal with
  | |- context [if ?c then _ else _] => destruct c
  end; reflexivity.
Qed.

(** ** Local operations *)

(** The operation is queued before it is applied, whatever happens next. *)
Lemma ApplyLocalOperation_appends op sm :
  localBuffer (fst (ApplyLocalOperation op sm)) = (localBuffer sm ++ [op])%list.
Proof.
  unfold ApplyLocalOperation, applyOperationToDocument, commitToDocument,
    notify, addToHistory. cbn.
  repeat match goal with
  | |- context [if ?c then _ else _] => destruct c
  end; reflexivity.
Qed.

(** C10. [ApplyLocalOperation] queues the operation before it tries to
    apply it: whatever the operation and whatever the outcome, success or
    failure, the pending buffer afterwards is the old one with [op]
    appended, and the apply step runs on the state that already holds it.
    The call is not atomic: when the apply step returns an error [e], the
    call returns that error (wrapped), the operation stays in the pending
    buffer, and the manager's vector clock, the document and the operation
    history are as before.  An insert out of range and an operation of
    unknown kind are such failures. *)
Theorem ApplyLocalOperation_failure_keeps_pending
    (op : Operation) (sm : SyncManager) :
  let queued := set_localBuffer (localBuffer sm ++ [op]) sm in
  let sm' := fst (ApplyLocalOperation op sm) in
  localBuffer sm' = (localBuffer sm ++ [op])%list
  /\ (forall e : error,
        snd (applyOperationToDocument op queued) = Some e ->
        snd (ApplyLocalOperation op sm)
        = Some (ErrWrap "failed to apply local operation" e)
        /\ sm' = queued
        /\ vectorClock sm' = vectorClock sm
        /\ document sm' = document sm
        /\ operationHistory sm' = operationHistory sm)
  /\ (snd (applyOperationToDocument op queued) = None ->
      snd (ApplyLocalOperation op sm) = None)
  /\ ((Type_ op = OpInsert
       /\ insertOutOfRange op (Doc_Content (document sm)))
      \/ (Type_ op <> OpInsert /\ Type_ op <> OpDelete) ->
      exists e : error, snd (applyOperationToDocument op queued) = Some e).
Proof.
  cbn zeta. split; [apply ApplyLocalOperation_appends |]. split; [| split].
  - intros e He. unfold ApplyLocalOperation.
    destruct (applyOperationToDocument op
                (set_localBuffer (localBuffer sm ++ [op]) sm))
      as [sm2 [e'|]] eqn:Ea; cbn in He; [| discriminate].
    injection He as ->.
    apply applyOperationToDocument_error in Ea as [-> _].
    cbn. repeat split.
  - intros Hn. unfold ApplyLocalOperation.
    destruct (applyOperationToDocument op
                (set_localBuffer (localBuffer sm ++ [op]) sm))
      as [sm2 [e'|]]; cbn in Hn; [discriminate | reflexivity].
  - intros [[Ht Hr] | [Hi Hd]].
    + rewrite applyOperationToDocument_insert_out_of_range by assumption.
      eexists. reflexivity.
    + rewrite applyOperationToDocument_unknown by assumption.
      eexists. reflexivity.
Qed.

Lemma ApplyLocalOperation_failure_keeps_pending_witness :
  let sm := managerWith "abc" in
  let sm' := fst (ApplyLocalOperation ex_insertPastEnd sm) in
  snd (ApplyLocalOperation ex_insertPastEnd sm)
  = Some (ErrWrap "failed to apply local operation"
            (ErrInvalidInsertPosition 5 3))
  /\ localBuffer sm' = (localBuffer sm ++ [ex_insertPastEnd])%list
  /\ vectorClock sm' = vectorClock sm
  /\ document sm' = document sm
  /\ operationHistory sm' = operationHistory sm.
Proof.
  destruct (ApplyLocalOperation_failure_keeps_pending ex_insertPastEnd
              (managerWith "abc")) as (Hq & Hf & _).
  destruct (Hf (ErrInvalidInsertPosition 5 3) eq_refl)
    as (He & _ & Hv & Hd & Hh).
  cbn zeta. repeat split; assumption.
Defined.

(** On success too the operation has been queued. *)
Example ApplyLocalOperation_success_pending :
  snd (ApplyLocalOperation ex_remoteA (managerWith "abc")) = None
  /\ localBuffer (fst (ApplyLocalOperation ex_remoteA (managerWith "abc")))
     = [ex_remoteA].
Proof. split; reflexivity. Qed.

(** The same on an operation of kind [retain]. *)
Example ApplyLocalOperation_retain_pending :
  ApplyLocalOperation ex_retain (managerWith "abc")
  = (set_localBuffer [ex_retain] (managerWith "abc"),
     Some (ErrWrap "failed to apply local operation"
             (ErrUnknownOperationType OpRetain))).
Proof. reflexivity. Qed.

(** C4, as stated, fails: a local delete positioned past the end of the
    document is accepted without an error. *)
Lemma local_delete_past_end_succeeds :
  Type_ ex_deletePastEnd = OpDelete
  /\ len (GetDocumentContent (managerWith "abc")) < Position ex_deletePastEnd
  /\ snd (ApplyLocalOperation ex_deletePastEnd (managerWith "abc")) = None.
Proof. repeat split. Qed.

(** C4, amended. [ApplyLocalOperation] fails with the invalid-position
    error for an insert whose position is negative or beyond the end of the
    document, and only for such an insert; the operation stays queued.  Its
    one other error is that of an operation of unknown kind.  A delete
    never fails, whatever its position and length: when its position is
    negative or at or beyond the end it is accepted and leaves the document
    as it is, while still being queued. *)
Theorem ApplyLocalOperation_out_of_range (op : Operation) (sm : SyncManager) :
  let content := Doc_Content (document sm) in
  let invalid :=
    ErrWrap "failed to apply local operation"
      (ErrInvalidInsertPosition (Position op) (len content)) in
  (Type_ op = OpInsert -> insertOutOfRange op content ->
   ApplyLocalOperation op sm
   = (set_localBuffer (localBuffer sm ++ [op]) sm, Some invalid))
  /\ (Type_ op = OpDelete ->
      snd (ApplyLocalOperation op sm) = None
      /\ localBuffer (fst (ApplyLocalOperation op sm))
         = (localBuffer sm ++ [op])%list
      /\ (deleteOutOfRange op content ->
          document (fst (ApplyLocalOperation op sm)) = document sm))
  /\ (forall e : error,
        snd (ApplyLocalOperation op sm) = Some e ->
        (Type_ op = OpInsert /\ insertOutOfRange op content /\ e = invalid)
        \/ (Type_ op <> OpInsert /\ Type_ op <> OpDelete
            /\ e = ErrWrap "failed to apply local operation"
                     (ErrUnknownOperationType (Type_ op))))
  /\ (forall (prefix : string) (p n : Z),
        snd (ApplyLocalOperation op sm)
        = Some (ErrWrap prefix (ErrInvalidInsertPosition p n)) ->
        Type_ op = OpInsert /\ insertOutOfRange op content
        /\ p = Position op /\ n = len content).
Proof.
  cbn zeta.
  assert (forall e : error,
            snd (ApplyLocalOperation op sm) = Some e ->
            (Type_ op = OpInsert
             /\ insertOutOfRange op (Doc_Content (document sm))
             /\ e = ErrWrap "failed to apply local operation"
                      (ErrInvalidInsertPosition (Position op)
                         (len (Doc_Content (document sm)))))
            \/ (Type_ op <> OpInsert /\ Type_ op <> OpDelete
                /\ e = ErrWrap "failed to apply local operation"
                         (ErrUnknownOperationType (Type_ op)))) as Honly.
  { intros e. unfold ApplyLocalOperation.
    destruct (applyOperationToDocument op
                (set_localBuffer (localBuffer sm ++ [op]) sm))
      as [sm2 [e'|]] eqn:Ea; cbn [snd]; [| discriminate].
    intros [= <-].
    apply applyOperationToDocument_error in Ea
      as [_ [(Ht & Hr & ->) | (Hi & Hd & ->)]]; [left | right];
      repeat split; assumption. }
  split; [| split; [| split]].
  - intros Ht Hr. unfold ApplyLocalOperation.
    rewrite applyOperationToDocument_insert_out_of_range by assumption.
    reflexivity.
  - intros Ht. split; [| split].
    + destruct (snd (ApplyLocalOperation op sm)) as [e |] eqn:E;
        [| reflexivity].
      destruct (Honly e eq_refl) as [(Hi & _) | (_ & Hd & _)];
        [rewrite Ht in Hi; discriminate Hi | contradiction].
    + apply ApplyLocalOperation_appends.
    + intros Hr. unfold ApplyLocalOperation.
      rewrite applyOperationToDocument_delete_out_of_range by assumption.
      reflexivity.
  - exact Honly.
  - intros prefix p n He.
    destruct (Honly _ He) as [(Ht & Hr & Heq) | (_ & _ & Heq)].
    + injection Heq as _ -> ->. repeat split; assumption.
    + discriminate Heq.
Qed.

Lemma ApplyLocalOperation_out_of_range_witness :
  snd (ApplyLocalOperation ex_deletePastEnd (managerWith "abc")) = None
  /\ document (fst (ApplyLocalOperation ex_deletePastEnd (managerWith "abc")))
     = document (managerWith "abc")
  /\ localBuffer (fst (ApplyLocalOperation ex_deletePastEnd (managerWith "abc")))
     = (localBuffer (managerWith "abc") ++ [ex_deletePastEnd])%list.
Proof.
  destruct (ApplyLocalOperation_out_of_range ex_deletePastEnd
              (managerWith "abc")) as (_ & Hd & _).
  destruct (Hd eq_refl) as (Hn & Hb & Hdoc).
  split; [exact Hn |]. split; [| exact Hb].
  apply Hdoc. right. vm_compute. discriminate.
Defined.

(** An insert at the very end of the document is in range. *)
Example ApplyLocalOperation_insert_at_end :
  snd (ApplyLocalOperation (insertOp 3 "x" "u1" 1 "u1-1" {[ "u1" := 1 ]})
         (managerWith "abc")) = None.
Proof. reflexivity. Qed.

(** ** Remote operations *)

Lemma applyEach_directly_no_error prefix ops sm :
  snd (applyEach applyOperationDirectly prefix ops sm) = None.
Proof.
  revert sm. induction ops as [| op ops IH]; intros sm; [reflexivity |].
  cbn [applyEach]. unfold applyOperationDirectly at 1. cbv beta iota zeta.
  apply IH.
Qed.

Lemma undoLocalOperations_no_error ops sm :
  snd (undoLocalOperations ops sm) = None.
Proof. apply applyEach_directly_no_error. Qed.

Lemma updateFirstByID_length id f ops :
  length (updateFirstByID id f ops) = length ops.
Proof.
  induction ops as [| o ops IH]; [reflexivity |].
  cbn. destruct (String.eqb (ID o) id); cbn; congruence.
Qed.

Lemma transformTarget_length r t a f st :
  length (transformedLocalOps (transformTarget r t a f st))
  = length (transformedLocalOps st).
Proof.
  unfold transformTarget. destruct (String.eqb (ID t) (ID r)); cbn;
    [reflexivity | apply updateFirstByID_length].
Qed.

Lemma transformPair_length h r op1 op2 st :
  length (transformedLocalOps (transformPair h r op1 op2 st))
  = length (transformedLocalOps st).
Proof.
  unfold transformPair.
  repeat match goal with
  | |- context [if ?c then _ else _] => destruct c
  end; cbn; rewrite ?transformTarget_length; reflexivity.
Qed.

Lemma transformAll_length h r sorted st :
  length (transformedLocalOps (transformAll h r sorted st))
  = length (transformedLocalOps st).
Proof.
  revert st. induction sorted as [| op1 rest IH]; intros st; [reflexivity |].
  cbn [transformAll]. rewrite IH.
  generalize rest at 1. intros l. revert st.
  induction l as [| op2 l IHl]; intros st; [reflexivity |].
  cbn [fold_left]. rewrite IHl. apply transformPair_length.
Qed.

Section RemoteFacts.

Variable sortSlice :
  (Operation -> Operation -> bool) -> list Operation -> list Operation.

(** The transformation never fails and hands back as many pending
    operations as it was given. *)
Lemma performOperationalTransformation_shape r ls sm :
  exists r' ls',
    performOperationalTransformation sortSlice r ls sm
    = (set_notified
         (notified sm
          ++ conflicts (transformAll (onConflictResolved sm) r
                          (topologicalSort sortSlice (r :: ls))
                          (mkOTState r ls [])))%list sm,
       (r', ls', None))
    /\ length ls' = length ls.
Proof.
  unfold performOperationalTransformation. do 2 eexists. split; [reflexivity |].
  apply transformAll_length.
Qed.

(** [ApplyRemoteOperation] read in three steps: the stage, the remote
    operation, the rest. *)
Lemma ApplyRemoteOperation_steps r sm sm4 r' ls' :
  remoteStage sortSlice r sm = (sm4, r', ls') ->
  ApplyRemoteOperation sortSlice r sm
  = match applyOperationToDocument r' sm4 with
    | (sm5, Some err) =>
      (sm5, Some (ErrWrap "failed to apply transformed remote operation" err))
    | (sm5, None) => finishRemote r' ls' sm5
    end.
Proof.
  unfold remoteStage, ApplyRemoteOperation.
  unfold performOperationalTransformation. cbv zeta.
  match goal with
  | |- context [undoLocalOperations ?l ?s] =>
    pose proof (undoLocalOperations_no_error l s) as Hu;
    destruct (undoLocalOperations l s) as [sm4' e4]
  end.
  cbn in Hu. subst e4. cbn [fst]. intros [= <- <- <-].
  unfold finishRemote. reflexivity.
Qed.

Lemma remoteStage_empty_buffer r sm sm4 r' ls' :
  localBuffer sm = [] ->
  remoteStage sortSlice r sm = (sm4, r', ls') -> ls' = [].
Proof.
  intros Hb. unfold remoteStage. cbn [set_vectorClock set_remoteBuffer localBuffer].
  rewrite Hb.
  destruct (performOperationalTransformation_shape r []
    (set_vectorClock
       (Update (Op_VectorClock r)
          (vectorClock (set_remoteBuffer (remoteBuffer sm ++ [r]) sm)))
       (set_remoteBuffer (remoteBuffer sm ++ [r]) sm)))
    as (r0 & ls0 & Hp & Hl).
  cbn [set_vectorClock set_remoteBuffer localBuffer vectorClock] in *.
  rewrite Hp. intros [= _ _ <-].
  destruct ls0; [reflexivity | discriminate].
Qed.

(** C5, amended. Let [r'] be the remote operation after transformation and
    [sm4] the manager once the pending operations are undone.  If [r'] is
    an insert whose position is out of range, [ApplyRemoteOperation] fails
    with the invalid-position error, leaving [sm4]; if [r'] is a delete
    whose position is out of range, it is skipped: the call goes on as if
    [r'] had been applied without effect, and with no pending operation it
    returns success with the document of [sm4]. *)
Theorem ApplyRemoteOperation_invalid_position
    (r : Operation) (sm sm4 : SyncManager) (r' : Operation)
    (ls' : list Operation) :
  remoteStage sortSlice r sm = (sm4, r', ls') ->
  (Type_ r' = OpInsert /\ insertOutOfRange r' (Doc_Content (document sm4)))
  \/ (Type_ r' = OpDelete /\ deleteOutOfRange r' (Doc_Content (document sm4))) ->
  (Type_ r' = OpInsert ->
   ApplyRemoteOperation sortSlice r sm
   = (sm4,
      Some (ErrWrap "failed to apply transformed remote operation"
              (ErrInvalidInsertPosition (Position r')
                 (len (Doc_Content (document sm4)))))))
  /\ (Type_ r' = OpDelete ->
      ApplyRemoteOperation sortSlice r sm = finishRemote r' ls' sm4
      /\ (localBuffer sm = [] ->
          snd (ApplyRemoteOperation sortSlice r sm) = None
          /\ document (fst (ApplyRemoteOperation sortSlice r sm))
             = document sm4)).
Proof.
  intros Hs H. rewrite (ApplyRemoteOperation_steps _ _ _ _ _ Hs).
  split; intros Ht.
  - destruct H as [[_ Hr] | [Hd _]]; [| rewrite Ht in Hd; discriminate].
    rewrite applyOperationToDocument_insert_out_of_range by assumption.
    reflexivity.
  - destruct H as [[Hi _] | [_ Hr]]; [rewrite Ht in Hi; discriminate |].
    rewrite applyOperationToDocument_delete_out_of_range by assumption.
    split; [reflexivity |].
    intros Hb. rewrite (remoteStage_empty_buffer _ _ _ _ _ Hb Hs).
    unfold finishRemote, addToHistory, notify. cbn.
    repeat match goal with
    | |- context [if ?c then _ else _] => destruct c
    end; cbn; split; reflexivity.
Qed.

End RemoteFacts.

(** C5, as stated, fails: a remote insert whose position lies past the end
    of the document is refused with an error. *)
Lemma remote_insert_past_end_fails :
  Type_ ex_remoteInsertPastEnd = OpInsert
  /\ len (GetDocumentContent (managerWith "")) < Position ex_remoteInsertPastEnd
  /\ snd (ApplyRemoteOperation insertionSort ex_remoteInsertPastEnd
            (managerWith ""))
     = Some (ErrWrap "failed to apply transformed remote operation"
               (ErrInvalidInsertPosition 5 0)).
Proof. repeat split. Qed.

Lemma ApplyRemoteOperation_invalid_position_witness :
  ApplyRemoteOperation insertionSort ex_remoteDeletePastEnd (managerWith "")
  = finishRemote ex_remoteDeletePastEnd []
      (fst (fst (remoteStage insertionSort ex_remoteDeletePastEnd
                   (managerWith ""))))
  /\ (localBuffer (managerWith "") = [] ->
      snd (ApplyRemoteOperation insertionSort ex_remoteDeletePastEnd
             (managerWith "")) = None
      /\ document (fst (ApplyRemoteOperation insertionSort
                          ex_remoteDeletePastEnd (managerWith "")))
         = document (fst (fst (remoteStage insertionSort
                                 ex_remoteDeletePastEnd (managerWith ""))))).
Proof.
  apply (ApplyRemoteOperation_invalid_position insertionSort
           ex_remoteDeletePastEnd (managerWith "")
           (fst (fst (remoteStage insertionSort ex_remoteDeletePastEnd
                        (managerWith ""))))
           ex_remoteDeletePastEnd []).
  - vm_compute. reflexivity.
  - right. split; [reflexivity |]. right. vm_compute. discriminate.
  - reflexivity.
Defined.

(** ** The version counts the applied log *)

Lemma versionInv_document sm sm' :
  document sm' = document sm -> versionInv sm -> versionInv sm'.
Proof. unfold versionInv. intros ->. auto. Qed.

Lemma versionInv_step sm d op c vc :
  versionInv sm ->
  d = mkDocumentState c (wrap64 (Version (document sm) + 1))
        (Operations (document sm) ++ [op]) vc ->
  versionInv (set_document d sm).
Proof.
  unfold versionInv. intros H ->. cbn. rewrite H, wrap64_add_l.
  rewrite length_app. cbn. f_equal. lia.
Qed.

Lemma versionInv_commit op c sm :
  versionInv sm -> versionInv (commitToDocument op c sm).
Proof.
  intros H. unfold commitToDocument, notify.
  match goal with |- context [if ?b then _ else _] => destruct b end.
  - eapply versionInv_document; [| eapply versionInv_step; eauto]. reflexivity.
  - eapply versionInv_step; eauto.
Qed.

Lemma versionInv_applyOperationToDocument op sm :
  versionInv sm -> versionInv (fst (applyOperationToDocument op sm)).
Proof.
  intros H. unfold applyOperationToDocument.
  repeat match goal with
  | |- context [if ?c then _ else _] => destruct c
  end; cbn [fst]; auto using versionInv_commit.
Qed.

Lemma versionInv_applyOperationDirectly op sm :
  versionInv sm -> versionInv (fst (applyOperationDirectly op sm)).
Proof.
  intros H. unfold applyOperationDirectly. cbn [fst].
  eapply versionInv_step; eauto.
Qed.

Lemma versionInv_applyEach f prefix ops :
  (forall op sm, versionInv sm -> versionInv (fst (f op sm))) ->
  forall sm, versionInv sm -> versionInv (fst (applyEach f prefix ops sm)).
Proof.
  intros Hf. induction ops as [| op ops IH]; intros sm H; [exact H |].
  cbn [applyEach]. specialize (Hf op sm H).
  destruct (f op sm) as [sm1 [e |]]; cbn [fst] in *; auto.
Qed.

(** Undoing rebuilds the log from nothing, so it establishes the
    invariant whatever the state before. *)
Lemma versionInv_undoLocalOperations ops sm :
  versionInv (fst (undoLocalOperations ops sm)).
Proof.
  unfold undoLocalOperations.
  apply versionInv_applyEach; [apply versionInv_applyOperationDirectly |].
  reflexivity.
Qed.

Lemma versionInv_addToHistory op sm :
  versionInv sm -> versionInv (addToHistory op sm).
Proof. apply versionInv_document. reflexivity. Qed.

Lemma versionInv_notify b e sm : versionInv sm -> versionInv (notify b e sm).
Proof. destruct b; [apply versionInv_document; reflexivity | auto]. Qed.

Lemma versionInv_ApplyLocalOperation op sm :
  versionInv sm -> versionInv (fst (ApplyLocalOperation op sm)).
Proof.
  intros H. unfold ApplyLocalOperation.
  pose proof (versionInv_applyOperationToDocument op
                (set_localBuffer (localBuffer sm ++ [op]) sm) H) as Ha.
  destruct (applyOperationToDocument op _) as [sm2 [e |]]; cbn [fst] in *;
    [exact Ha |].
  apply versionInv_addToHistory. exact Ha.
Qed.

Lemma versionInv_finishRemote r' ls' sm :
  versionInv sm -> versionInv (fst (finishRemote r' ls' sm)).
Proof.
  intros H. unfold finishRemote.
  pose proof (versionInv_applyEach applyOperationToDocument
                "failed to reapply transformed local operation" ls'
                versionInv_applyOperationToDocument sm H) as Ha.
  destruct (applyEach _ _ _ _) as [sm6 [e |]]; cbn [fst] in *; [exact Ha |].
  apply versionInv_notify, versionInv_addToHistory. exact Ha.
Qed.

Lemma versionInv_ApplyRemoteOperation sortSlice r sm :
  versionInv (fst (ApplyRemoteOperation sortSlice r sm)).
Proof.
  destruct (remoteStage sortSlice r sm) as [[sm4 r'] ls'] eqn:Hs.
  rewrite (ApplyRemoteOperation_steps _ _ _ _ _ _ Hs).
  assert (versionInv sm4) as H4.
  { revert Hs. unfold remoteStage. cbv zeta.
    destruct (performOperationalTransformation _ _ _ _) as [sm3 [[? ?] ?]].
    intros [= <- _ _]. apply versionInv_undoLocalOperations. }
  pose proof (versionInv_applyOperationToDocument r' sm4 H4) as Ha.
  destruct (applyOperationToDocument r' sm4) as [sm5 [e |]]; cbn [fst] in *;
    [exact Ha |].
  apply versionInv_finishRemote. exact Ha.
Qed.

Lemma applyOperationToDocument_log op sm :
  let d := document sm in
  let d' := document (fst (applyOperationToDocument op sm)) in
  d' = d
  \/ (Version d' = wrap64 (Version d + 1)
      /\ Operations d' = (Operations d ++ [op])%list).
Proof.
  unfold applyOperationToDocument, commitToDocument, notify.
  repeat match goal with
  | |- context [if ?c then _ else _] => destruct c
  end; cbn; auto.
Qed.

Lemma ApplyLocalOperation_log op sm :
  let d := document sm in
  let d' := document (fst (ApplyLocalOperation op sm)) in
  d' = d
  \/ (Version d' = wrap64 (Version d + 1)
      /\ Operations d' = (Operations d ++ [op])%list).
Proof.
  unfold ApplyLocalOperation.
  pose proof (applyOperationToDocument_log op
                (set_localBuffer (localBuffer sm ++ [op]) sm)) as Ha.
  destruct (applyOperationToDocument op _) as [sm2 [e |]]; cbn in *; exact Ha.
Qed.

(** What a replay of operations through [applyOperationDirectly] leaves. *)
Lemma applyOperationDirectly_fields op sm :
  let sm' := fst (applyOperationDirectly op sm) in
  Doc_Content (document sm') = directContent op (Doc_Content (document sm))
  /\ Operations (document sm') = (Operations (document sm) ++ [op])%list
  /\ Version (document sm') = wrap64 (Version (document sm) + 1)
  /\ localBuffer sm' = localBuffer sm
  /\ remoteBuffer sm' = remoteBuffer sm
  /\ operationHistory sm' = operationHistory sm
  /\ onDocumentChanged sm' = onDocumentChanged sm
  /\ onOperationApplied sm' = onOperationApplied sm.
Proof. cbn. repeat split. Qed.

Lemma applyEach_directly_cons prefix op ops sm :
  applyEach applyOperationDirectly prefix (op :: ops) sm
  = applyEach applyOperationDirectly prefix ops
      (fst (applyOperationDirectly op sm)).
Proof. reflexivity. Qed.

Lemma replay_fields prefix ops sm :
  let sm' := fst (applyEach applyOperationDirectly prefix ops sm) in
  Doc_Content (document sm')
  = fold_left (fun c op => directContent op c) ops (Doc_Content (document sm))
  /\ Operations (document sm') = (Operations (document sm) ++ ops)%list
  /\ (versionInv sm -> versionInv sm')
  /\ localBuffer sm' = localBuffer sm
  /\ remoteBuffer sm' = remoteBuffer sm
  /\ operationHistory sm' = operationHistory sm
  /\ onDocumentChanged sm' = onDocumentChanged sm
  /\ onOperationApplied sm' = onOperationApplied sm.
Proof.
  revert sm. induction ops as [| op ops IH]; intros sm.
  - cbn. rewrite app_nil_r. repeat split. auto.
  - rewrite applyEach_directly_cons.
    specialize (IH (fst (applyOperationDirectly op sm))). cbv zeta in IH.
    destruct IH as (Ic & Io & Iv & Il & Ir & Ih & In1 & In2).
    destruct (applyOperationDirectly_fields op sm)
      as (Hc & Ho & _ & Hl & Hr & Hh & Hn1 & Hn2).
    cbv zeta. rewrite Ic, Io, Il, Ir, Ih, In1, In2, Hc, Ho, Hl, Hr, Hh, Hn1, Hn2.
    cbn [fold_left]. rewrite <- app_assoc. cbn [app].
    repeat split. intros Hv. apply Iv, versionInv_applyOperationDirectly, Hv.
Qed.

Lemma applyEach_log_length prefix ops sm :
  (length (Operations (document
             (fst (applyEach applyOperationToDocument prefix ops sm))))
   <= length (Operations (document sm)) + length ops)%nat.
Proof.
  revert sm. induction ops as [| op ops IH]; intros sm; [cbn; lia |].
  cbn [applyEach].
  pose proof (applyOperationToDocument_log op sm) as Hl. cbv zeta in Hl.
  destruct (applyOperationToDocument op sm) as [sm1 [e |]]; cbn [fst] in *.
  - destruct Hl as [-> | [_ ->]]; rewrite ?length_app; cbn [length]; lia.
  - specialize (IH sm1).
    destruct Hl as [Hd | [_ Ho]]; [rewrite Hd in IH | rewrite Ho in IH];
      rewrite ?length_app in IH; cbn [length] in *; lia.
Qed.

Lemma undoLocalOperations_log_length ops sm :
  (length (Operations (document (fst (undoLocalOperations ops sm))))
   <= length (Operations (document sm)))%nat.
Proof.
  unfold undoLocalOperations. cbv zeta.
  match goal with
  | |- context [applyEach _ ?p ?l ?s] =>
    destruct (replay_fields p l s) as (_ & Ho & _)
  end.
  rewrite Ho. cbn [document set_document Operations app].
  apply filter_length_le.
Qed.

Lemma ApplyRemoteOperation_log_length sortSlice r sm :
  (length (Operations (document (fst (ApplyRemoteOperation sortSlice r sm))))
   <= length (Operations (document sm)) + 1 + length (localBuffer sm))%nat.
Proof.
  destruct (remoteStage sortSlice r sm) as [[sm4 r'] ls'] eqn:Hs.
  rewrite (ApplyRemoteOperation_steps _ _ _ _ _ _ Hs).
  assert ((length (Operations (document sm4))
           <= length (Operations (document sm)))%nat
          /\ length ls' = length (localBuffer sm)) as [H4 Hl].
  { revert Hs. unfold remoteStage. cbv zeta.
    match goal with
    | |- context [performOperationalTransformation _ ?r0 ?l0 ?s0] =>
      destruct (performOperationalTransformation_shape sortSlice r0 l0 s0)
        as (r1 & l1 & -> & Hlen)
    end.
    intros [= <- _ <-]. split; [| exact Hlen].
    etransitivity; [apply undoLocalOperations_log_length |]. cbn. lia. }
  pose proof (applyOperationToDocument_log r' sm4) as Ha. cbv zeta in Ha.
  destruct (applyOperationToDocument r' sm4) as [sm5 [e |]]; cbn [fst] in *.
  - destruct Ha as [-> | [_ ->]]; rewrite ?length_app; cbn [length]; lia.
  - unfold finishRemote.
    pose proof (applyEach_log_length
                  "failed to reapply transformed local operation" ls' sm5)
      as He.
    assert ((length (Operations (document sm5))
             <= length (Operations (document sm4)) + 1)%nat) as H5.
    { destruct Ha as [-> | [_ ->]]; rewrite ?length_app; cbn [length]; lia. }
    destruct (applyEach _ _ _ _) as [sm6 [e |]]; cbn [fst] in *; [lia |].
    unfold addToHistory, notify.
    match goal with |- context [if ?c then _ else _] => destruct c end;
      cbn; lia.
Qed.

(** C6, as stated, fails in its second half: a remote delivery that
    completes without error can lower the version.  After [u2]'s insert of
    ["ab"] and [u1]'s two deletes the version is 3.  When [u3]'s delete
    arrives, the two pending deletes are undone and transformed; the second
    one comes out empty and is skipped on replay, and so is the remote
    delete: the log is left with two entries. *)
Lemma version_decreases_on_remote :
  versionInv ex_afterTwoDeletes
  /\ GetDocumentVersion ex_afterTwoDeletes = 3
  /\ snd (ApplyRemoteOperation insertionSort ex_remoteDeleteBoth
            ex_afterTwoDeletes) = None
  /\ GetDocumentVersion
       (fst (ApplyRemoteOperation insertionSort ex_remoteDeleteBoth
               ex_afterTwoDeletes)) = 2
  /\ Operations
       (document (fst (ApplyRemoteOperation insertionSort ex_remoteDeleteBoth
                         ex_afterTwoDeletes)))
     = [ex_insertAB; ex_deleteA].
Proof. repeat split; vm_compute; reflexivity. Qed.

(** C6, amended. The version is the length of the applied log after
    [InitializeDocument], [ApplyLocalOperation] and [ApplyRemoteOperation],
    on the error path as well; [ApplyLocalOperation] never lowers the
    version.  (Nothing is promised about the direction in which
    [ApplyRemoteOperation] moves it.)  The bound on the lengths says that
    the log, with the pending operations added, still fits a slice. *)
Theorem version_counts_applied_log
    (sortSlice : (Operation -> Operation -> bool) -> list Operation
                 -> list Operation)
    (sm : SyncManager) :
  versionInv sm ->
  Z.of_nat (length (Operations (document sm)))
  + Z.of_nat (length (localBuffer sm)) < MaxInt64 ->
  Version (document sm) = Z.of_nat (length (Operations (document sm)))
  /\ (forall content,
        Version (document (InitializeDocument content sm)) = 0
        /\ Operations (document (InitializeDocument content sm)) = [])
  /\ (forall op,
        let sm' := fst (ApplyLocalOperation op sm) in
        Version (document sm') = Z.of_nat (length (Operations (document sm')))
        /\ Version (document sm) <= Version (document sm'))
  /\ (forall r,
        let sm' := fst (ApplyRemoteOperation sortSlice r sm) in
        Version (document sm')
        = Z.of_nat (length (Operations (document sm')))).
Proof.
  intros Hinv Hlen.
  assert (Version (document sm) = Z.of_nat (length (Operations (document sm))))
    as Hv.
  { rewrite Hinv. apply wrap64_small. unfold inInt64, MinInt64, MaxInt64 in *.
    lia. }
  split; [exact Hv |]. split; [intros; split; reflexivity |]. split.
  - intros op sm'.
    pose proof (ApplyLocalOperation_log op sm) as Hstep. cbv zeta in Hstep.
    fold sm' in Hstep.
    destruct Hstep as [-> | [Hv' Ho']]; [split; [exact Hv | lia] |].
    rewrite Hv', Ho', Hv, length_app. cbn [length].
    rewrite wrap64_small by (unfold inInt64, MinInt64, MaxInt64 in *; lia).
    lia.
  - intros r sm'.
    pose proof (versionInv_ApplyRemoteOperation sortSlice r sm) as Hinv'.
    pose proof (ApplyRemoteOperation_log_length sortSlice r sm) as Hl.
    fold sm' in Hinv', Hl. rewrite Hinv'.
    apply wrap64_small. unfold inInt64, MinInt64, MaxInt64 in *. lia.
Qed.

Lemma version_counts_applied_log_witness :
  let sm := ex_afterLocalDelete in
  Version (document sm) = Z.of_nat (length (Operations (document sm)))
  /\ (forall content,
        Version (document (InitializeDocument content sm)) = 0
        /\ Operations (document (InitializeDocument content sm)) = [])
  /\ (forall op,
        let sm' := fst (ApplyLocalOperation op sm) in
        Version (document sm') = Z.of_nat (length (Operations (document sm')))
        /\ Version (document sm) <= Version (document sm'))
  /\ (forall r,
        let sm' := fst (ApplyRemoteOperation insertionSort r sm) in
        Version (document sm')
        = Z.of_nat (length (Operations (document sm')))).
Proof.
  apply (version_counts_applied_log insertionSort ex_afterLocalDelete).
  - reflexivity.
  - vm_compute. reflexivity.
Defined.

(** ** Remote delivery is not deduplicated *)

Lemma filter_keep_all {A} (f : A -> bool) l :
  (forall x, f x = true) -> List.filter f l = l.
Proof.
  intros H. induction l as [| x l IH]; [reflexivity |].
  cbn. rewrite H, IH. reflexivity.
Qed.

(** With nothing pending, the undo replays the whole log. *)
Lemma undoLocalOperations_nil sm :
  let sm' := fst (undoLocalOperations [] sm) in
  Doc_Content (document sm') = replayContent (Operations (document sm))
  /\ Operations (document sm') = Operations (document sm)
  /\ versionInv sm'
  /\ localBuffer sm' = localBuffer sm
  /\ remoteBuffer sm' = remoteBuffer sm
  /\ operationHistory sm' = operationHistory sm
  /\ onDocumentChanged sm' = onDocumentChanged sm
  /\ onOperationApplied sm' = onOperationApplied sm.
Proof.
  unfold undoLocalOperations. cbv zeta.
  rewrite filter_keep_all by reflexivity.
  match goal with
  | |- context [applyEach _ ?p ?l ?s] =>
    destruct (replay_fields p l s) as (Hc & Ho & Hv & Hl & Hr & Hh & Hn1 & Hn2)
  end.
  rewrite Hc, Ho, Hl, Hr, Hh, Hn1, Hn2. cbn.
  repeat split. apply Hv. reflexivity.
Qed.

Lemma sliceTo_0 s : sliceTo s 0 = "".
Proof. destruct s; reflexivity. Qed.

Lemma sliceFrom_0 s : sliceFrom s 0 = s.
Proof. destruct s; reflexivity. Qed.

Lemma directContent_insert_head op c :
  Type_ op = OpInsert -> Position op = 0 ->
  directContent op c = String.append (Content op) c.
Proof.
  intros Ht Hp. unfold directContent. rewrite Ht, Hp.
  change (String.eqb OpInsert OpInsert) with true. cbv iota.
  pose proof (len_nonneg c) as Hl. apply Z.leb_le in Hl. rewrite Hl.
  cbn [Z.leb Z.compare andb]. rewrite sliceTo_0, sliceFrom_0. reflexivity.
Qed.

Lemma replayContent_snoc ops op :
  replayContent (ops ++ [op]) = directContent op (replayContent ops).
Proof. unfold replayContent. rewrite fold_left_app. reflexivity. Qed.

Lemma remoteBuffer_applyOperationToDocument op sm :
  remoteBuffer (fst (applyOperationToDocument op sm)) = remoteBuffer sm.
Proof.
  unfold applyOperationToDocument, commitToDocument, notify.
  repeat match goal with
  | |- context [if ?c then _ else _] => destruct c
  end; reflexivity.
Qed.

Lemma remoteBuffer_applyEach prefix ops sm :
  remoteBuffer (fst (applyEach applyOperationToDocument prefix ops sm))
  = remoteBuffer sm.
Proof.
  revert sm. induction ops as [| op ops IH]; intros sm; [reflexivity |].
  cbn [applyEach].
  pose proof (remoteBuffer_applyOperationToDocument op sm) as H.
  destruct (applyOperationToDocument op sm) as [sm1 [e |]]; cbn [fst] in *;
    [exact H |].
  rewrite IH. exact H.
Qed.

(** Every delivery is staged, whatever the log already holds and whatever
    the outcome of the call. *)
Lemma ApplyRemoteOperation_always_stages sortSlice r sm :
  remoteBuffer (fst (ApplyRemoteOperation sortSlice r sm))
  = (remoteBuffer sm ++ [r])%list.
Proof.
  destruct (remoteStage sortSlice r sm) as [[sm4 r'] ls'] eqn:Hs.
  rewrite (ApplyRemoteOperation_steps _ _ _ _ _ _ Hs).
  assert (remoteBuffer sm4 = (remoteBuffer sm ++ [r])%list) as H4.
  { revert Hs. unfold remoteStage, performOperationalTransformation.
    cbv zeta. intros [= <- _ _]. unfold undoLocalOperations. cbv zeta.
    match goal with
    | |- context [applyEach _ ?p ?l ?s] =>
      destruct (replay_fields p l s) as (_ & _ & _ & _ & Hr & _)
    end.
    rewrite Hr. reflexivity. }
  pose proof (remoteBuffer_applyOperationToDocument r' sm4) as Ha.
  destruct (applyOperationToDocument r' sm4) as [sm5 [e |]]; cbn [fst] in *;
    [congruence |].
  unfold finishRemote.
  pose proof (remoteBuffer_applyEach
                "failed to reapply transformed local operation" ls' sm5) as He.
  destruct (applyEach _ _ _ _) as [sm6 [e |]]; cbn [fst] in *; [congruence |].
  unfold addToHistory, notify.
  match goal with |- context [if ?c then _ else _] => destruct c end;
    cbn; congruence.
Qed.

Lemma applyOperationToDocument_insert_head op sm :
  Type_ op = OpInsert -> Position op = 0 ->
  applyOperationToDocument op sm
  = (commitToDocument op
       (String.append (Content op) (Doc_Content (document sm))) sm, None).
Proof.
  intros Ht Hp. unfold applyOperationToDocument. rewrite Ht, Hp.
  change (String.eqb OpInsert OpInsert) with true. cbv iota.
  pose proof (len_nonneg (Doc_Content (document sm))) as Hl.
  apply Z.ltb_ge in Hl. rewrite Hl. cbn [Z.ltb Z.compare orb].
  rewrite sliceTo_0, sliceFrom_0. reflexivity.
Qed.

Section Redelivery.

Variable sortSlice :
  (Operation -> Operation -> bool) -> list Operation -> list Operation.

(** Sorting a one-element slice leaves it alone. *)
Hypothesis sortSlice_singleton :
  forall less (x : Operation), sortSlice less [x] = [x].

Lemma remoteStage_nothing_pending r sm :
  localBuffer sm = [] ->
  exists sm4,
    remoteStage sortSlice r sm = (sm4, r, [])
    /\ Doc_Content (document sm4) = replayContent (Operations (document sm))
    /\ Operations (document sm4) = Operations (document sm)
    /\ versionInv sm4
    /\ localBuffer sm4 = []
    /\ remoteBuffer sm4 = (remoteBuffer sm ++ [r])%list.
Proof.
  intros Hb. unfold remoteStage, performOperationalTransformation,
    topologicalSort.
  cbn [set_vectorClock set_remoteBuffer localBuffer]. rewrite Hb.
  rewrite sortSlice_singleton. cbn [transformAll fold_left].
  cbn [transformedRemoteOp transformedLocalOps conflicts].
  eexists. split; [reflexivity |].
  match goal with
  | |- context [undoLocalOperations [] ?s] =>
    destruct (undoLocalOperations_nil s) as (Hc & Ho & Hv & Hl & Hr & _)
  end.
  rewrite Hc, Ho, Hl, Hr. cbn. rewrite Hb. repeat split. exact Hv.
Qed.

Lemma ApplyRemoteOperation_insert_head r sm :
  localBuffer sm = [] -> Type_ r = OpInsert -> Position r = 0 ->
  let res := ApplyRemoteOperation sortSlice r sm in
  snd res = None
  /\ localBuffer (fst res) = []
  /\ remoteBuffer (fst res) = (remoteBuffer sm ++ [r])%list
  /\ Operations (document (fst res))
     = (Operations (document sm) ++ [r])%list
  /\ Doc_Content (document (fst res))
     = String.append (Content r) (replayContent (Operations (document sm)))
  /\ Version (document (fst res))
     = wrap64 (Z.of_nat (length (Operations (document sm))) + 1).
Proof.
  intros Hb Ht Hp.
  destruct (remoteStage_nothing_pending r sm Hb)
    as (sm4 & Hs & Hc & Ho & Hv & Hl & Hr).
  cbv zeta. rewrite (ApplyRemoteOperation_steps _ _ _ _ _ _ Hs).
  rewrite applyOperationToDocument_insert_head by assumption.
  unfold finishRemote. cbn [applyEach].
  unfold commitToDocument, addToHistory, notify. unfold versionInv in Hv.
  repeat match goal with
  | |- context [if ?c then _ else _] => destruct c
  end; cbn; rewrite ?Hc, ?Ho, ?Hv, ?Hr, ?wrap64_add_l, ?Ho; repeat split.
Qed.

(** Two deliveries in a row of an insert at offset 0, with nothing pending:
    both succeed; the second one stages [r] again, logs it again, inserts
    its content again and bumps the version again. *)
Lemma ApplyRemoteOperation_twice_at_head
    (r : Operation) (sm : SyncManager) :
  localBuffer sm = [] -> Type_ r = OpInsert -> Position r = 0 ->
  let s1 := fst (ApplyRemoteOperation sortSlice r sm) in
  let s2 := fst (ApplyRemoteOperation sortSlice r s1) in
  snd (ApplyRemoteOperation sortSlice r sm) = None
  /\ snd (ApplyRemoteOperation sortSlice r s1) = None
  /\ remoteBuffer s2 = (remoteBuffer sm ++ [r; r])%list
  /\ Operations (document s1) = (Operations (document sm) ++ [r])%list
  /\ Operations (document s2) = (Operations (document sm) ++ [r; r])%list
  /\ Doc_Content (document s2)
     = String.append (Content r) (Doc_Content (document s1))
  /\ Version (document s1)
     = wrap64 (Z.of_nat (length (Operations (document sm))) + 1)
  /\ Version (document s2)
     = wrap64 (Z.of_nat (length (Operations (document sm))) + 2).
Proof.
  intros Hb Ht Hp s1 s2.
  destruct (ApplyRemoteOperation_insert_head r sm Hb Ht Hp)
    as (He1 & Hl1 & Hr1 & Ho1 & Hc1 & Hv1).
  fold s1 in Hl1, Hr1, Ho1, Hc1, Hv1.
  destruct (ApplyRemoteOperation_insert_head r s1 Hl1 Ht Hp)
    as (He2 & _ & Hr2 & Ho2 & Hc2 & Hv2).
  fold s2 in Hr2, Ho2, Hc2, Hv2.
  repeat split; try assumption.
  - rewrite Hr2, Hr1, <- app_assoc. reflexivity.
  - rewrite Ho2, Ho1, <- app_assoc. reflexivity.
  - rewrite Hc2, Ho1, replayContent_snoc,
      directContent_insert_head, Hc1 by assumption.
    reflexivity.
  - rewrite Hv2, Ho1, length_app. cbn [length]. f_equal. lia.
Qed.

End Redelivery.

Lemma insertionSort_singleton {A} (less : A -> A -> bool) (x : A) :
  insertionSort less [x] = [x].
Proof. reflexivity. Qed.

(** C2, as stated, fails: the second delivery of the same remote insert is
    not rejected; it changes the content and the version. *)
Lemma remote_redelivery_changes_document :
  let s1 := fst (ApplyRemoteOperation insertionSort ex_remoteA (managerWith "")) in
  let s2 := fst (ApplyRemoteOperation insertionSort ex_remoteA s1) in
  snd (ApplyRemoteOperation insertionSort ex_remoteA s1) = None
  /\ GetDocumentContent s1 = "a" /\ GetDocumentContent s2 = "aa"
  /\ GetDocumentVersion s1 = 1 /\ GetDocumentVersion s2 = 2.
Proof. repeat split. Qed.

(** ** Happens-before *)

Lemma hbLoopSelf_unfold entries other h :
  hbLoopSelf entries other h
  = if forallb (fun '(k, t) => t <=? vcGet other k) entries
    then Some (h || existsb (fun '(k, t) => t <? vcGet other k) entries)
    else None.
Proof.
  revert h. induction entries as [| [k t] rest IH]; intros h.
  - cbn. rewrite orb_false_r. reflexivity.
  - cbn [hbLoopSelf forallb existsb].
    destruct (vcGet other k <? t) eqn:E1.
    + apply Z.ltb_lt in E1. apply Z.leb_gt in E1. rewrite E1. reflexivity.
    + apply Z.ltb_ge in E1. apply Z.leb_le in E1. rewrite E1. cbn [andb].
      rewrite IH. destruct (forallb _ rest); [| reflexivity].
      destruct (t <? vcGet other k), h; reflexivity.
Qed.

Lemma hbLoopOther_unfold entries vc h :
  hbLoopOther entries vc h
  = if forallb (fun '(k, t) => vcGet vc k <=? t) entries
    then Some (h || existsb (fun '(k, t) => vcGet vc k <? t) entries)
    else None.
Proof.
  revert h. induction entries as [| [k t] rest IH]; intros h.
  - cbn. rewrite orb_false_r. reflexivity.
  - cbn [hbLoopOther forallb existsb].
    destruct (t <? vcGet vc k) eqn:E1.
    + apply Z.ltb_lt in E1. apply Z.leb_gt in E1. rewrite E1. reflexivity.
    + apply Z.ltb_ge in E1. apply Z.leb_le in E1. rewrite E1. cbn [andb].
      rewrite IH. destruct (forallb _ rest); [| reflexivity].
      destruct (vcGet vc k <? t), h; reflexivity.
Qed.

Lemma vcGet_entry (m : VectorClock) k t : m !! k = Some t -> vcGet m k = t.
Proof. unfold vcGet. intros ->. reflexivity. Qed.

Lemma vcGet_outside (m : VectorClock) k : k ∉ dom m -> vcGet m k = 0.
Proof.
  intros H. apply not_elem_of_dom in H. unfold vcGet. rewrite H. reflexivity.
Qed.

Lemma entries_forall (m : VectorClock) (P : string -> Z -> bool) :
  forallb (fun '(k, t) => P k t) (map_to_list m) = true
  <-> forall k, k ∈ dom m -> P k (vcGet m k) = true.
Proof.
  rewrite forallb_forall. split.
  - intros H k Hk. apply elem_of_dom in Hk as [t Ht].
    rewrite (vcGet_entry _ _ _ Ht).
    apply (H (k, t)), list_elem_of_In, elem_of_map_to_list, Ht.
  - intros H [k t] Hin.
    apply list_elem_of_In, elem_of_map_to_list in Hin.
    rewrite <- (vcGet_entry _ _ _ Hin). apply H, elem_of_dom. eauto.
Qed.

Lemma entries_exists (m : VectorClock) (P : string -> Z -> bool) :
  existsb (fun '(k, t) => P k t) (map_to_list m) = true
  <-> exists k, k ∈ dom m /\ P k (vcGet m k) = true.
Proof.
  rewrite existsb_exists. split.
  - intros [[k t] [Hin HP]].
    apply list_elem_of_In, elem_of_map_to_list in Hin.
    exists k. rewrite (vcGet_entry _ _ _ Hin). split; [| exact HP].
    apply elem_of_dom. eauto.
  - intros [k [Hk HP]]. apply elem_of_dom in Hk as [t Ht].
    rewrite (vcGet_entry _ _ _ Ht) in HP. exists (k, t). split; [| exact HP].
    apply list_elem_of_In, elem_of_map_to_list, Ht.
Qed.

(** [HappensBefore] in terms of its two scans. *)
Lemma HappensBefore_scans (a b : VectorClock) :
  HappensBefore a b = true
  <-> (forall k, k ∈ dom a -> vcGet a k <= vcGet b k)
      /\ (forall k, k ∈ dom b -> vcGet a k <= vcGet b k)
      /\ ((exists k, k ∈ dom a /\ vcGet a k < vcGet b k)
          \/ (exists k, k ∈ dom b /\ vcGet a k < vcGet b k)).
Proof.
  unfold HappensBefore. rewrite hbLoopSelf_unfold.
  pose proof (entries_forall a (fun k t => t <=? vcGet b k)) as F1.
  pose proof (entries_forall b (fun k t => vcGet a k <=? t)) as F2.
  pose proof (entries_exists a (fun k t => t <? vcGet b k)) as E1.
  pose proof (entries_exists b (fun k t => vcGet a k <? t)) as E2.
  cbv beta in F1, F2, E1, E2.
  setoid_rewrite Z.leb_le in F1. setoid_rewrite Z.leb_le in F2.
  setoid_rewrite Z.ltb_lt in E1. setoid_rewrite Z.ltb_lt in E2.
  rewrite <- F1, <- F2, <- E1, <- E2.
  destruct (forallb _ (map_to_list a)); [| intuition discriminate].
  rewrite hbLoopOther_unfold.
  destruct (forallb _ (map_to_list b)); [| intuition discriminate].
  cbn [orb]. rewrite orb_true_iff. intuition.
Qed.

(** C7. [HappensBefore] is exactly the strict componentwise order with
    missing entries read as zero: it returns [true] if and only if
    [a[p] <= b[p]] for every participant [p] of either clock and
    [a[p] < b[p]] for at least one of them. *)
Theorem HappensBefore_strict_componentwise (a b : VectorClock) :
  HappensBefore a b = true
  <-> (forall p, p ∈ dom a ∪ dom b -> vcGet a p <= vcGet b p)
      /\ (exists p, p ∈ dom a ∪ dom b /\ vcGet a p < vcGet b p).
Proof.
  rewrite HappensBefore_scans. split.
  - intros (H1 & H2 & H3). split.
    + intros p [Hp | Hp]%elem_of_union; auto.
    + destruct H3 as [[k [Hk Hlt]] | [k [Hk Hlt]]];
        exists k; (split; [apply elem_of_union; auto | exact Hlt]).
  - intros (H1 & k & Hk & Hlt). repeat split.
    + intros p Hp. apply H1, elem_of_union. auto.
    + intros p Hp. apply H1, elem_of_union. auto.
    + apply elem_of_union in Hk as [Hk | Hk]; [left | right]; eauto.
Qed.

(** The same with the participants left unrestricted: outside both
    supports the two clocks read 0. *)
Lemma HappensBefore_iff_lt (a b : VectorClock) :
  HappensBefore a b = true
  <-> vc_le a b /\ exists p, vcGet a p < vcGet b p.
Proof.
  rewrite HappensBefore_scans. unfold vc_le. split.
  - intros (H1 & H2 & H3). split.
    + intros p. destruct (decide (p ∈ dom a)) as [Ha | Ha]; [auto |].
      destruct (decide (p ∈ dom b)) as [Hb | Hb]; [auto |].
      rewrite !vcGet_outside by assumption. lia.
    + destruct H3 as [[k [_ Hlt]] | [k [_ Hlt]]]; eauto.
  - intros (H1 & k & Hlt). repeat split; auto.
    destruct (decide (k ∈ dom a)) as [Ha | Ha]; [left; eauto |].
    destruct (decide (k ∈ dom b)) as [Hb | Hb]; [right; eauto |].
    rewrite !vcGet_outside in Hlt by assumption. lia.
Qed.

(** ** Catching up a peer *)

Lemma Equals_true (a b : VectorClock) :
  Equals a b = true
  <-> if negb (Nat.eqb (size a) (size b))
      then forall k, k ∈ dom a ∪ dom b -> vcGet a k = vcGet b k
      else forall k, k ∈ dom a -> vcGet b k = vcGet a k.
Proof.
  unfold Equals. destruct (negb (Nat.eqb (size a) (size b))).
  - rewrite forallb_forall. split.
    + intros H k Hk. apply Z.eqb_eq, H, list_elem_of_In, elem_of_elements, Hk.
    + intros H k Hk. apply Z.eqb_eq, H, elem_of_elements, list_elem_of_In, Hk.
  - pose proof (entries_forall a (fun k t => vcGet b k =? t)) as F.
    cbv beta in F. rewrite F. setoid_rewrite Z.eqb_eq. reflexivity.
Qed.

Lemma vc_pointwise_eq_outside (a b : VectorClock) :
  (forall k, k ∈ dom a ∪ dom b -> vcGet a k = vcGet b k) ->
  forall k, vcGet a k = vcGet b k.
Proof.
  intros H k. destruct (decide (k ∈ dom a ∪ dom b)) as [Hk | Hk]; [auto |].
  apply not_elem_of_union in Hk as [Ha Hb].
  rewrite !vcGet_outside by assumption. reflexivity.
Qed.

(** On a clock without negative entries, [Equals] may only answer [true]
    for a clock that is componentwise below it. *)
Lemma Equals_vc_le (a c : VectorClock) :
  vc_nonneg c -> Equals a c = true -> vc_le a c.
Proof.
  intros Hc He. apply Equals_true in He. intros k.
  destruct (negb (Nat.eqb (size a) (size c))).
  - rewrite (vc_pointwise_eq_outside a c He k). lia.
  - destruct (decide (k ∈ dom a)) as [Hk | Hk].
    + rewrite (He k Hk). lia.
    + rewrite (vcGet_outside a k Hk). apply Hc.
Qed.

Lemma vc_le_HappensBefore_or_Equals (a c : VectorClock) :
  vc_le a c -> HappensBefore a c = true \/ Equals a c = true.
Proof.
  intros Hle. destruct (HappensBefore a c) eqn:Hhb; [left; reflexivity |].
  right. assert (forall k, vcGet a k = vcGet c k) as Heq.
  { intros k. destruct (Z.eq_dec (vcGet a k) (vcGet c k)) as [E | E]; [exact E |].
    exfalso. assert (HappensBefore a c = true) as Ht; [| congruence].
    apply HappensBefore_iff_lt. split; [exact Hle |].
    exists k. specialize (Hle k). lia. }
  apply Equals_true. destruct (negb (Nat.eqb (size a) (size c))); auto.
Qed.

Lemma sinceFilter_iff (a c : VectorClock) :
  vc_nonneg c ->
  negb (HappensBefore a c) && negb (Equals a c) = true <-> ~ vc_le a c.
Proof.
  intros Hc. rewrite andb_true_iff, !negb_true_iff. split.
  - intros [Hhb Heq] Hle.
    destruct (vc_le_HappensBefore_or_Equals a c Hle); congruence.
  - intros Hn. split.
    + destruct (HappensBefore a c) eqn:E; [| reflexivity].
      exfalso. apply Hn. apply HappensBefore_iff_lt in E. tauto.
    + destruct (Equals a c) eqn:E; [| reflexivity].
      exfalso. apply Hn. apply Equals_vc_le; assumption.
Qed.

(** C8. For a peer clock [c] (a vector clock: no negative counters),
    [GetOperationsSince c] returns exactly the operations of the applied
    log whose clock is not componentwise below or equal to [c], in the order
    in which the log stores them. *)
Theorem GetOperationsSince_not_causally_le
    (c : VectorClock) (sm : SyncManager) :
  vc_nonneg c ->
  exists keep : Operation -> bool,
    (forall op, keep op = true <-> ~ vc_le (Op_VectorClock op) c)
    /\ GetOperationsSince c sm
       = List.filter keep (Operations (document sm))
    /\ (forall op,
          In op (GetOperationsSince c sm)
          <-> In op (Operations (document sm))
              /\ ~ vc_le (Op_VectorClock op) c).
Proof.
  intros Hc.
  exists (fun op => negb (HappensBefore (Op_VectorClock op) c)
                    && negb (Equals (Op_VectorClock op) c)).
  split; [intros op; apply sinceFilter_iff, Hc |].
  split; [reflexivity |].
  intros op. unfold GetOperationsSince. rewrite filter_In.
  rewrite sinceFilter_iff by exact Hc. reflexivity.
Qed.

Lemma GetOperationsSince_not_causally_le_witness :
  exists keep : Operation -> bool,
    (forall op, keep op = true <-> ~ vc_le (Op_VectorClock op) {[ "u1" := 1 ]})
    /\ GetOperationsSince {[ "u1" := 1 ]} ex_afterLocalDelete
       = List.filter keep (Operations (document ex_afterLocalDelete))
    /\ (forall op,
          In op (GetOperationsSince {[ "u1" := 1 ]} ex_afterLocalDelete)
          <-> In op (Operations (document ex_afterLocalDelete))
              /\ ~ vc_le (Op_VectorClock op) {[ "u1" := 1 ]}).
Proof.
  apply (GetOperationsSince_not_causally_le {[ "u1" := 1 ]} ex_afterLocalDelete).
  intros p. unfold vcGet.
  destruct (({[ "u1" := 1 ]} : VectorClock) !! p) as [t |] eqn:E; [| lia].
  apply lookup_singleton_Some in E as [_ <-]. lia.
Defined.

(** Why the peer clock must be a vector clock: against a clock with a
    negative counter [Equals] answers [true] for a clock that is not below
    it, and the operation is withheld. *)
Example GetOperationsSince_negative_counter :
  let op := insertOp 0 "x" "a" 1 "a-1" {[ "a" := 0 ]} in
  let c : VectorClock := {[ "b" := -1 ]} in
  let sm := set_document (mkDocumentState "x" 1 [op] ∅) NewSyncManager in
  vcGet (Op_VectorClock op) "b" > vcGet c "b"
  /\ GetOperationsSince c sm = [].
Proof. split; reflexivity. Qed.

(** ** Priorities *)

















(** With two pending operations the sorted order need not follow the
    priorities: here the remote operation stays first.  The first pending
    operation, of higher priority, is transformed against it; the remote
    operation is transformed, with the flag set, against the second
    pending one, whose priority is lower; and the second pending operation
    is transformed against the first, which happened before it. *)
Example performOperationalTransformation_two_pending :
  calculatePriority ex_pendingSecond < calculatePriority ex_remoteBetween
  /\ calculatePriority ex_remoteBetween < calculatePriority ex_pendingFirst
  /\ topologicalSort insertionSort
       [ex_remoteBetween; ex_pendingFirst; ex_pendingSecond]
     = [ex_remoteBetween; ex_pendingFirst; ex_pendingSecond]
  /\ snd (performOperationalTransformation insertionSort ex_remoteBetween
            [ex_pendingFirst; ex_pendingSecond] NewSyncManager)
     = (inclusionTransform ex_remoteBetween ex_pendingSecond true,
        [inclusionTransform ex_pendingFirst ex_remoteBetween false;
         inclusionTransform ex_pendingSecond ex_pendingFirst false],
        None).
Proof. repeat split; vm_compute; reflexivity. Qed.

(** The two priorities of the witness are distinct, the local one lower. *)
Example ex_priorities :
  calculatePriority ex_localDeleteAB < calculatePriority ex_remoteDeleteAB.
Proof. vm_compute. reflexivity. Qed.

(** ** The diamond property of the pairwise transforms *)

(** C1 at the input of the specification's fourth scenario: on ["abcdefg"]
    one participant inserts [X] at offset 3 while the other deletes
    [bcde].  Transformed against the insert, the delete grows and swallows
    [X]; transformed against the delete, the insert moves to the left edge
    and survives.  The two orders of application end in different
    documents. *)
Theorem tp1_insert_inside_delete_diverges :
  IsConcurrent (Op_VectorClock ex_insertX) (Op_VectorClock ex_deleteBCDE)
  = true
  /\ contentAfter "abcdefg" [ex_insertX] = "abcXdefg"
  /\ contentAfter "abcdefg" [ex_deleteBCDE] = "afg"
  /\ inclusionTransform ex_deleteBCDE ex_insertX false
     = deleteOp 1 "bcde" 5 "u1" 1 "u1-1" {[ "u1" := 1 ]}
  /\ inclusionTransform ex_insertX ex_deleteBCDE true
     = insertOp 1 "X" "u2" 1 "u2-1" {[ "u2" := 1 ]}
  /\ contentAfter "abcdefg"
       [ex_insertX; inclusionTransform ex_deleteBCDE ex_insertX false]
     = "afg"
  /\ contentAfter "abcdefg"
       [ex_deleteBCDE; inclusionTransform ex_insertX ex_deleteBCDE true]
     = "aXfg".
Proof. repeat split. Qed.

(** ** Strings as lists of bytes *)

Lemma chars_append a b : chars (String.append a b) = (chars a ++ chars b)%list.
Proof.
  induction a as [| c a IH]; [reflexivity |].
  change (String.append (String c a) b) with (String c (String.append a b)).
  unfold chars in *. cbn [list_ascii_of_string]. rewrite IH. reflexivity.
Qed.

Lemma chars_stake n s : chars (stake n s) = take n (chars s).
Proof.
  revert s. induction n as [| n IH]; intros [| c s]; cbn; try reflexivity.
  f_equal. apply IH.
Qed.

Lemma chars_sdrop n s : chars (sdrop n s) = drop n (chars s).
Proof.
  revert s. induction n as [| n IH]; intros [| c s]; cbn; try reflexivity.
  apply IH.
Qed.

Lemma chars_length s : length (chars s) = String.length s.
Proof. induction s as [| c s IH]; cbn; [reflexivity | f_equal; exact IH]. Qed.

Lemma chars_inj s t : chars s = chars t -> s = t.
Proof.
  intros H. rewrite <- (string_of_list_ascii_of_string s),
    <- (string_of_list_ascii_of_string t). unfold chars in H. rewrite H.
  reflexivity.
Qed.

Lemma len_chars s : len s = Z.of_nat (length (chars s)).
Proof. unfold len. rewrite chars_length. reflexivity. Qed.

Ltac norm_len :=
  repeat (rewrite ?length_app, ?length_take, ?length_drop in * ).

(** ** The content after an operation *)

Lemma applyOperationToDocument_content op sm :
  Doc_Content (document (fst (applyOperationToDocument op sm)))
  = stepContent op (Doc_Content (document sm)).
Proof.
  unfold applyOperationToDocument, stepContent, commitToDocument, notify.
  repeat match goal with
  | |- context [if ?c then _ else _] => destruct c
  end; reflexivity.
Qed.

Lemma applyAll_content ops sm :
  Doc_Content (document (applyAll ops sm))
  = fold_left (fun c op => stepContent op c) ops (Doc_Content (document sm)).
Proof.
  revert sm. induction ops as [| op ops IH]; intros sm; [reflexivity |].
  cbn [applyAll fold_left]. fold (applyAll ops). rewrite IH.
  rewrite applyOperationToDocument_content. reflexivity.
Qed.

Lemma contentAfter_two S o1 o2 :
  contentAfter S [o1; o2] = stepContent o2 (stepContent o1 S).
Proof. unfold contentAfter, GetDocumentContent. rewrite applyAll_content. reflexivity. Qed.

Lemma stepContent_insert op c :
  Type_ op = OpInsert -> 0 <= Position op <= len c ->
  chars (stepContent op c)
  = insL (Z.to_nat (Position op)) (chars (Content op)) (chars c).
Proof.
  intros Ht Hp. unfold stepContent. rewrite Ht.
  change (String.eqb OpInsert OpInsert) with true. cbv iota.
  destruct (Z.ltb_spec (Position op) 0); [lia |].
  destruct (Z.ltb_spec (len c) (Position op)); [lia |]. cbn [orb].
  unfold sliceTo, sliceFrom, insL.
  rewrite !chars_append, chars_stake, chars_sdrop. reflexivity.
Qed.

Lemma stepContent_delete op c :
  Type_ op = OpDelete -> 0 <= Position op -> 0 <= Length op ->
  Position op + Length op <= len c -> len c <= MaxInt64 ->
  chars (stepContent op c)
  = delL (Z.to_nat (Position op)) (Z.to_nat (Length op)) (chars c).
Proof.
  intros Ht Hp Hn Hpn Hmax. unfold stepContent. rewrite Ht.
  change (String.eqb OpDelete OpInsert) with false.
  change (String.eqb OpDelete OpDelete) with true. cbv iota.
  rewrite wrap64_small by (unfold inInt64, MinInt64, MaxInt64 in *; lia).
  assert (forall k, chars c = delL k 0 (chars c)) as Hid.
  { intros k. unfold delL. rewrite Nat.add_0_r, take_drop. reflexivity. }
  destruct (Z.ltb_spec (Position op) 0); [lia |].
  destruct (Z.leb_spec (len c) (Position op)); cbn [orb].
  { replace (Z.to_nat (Length op)) with 0%nat by lia. apply Hid. }
  destruct (Z.ltb_spec (len c) (Position op + Length op)); [lia |].
  destruct (Z.leb_spec (Position op + Length op) (Position op)).
  { replace (Z.to_nat (Length op)) with 0%nat by lia. apply Hid. }
  unfold sliceTo, sliceFrom, delL.
  rewrite chars_append, chars_stake, chars_sdrop.
  rewrite Z2Nat.inj_add by lia. reflexivity.
Qed.

Lemma length_insL p x l : length (insL p x l) = (length l + length x)%nat.
Proof. unfold insL. norm_len. lia. Qed.

Lemma length_delL p n l :
  (p + n <= length l)%nat -> length (delL p n l) = (length l - n)%nat.
Proof. unfold delL. norm_len. lia. Qed.

(** List identities behind the diamond.  Each is proved by cutting the
    base list at the positions involved and computing both sides on the
    pieces. *)
Section ListIdentities.

Local Open Scope nat_scope.
Local Open Scope list_scope.

Lemma cut_at (l : list ascii) (n : nat) :
  n <= length l -> exists a b, l = a ++ b /\ length a = n.
Proof.
  intros H. exists (take n l), (drop n l). split.
  - symmetry. apply take_drop.
  - apply length_take_le. exact H.
Qed.

Lemma insL_at (pre rest x l : list ascii) (p : nat) :
  length pre = p -> l = pre ++ rest -> insL p x l = pre ++ x ++ rest.
Proof.
  intros <- ->. unfold insL.
  rewrite take_app_length, drop_app_length. reflexivity.
Qed.

Lemma delL_at (pre mid rest l : list ascii) (p n : nat) :
  length pre = p -> length mid = n -> l = pre ++ mid ++ rest ->
  delL p n l = pre ++ rest.
Proof.
  intros <- <- ->. unfold delL.
  rewrite take_app_length, app_assoc, <- length_app, drop_app_length.
  reflexivity.
Qed.

(** Cut [l] after its first [n] elements. *)
Ltac cut l n a b H :=
  let E := fresh in
  destruct (cut_at l n ltac:(rewrite ?length_app in *; lia)) as (a & b & E & H);
  subst l; rewrite ?length_app in *.

Ltac assoc := rewrite <- ?app_assoc; reflexivity.
Ltac lens := rewrite ?length_app; cbn [length]; lia.

Lemma insL_insL (S x y : list ascii) (p q : nat) :
  p <= q -> q <= length S ->
  insL (q + length x) y (insL p x S) = insL p x (insL q y S).
Proof.
  intros Hpq Hq.
  cut S p A R HA. cut R (q - p) B C HB.
  rewrite (insL_at A (B ++ C) x _ p) by (lens || assoc).
  rewrite (insL_at (A ++ x ++ B) C y _ (q + length x)) by (lens || assoc).
  rewrite (insL_at (A ++ B) C y _ q) by (lens || assoc).
  rewrite (insL_at A (B ++ y ++ C) x _ p) by (lens || assoc).
  assoc.
Qed.

Lemma delL_insL_before (S x : list ascii) (p q n : nat) :
  p <= q -> q + n <= length S ->
  delL (q + length x) n (insL p x S) = insL p x (delL q n S).
Proof.
  intros Hpq Hq.
  cut S p A R HA. cut R (q - p) B R' HB. cut R' n D C HD.
  rewrite (insL_at A (B ++ D ++ C) x _ p) by (lens || assoc).
  rewrite (delL_at (A ++ x ++ B) D C _ (q + length x) n) by (lens || assoc).
  rewrite (delL_at (A ++ B) D C _ q n) by (lens || assoc).
  rewrite (insL_at A (B ++ C) x _ p) by (lens || assoc).
  assoc.
Qed.

Lemma delL_insL_after (S x : list ascii) (p q n : nat) :
  q + n <= p -> p <= length S ->
  delL q n (insL p x S) = insL (p - n) x (delL q n S).
Proof.
  intros Hqp Hp.
  cut S q A R HA. cut R n D R' HD. cut R' (p - (q + n)) B C HB.
  rewrite (insL_at (A ++ D ++ B) C x _ p) by (lens || assoc).
  rewrite (delL_at A D (B ++ x ++ C) _ q n) by (lens || assoc).
  rewrite (delL_at A D (B ++ C) _ q n) by (lens || assoc).
  rewrite (insL_at (A ++ B) C x _ (p - n)) by (lens || assoc).
  assoc.
Qed.

Lemma delL_insL_empty (S : list ascii) (p q n : nat) :
  q <= p -> p <= q + n -> q + n <= length S ->
  delL q n (insL p [] S) = insL q [] (delL q n S).
Proof. intros. unfold insL. cbn [app]. rewrite !take_drop. reflexivity. Qed.

Lemma delL_delL_disjoint (S : list ascii) (p m q n : nat) :
  q + n <= p -> p + m <= length S ->
  delL q n (delL p m S) = delL (p - n) m (delL q n S).
Proof.
  intros Hqp Hp.
  cut S q A R HA. cut R n D1 R' HN. cut R' (p - (q + n)) B R'' HB.
  cut R'' m D2 C HM.
  rewrite (delL_at (A ++ D1 ++ B) D2 C _ p m) by (lens || assoc).
  rewrite (delL_at A D1 (B ++ C) _ q n) by (lens || assoc).
  rewrite (delL_at A D1 (B ++ D2 ++ C) _ q n) by (lens || assoc).
  rewrite (delL_at (A ++ B) D2 C _ (p - n) m) by (lens || assoc).
  assoc.
Qed.

Lemma delL_delL_cover (S : list ascii) (p m q n : nat) :
  q <= p -> p + m <= q + n -> q + n <= length S ->
  delL q (n - m) (delL p m S) = delL q 0 (delL q n S).
Proof.
  intros Hqp Hpm Hq.
  cut S q A R HA. cut R (p - q) B R' HB. cut R' m D2 R'' HM.
  cut R'' (q + n - (p + m)) Ex C HE.
  rewrite (delL_at (A ++ B) D2 (Ex ++ C) _ p m) by (lens || assoc).
  rewrite (delL_at A (B ++ Ex) C _ q (n - m)) by (lens || assoc).
  rewrite (delL_at A (B ++ D2 ++ Ex) C _ q n) by (lens || assoc).
  rewrite (delL_at A [] C _ q 0) by (lens || assoc).
  reflexivity.
Qed.

Lemma delL_delL_overlap (S : list ascii) (p m q n : nat) :
  q <= p -> p <= q + n -> q + n <= p + m -> p + m <= length S ->
  delL q (p - q) (delL p m S) = delL q (m - (q + n - p)) (delL q n S).
Proof.
  intros Hqp Hpn Hnm Hp.
  cut S q A R HA. cut R (p - q) B R' HB. cut R' (q + n - p) Ov R'' HO.
  cut R'' (p + m - (q + n)) Ex C HE.
  rewrite (delL_at (A ++ B) (Ov ++ Ex) C _ p m) by (lens || assoc).
  rewrite (delL_at A B C _ q (p - q)) by (lens || assoc).
  rewrite (delL_at A (B ++ Ov) (Ex ++ C) _ q n) by (lens || assoc).
  rewrite (delL_at A Ex C _ q (m - (q + n - p))) by (lens || assoc).
  reflexivity.
Qed.

End ListIdentities.

Lemma sem_insert_at o c p x :
  Type_ o = OpInsert -> Position o = p -> Content o = x ->
  0 <= p <= len c ->
  chars (stepContent o c) = insL (Z.to_nat p) (chars x) (chars c).
Proof. intros T <- <- H. apply stepContent_insert; assumption. Qed.

Lemma sem_delete_at o c p n :
  Type_ o = OpDelete -> Position o = p -> Length o = n ->
  0 <= p -> 0 <= n -> p + n <= len c -> len c <= MaxInt64 ->
  chars (stepContent o c) = delL (Z.to_nat p) (Z.to_nat n) (chars c).
Proof. intros T <- <- H1 H2 H3 H4. apply stepContent_delete; assumption. Qed.

Lemma len_insert o c :
  Type_ o = OpInsert -> 0 <= Position o <= len c ->
  len (stepContent o c) = len c + len (Content o).
Proof.
  intros T H. rewrite !len_chars, (stepContent_insert o c T H), length_insL.
  lia.
Qed.

Lemma len_delete o c :
  Type_ o = OpDelete -> 0 <= Position o -> 0 <= Length o ->
  Position o + Length o <= len c -> len c <= MaxInt64 ->
  len (stepContent o c) = len c - Length o.
Proof.
  intros T H1 H2 H3 H4.
  rewrite !len_chars, (stepContent_delete o c T H1 H2 H3 H4).
  rewrite len_chars in H3. rewrite length_delL; lia.
Qed.

Ltac int64 := unfold inInt64, MinInt64, MaxInt64 in *; lia.

Ltac zcmp :=
  repeat match goal with
  | |- context [Z.leb ?a ?b] => destruct (Z.leb_spec a b); try lia
  | |- context [Z.ltb ?a ?b] => destruct (Z.ltb_spec a b); try lia
  | |- context [Z.eqb ?a ?b] => destruct (Z.eqb_spec a b); try lia
  end; cbn [andb orb negb].

(** Position and length of the transformed operation when nothing
    overflows. *)
Lemma transformInsertInsert_position op1 op2 f :
  inInt64 (Position op1 + Length op2) ->
  Position (transformInsertInsert op1 op2 f)
  = if (Position op2 <? Position op1)
       || ((Position op2 =? Position op1) && negb f)
    then Position op1 + Length op2 else Position op1.
Proof.
  intros H. unfold transformInsertInsert. rewrite wrap64_small by exact H.
  destruct f; zcmp; reflexivity.
Qed.

Lemma transformInsertDelete_position op1 op2 :
  inInt64 (Position op2 + Length op2) -> inInt64 (Position op1 - Length op2) ->
  Position (transformInsertDelete op1 op2)
  = if Position op2 <=? Position op1
    then if Position op2 + Length op2 <=? Position op1
         then Position op1 - Length op2 else Position op2
    else Position op1.
Proof.
  intros H1 H2. unfold transformInsertDelete.
  rewrite !wrap64_small by assumption. zcmp; reflexivity.
Qed.

Lemma transformDeleteInsert_position_length op1 op2 :
  inInt64 (Position op1 + Length op2) -> inInt64 (Position op1 + Length op1) ->
  inInt64 (Length op1 + Length op2) ->
  (Position (transformDeleteInsert op1 op2),
   Length (transformDeleteInsert op1 op2))
  = if Position op2 <=? Position op1
    then (Position op1 + Length op2, Length op1)
    else if Position op2 <? Position op1 + Length op1
         then (Position op1, Length op1 + Length op2)
         else (Position op1, Length op1).
Proof.
  intros H1 H2 H3. unfold transformDeleteInsert.
  rewrite !wrap64_small by assumption. zcmp; reflexivity.
Qed.

Lemma transformDeleteDelete_position_length op1 op2 f :
  0 <= Position op1 -> 0 <= Length op1 -> 0 <= Position op2 ->
  0 <= Length op2 ->
  Position op1 + Length op1 <= MaxInt64 ->
  Position op2 + Length op2 <= MaxInt64 ->
  (Position (transformDeleteDelete op1 op2 f),
   Length (transformDeleteDelete op1 op2 f))
  = let p1 := Position op1 in
    let e1 := Position op1 + Length op1 in
    let p2 := Position op2 in
    let e2 := Position op2 + Length op2 in
    if e2 <=? p1 then (p1 - Length op2, Length op1)
    else if e1 <=? p2 then (p1, Length op1)
    else if (p2 <=? p1) && (e1 <=? e2) then (p2, 0)
    else if (p1 <=? p2) && (e2 <=? e1) then (p1, Length op1 - Length op2)
    else if p2 <? p1 then (p2, e1 - e2)
    else (p1, p2 - p1).
Proof.
  intros H1 H2 H3 H4 H5 H6. unfold transformDeleteDelete. cbv zeta.
  rewrite !wrap64_small by int64.
  destruct (Z.leb_spec (Position op2 + Length op2) (Position op1));
    [reflexivity |].
  destruct (Z.leb_spec (Position op1 + Length op1) (Position op2));
    [reflexivity |].
  destruct ((Position op2 <=? Position op1)
            && (Position op1 + Length op1 <=? Position op2 + Length op2))
    eqn:E1; [reflexivity |].
  destruct ((Position op1 <=? Position op2)
            && (Position op2 + Length op2 <=? Position op1 + Length op1))
    eqn:E2; [reflexivity |].
  apply andb_false_iff in E1, E2.
  rewrite ?Z.leb_gt in E1, E2.
  destruct (Z.ltb_spec (Position op2) (Position op1)).
  - cbv beta iota zeta.
    rewrite (wrap64_small (Position op2 + Length op2 - Position op1)) by int64.
    rewrite wrap64_small by int64. zcmp; cbn; f_equal; lia.
  - cbv beta iota zeta.
    rewrite (wrap64_small (Position op1 + Length op1 - Position op2)) by int64.
    rewrite wrap64_small by int64. zcmp; cbn; f_equal; lia.
Qed.

Ltac same_args := repeat (f_equal; try lia).

Ltac close_by H :=
  match type of H with
  | ?l = ?r =>
    first [ transitivity l; [solve [same_args] |];
            transitivity r; [exact H | solve [same_args]]
          | transitivity r; [solve [same_args] |];
            transitivity l; [symmetry; exact H | solve [same_args]] ]
  end.

Lemma inclusionTransform_insert_insert op1 op2 f :
  Type_ op1 = OpInsert -> Type_ op2 = OpInsert ->
  inclusionTransform op1 op2 f = transformInsertInsert op1 op2 f.
Proof. unfold inclusionTransform. intros -> ->. reflexivity. Qed.

Lemma inclusionTransform_insert_delete op1 op2 f :
  Type_ op1 = OpInsert -> Type_ op2 = OpDelete ->
  inclusionTransform op1 op2 f = transformInsertDelete op1 op2.
Proof. unfold inclusionTransform. intros -> ->. reflexivity. Qed.

Lemma inclusionTransform_delete_insert op1 op2 f :
  Type_ op1 = OpDelete -> Type_ op2 = OpInsert ->
  inclusionTransform op1 op2 f = transformDeleteInsert op1 op2.
Proof. unfold inclusionTransform. intros -> ->. reflexivity. Qed.

Lemma inclusionTransform_delete_delete op1 op2 f :
  Type_ op1 = OpDelete -> Type_ op2 = OpDelete ->
  inclusionTransform op1 op2 f = transformDeleteDelete op1 op2 f.
Proof. unfold inclusionTransform. intros -> ->. reflexivity. Qed.

Section Diamond.

Variable S : string.
Hypothesis S_fits : len S <= MaxInt64.

Lemma tp1_insert_insert a b :
  Type_ a = OpInsert -> Type_ b = OpInsert ->
  0 <= Position a <= len S -> 0 <= Position b <= len S ->
  Length a = len (Content a) -> Length b = len (Content b) ->
  len S + Length a + Length b <= MaxInt64 ->
  chars (stepContent (transformInsertInsert b a false) (stepContent a S))
  = chars (stepContent (transformInsertInsert a b true) (stepContent b S)).
Proof.
  intros Ta Tb Pa Pb La Lb Hmax.
  pose proof (len_nonneg (Content a)). pose proof (len_nonneg (Content b)).
  pose proof (len_chars S) as HS.
  pose proof (len_chars (Content a)) as HXa.
  pose proof (len_chars (Content b)) as HXb.
  pose proof (len_insert a S Ta Pa) as Hla.
  pose proof (len_insert b S Tb Pb) as Hlb.
  destruct (transformInsertInsert_frame b a false) as (Tb' & Cb' & _).
  destruct (transformInsertInsert_frame a b true) as (Ta' & Ca' & _).
  rewrite Tb in Tb'. rewrite Ta in Ta'.
  pose proof (transformInsertInsert_position b a false ltac:(int64)) as Pb'.
  pose proof (transformInsertInsert_position a b true ltac:(int64)) as Pa'.
  revert Pa' Pb'. zcmp; intros Pa' Pb';
    rewrite (sem_insert_at _ _ _ _ Tb' Pb' Cb') by lia;
    rewrite (sem_insert_at _ _ _ _ Ta' Pa' Ca') by lia;
    rewrite (stepContent_insert a S Ta Pa), (stepContent_insert b S Tb Pb).
  - pose proof (insL_insL (chars S) (chars (Content b)) (chars (Content a))
                  (Z.to_nat (Position b)) (Z.to_nat (Position a))
                  ltac:(lia) ltac:(lia)) as H'.
    close_by H'.
  - pose proof (insL_insL (chars S) (chars (Content a)) (chars (Content b))
                  (Z.to_nat (Position a)) (Z.to_nat (Position b))
                  ltac:(lia) ltac:(lia)) as H'.
    close_by H'.
  - pose proof (insL_insL (chars S) (chars (Content a)) (chars (Content b))
                  (Z.to_nat (Position a)) (Z.to_nat (Position b))
                  ltac:(lia) ltac:(lia)) as H'.
    close_by H'.
Qed.

Lemma tp1_insert_delete i d :
  Type_ i = OpInsert -> Type_ d = OpDelete ->
  0 <= Position i <= len S -> Length i = len (Content i) ->
  0 <= Position d -> 0 <= Length d -> Position d + Length d <= len S ->
  len S + Length i + Length d <= MaxInt64 ->
  ~ (Content i <> "" /\ Position d < Position i < Position d + Length d) ->
  chars (stepContent (transformDeleteInsert d i) (stepContent i S))
  = chars (stepContent (transformInsertDelete i d) (stepContent d S)).
Proof.
  intros Ti Td Pi Li Pd Ld Hd Hmax Hin.
  pose proof (len_nonneg (Content i)) as Hci.
  pose proof (len_chars S) as HS. pose proof (len_chars (Content i)) as HX.
  pose proof (len_insert i S Ti Pi) as Hli.
  pose proof (len_delete d S Td Pd Ld Hd S_fits) as Hld.
  destruct (transformDeleteInsert_frame d i) as (Td' & _).
  destruct (transformInsertDelete_frame i d) as (Ti' & Ci' & _).
  rewrite Td in Td'. rewrite Ti in Ti'.
  pose proof (transformDeleteInsert_position_length d i
                ltac:(int64) ltac:(int64) ltac:(int64)) as PLd.
  pose proof (transformInsertDelete_position i d ltac:(int64) ltac:(int64))
    as Pi'.
  assert (Position d < Position i < Position d + Length d -> Length i = 0)
    as Hempty.
  { intros Hr. destruct (string_dec (Content i) "") as [E | E].
    - rewrite Li, E. reflexivity.
    - exfalso. apply Hin. split; assumption. }
  revert Pi' PLd. zcmp; intros Pi' [= Pd' Ld'];
    rewrite (sem_delete_at _ _ _ _ Td' Pd' Ld') by lia;
    rewrite (sem_insert_at _ _ _ _ Ti' Pi' Ci') by lia;
    rewrite (stepContent_insert i S Ti Pi),
      (stepContent_delete d S Td Pd Ld Hd S_fits).
  all: first
    [ pose proof (delL_insL_before (chars S) (chars (Content i))
                    (Z.to_nat (Position i)) (Z.to_nat (Position d))
                    (Z.to_nat (Length d)) ltac:(lia) ltac:(lia)) as H';
      close_by H'
    | pose proof (delL_insL_after (chars S) (chars (Content i))
                    (Z.to_nat (Position i)) (Z.to_nat (Position d))
                    (Z.to_nat (Length d)) ltac:(lia) ltac:(lia)) as H';
      close_by H'
    | idtac ].
  all: specialize (Hempty ltac:(lia)).
  all: assert (chars (Content i) = []) as ->
         by (destruct (chars (Content i)); [reflexivity | cbn in HX; lia]).
  all: pose proof (delL_insL_empty (chars S) (Z.to_nat (Position i))
                     (Z.to_nat (Position d)) (Z.to_nat (Length d))
                     ltac:(lia) ltac:(lia) ltac:(lia)) as H';
    close_by H'.
Qed.

Lemma tp1_delete_delete a b f g :
  Type_ a = OpDelete -> Type_ b = OpDelete ->
  0 <= Position a -> 0 <= Length a -> Position a + Length a <= len S ->
  0 <= Position b -> 0 <= Length b -> Position b + Length b <= len S ->
  chars (stepContent (transformDeleteDelete b a f) (stepContent a S))
  = chars (stepContent (transformDeleteDelete a b g) (stepContent b S)).
Proof.
  intros Ta Tb Pa La Ha Pb Lb Hb.
  pose proof (len_chars S) as HS.
  pose proof (len_delete a S Ta Pa La Ha S_fits) as Hla.
  pose proof (len_delete b S Tb Pb Lb Hb S_fits) as Hlb.
  destruct (transformDeleteDelete_frame b a f) as (Tb' & _).
  destruct (transformDeleteDelete_frame a b g) as (Ta' & _).
  rewrite Tb in Tb'. rewrite Ta in Ta'.
  pose proof (transformDeleteDelete_position_length b a f
                Pb Lb Pa La ltac:(lia) ltac:(lia)) as PLb.
  pose proof (transformDeleteDelete_position_length a b g
                Pa La Pb Lb ltac:(lia) ltac:(lia)) as PLa.
  cbv zeta in PLa, PLb.
  revert PLa PLb. zcmp; intros [= Pa' La'] [= Pb' Lb'];
    rewrite (sem_delete_at _ _ _ _ Tb' Pb' Lb') by lia;
    rewrite (sem_delete_at _ _ _ _ Ta' Pa' La') by lia;
    rewrite (stepContent_delete a S Ta Pa La Ha S_fits),
      (stepContent_delete b S Tb Pb Lb Hb S_fits).
  all: first
    [ pose proof (delL_delL_disjoint (chars S)
                    (Z.to_nat (Position a)) (Z.to_nat (Length a))
                    (Z.to_nat (Position b)) (Z.to_nat (Length b))
                    ltac:(lia) ltac:(lia)) as H'; close_by H'
    | pose proof (delL_delL_disjoint (chars S)
                    (Z.to_nat (Position b)) (Z.to_nat (Length b))
                    (Z.to_nat (Position a)) (Z.to_nat (Length a))
                    ltac:(lia) ltac:(lia)) as H'; close_by H'
    | pose proof (delL_delL_cover (chars S)
                    (Z.to_nat (Position a)) (Z.to_nat (Length a))
                    (Z.to_nat (Position b)) (Z.to_nat (Length b))
                    ltac:(lia) ltac:(lia) ltac:(lia)) as H'; close_by H'
    | pose proof (delL_delL_cover (chars S)
                    (Z.to_nat (Position b)) (Z.to_nat (Length b))
                    (Z.to_nat (Position a)) (Z.to_nat (Length a))
                    ltac:(lia) ltac:(lia) ltac:(lia)) as H'; close_by H'
    | pose proof (delL_delL_overlap (chars S)
                    (Z.to_nat (Position a)) (Z.to_nat (Length a))
                    (Z.to_nat (Position b)) (Z.to_nat (Length b))
                    ltac:(lia) ltac:(lia) ltac:(lia) ltac:(lia)) as H';
      close_by H'
    | pose proof (delL_delL_overlap (chars S)
                    (Z.to_nat (Position b)) (Z.to_nat (Length b))
                    (Z.to_nat (Position a)) (Z.to_nat (Length a))
                    ltac:(lia) ltac:(lia) ltac:(lia) ltac:(lia)) as H';
      close_by H' ].
Qed.

End Diamond.

(** X22. Outside the case exhibited above the diamond closes: for
    operations valid on [S] whose lengths fit the machine integers, and unless a
    non-empty insert lies strictly inside the other operation's deleted
    range, the two orders of application give the same document. *)
Theorem tp1_outside_insert_inside_delete (S : string) (a b : Operation) :
  validOn S a -> validOn S b ->
  len S + Length a + Length b <= MaxInt64 ->
  ~ insertInsideDelete a b -> ~ insertInsideDelete b a ->
  contentAfter S [a; inclusionTransform b a false]
  = contentAfter S [b; inclusionTransform a b true].
Proof.
  intros Va Vb Hmax Hab Hba. rewrite !contentAfter_two. apply chars_inj.
  pose proof (len_nonneg S) as HS.
  destruct Va as [(Ta & Pa & La) | (Ta & Pa & La & Ha)];
    destruct Vb as [(Tb & Pb & Lb) | (Tb & Pb & Lb & Hb)].
  - pose proof (len_nonneg (Content a)). pose proof (len_nonneg (Content b)).
    rewrite (inclusionTransform_insert_insert b a false Tb Ta),
      (inclusionTransform_insert_insert a b true Ta Tb).
    apply tp1_insert_insert; assumption.
  - pose proof (len_nonneg (Content a)).
    rewrite (inclusionTransform_delete_insert b a false Tb Ta),
      (inclusionTransform_insert_delete a b true Ta Tb).
    apply tp1_insert_delete; try assumption; try lia.
    intros [Hne Hr]. apply Hab. repeat split; try assumption; lia.
  - pose proof (len_nonneg (Content b)).
    rewrite (inclusionTransform_insert_delete b a false Tb Ta),
      (inclusionTransform_delete_insert a b true Ta Tb).
    symmetry. apply tp1_insert_delete; try assumption; try lia.
    intros [Hne Hr]. apply Hba. repeat split; try assumption; lia.
  - rewrite (inclusionTransform_delete_delete b a false Tb Ta),
      (inclusionTransform_delete_delete a b true Ta Tb).
    apply tp1_delete_delete; try assumption; lia.
Qed.

Lemma tp1_outside_insert_inside_delete_example :
  contentAfter "abcdef"
    [insertOp 2 "X" "u1" 1 "u1-1" {[ "u1" := 1 ]};
     inclusionTransform (deleteOp 3 "de" 2 "u2" 1 "u2-1" {[ "u2" := 1 ]})
       (insertOp 2 "X" "u1" 1 "u1-1" {[ "u1" := 1 ]}) false]
  = contentAfter "abcdef"
      [deleteOp 3 "de" 2 "u2" 1 "u2-1" {[ "u2" := 1 ]};
       inclusionTransform (insertOp 2 "X" "u1" 1 "u1-1" {[ "u1" := 1 ]})
         (deleteOp 3 "de" 2 "u2" 1 "u2-1" {[ "u2" := 1 ]}) true].
Proof.
  apply tp1_outside_insert_inside_delete.
  - left. repeat split; vm_compute; congruence.
  - right. repeat split; vm_compute; congruence.
  - vm_compute. congruence.
  - intros (_ & _ & _ & H). vm_compute in H. destruct H as [H _].
    discriminate.
  - intros (H & _). discriminate.
Defined.

(** * Further properties of the engine *)

(** ** Vector clocks: merge, increment, order *)

Lemma vcGet_insert (m : VectorClock) k v p :
  vcGet (<[k := v]> m) p = if decide (k = p) then v else vcGet m p.
Proof.
  unfold vcGet. rewrite lookup_insert. destruct (decide (k = p)); reflexivity.
Qed.

Lemma Update_unfold other vc :
  Update other vc = fold_left updateStep (map_to_list other) vc.
Proof. reflexivity. Qed.

Lemma updateStep_other acc k t p :
  k <> p -> vcGet (updateStep acc (k, t)) p = vcGet acc p.
Proof.
  intros Hne. cbn. destruct (vcGet acc k <? t); [| reflexivity].
  rewrite vcGet_insert. destruct (decide (k = p)); [contradiction | reflexivity].
Qed.

Lemma updateStep_same acc k t :
  vcGet (updateStep acc (k, t)) k = Z.max (vcGet acc k) t.
Proof.
  cbn. destruct (Z.ltb_spec (vcGet acc k) t).
  - rewrite vcGet_insert. destruct (decide (k = k)); [lia | contradiction].
  - lia.
Qed.

Lemma update_fold_outside l acc p :
  p ∉ l.*1 -> vcGet (fold_left updateStep l acc) p = vcGet acc p.
Proof.
  revert acc. induction l as [| [k t] l IH]; intros acc Hp; [reflexivity |].
  cbn [fold_left]. cbn in Hp. apply not_elem_of_cons in Hp as [Hne Hp].
  rewrite IH by exact Hp. apply updateStep_other. congruence.
Qed.

Lemma update_fold_inside l acc p t :
  NoDup l.*1 -> (p, t) ∈ l ->
  vcGet (fold_left updateStep l acc) p = Z.max (vcGet acc p) t.
Proof.
  revert acc. induction l as [| [k t'] l IH]; intros acc Hnd Hin.
  - apply elem_of_nil in Hin. contradiction.
  - cbn in Hnd. apply NoDup_cons in Hnd as [Hk Hnd]. cbn [fold_left].
    apply elem_of_cons in Hin as [[= -> ->] | Hin].
    + rewrite update_fold_outside by exact Hk. apply updateStep_same.
    + rewrite (IH _ Hnd Hin). rewrite updateStep_other; [reflexivity |].
      intros ->. apply Hk. apply list_elem_of_fmap. exists (p, t).
      split; [reflexivity | exact Hin].
Qed.

Lemma vcGet_Update_inside (other vc : VectorClock) p :
  p ∈ dom other ->
  vcGet (Update other vc) p = Z.max (vcGet vc p) (vcGet other p).
Proof.
  intros Hin. rewrite Update_unfold. apply elem_of_dom in Hin as [t Ht].
  rewrite (vcGet_entry other p t Ht).
  apply update_fold_inside.
  - apply NoDup_fst_map_to_list.
  - apply elem_of_map_to_list. exact Ht.
Qed.

Lemma vcGet_Update_outside (other vc : VectorClock) p :
  p ∉ dom other -> vcGet (Update other vc) p = vcGet vc p.
Proof.
  intros Hout. rewrite Update_unfold.
  apply update_fold_outside. intros Hin. apply Hout.
  apply list_elem_of_fmap in Hin as [[k t] [-> Hin]].
  apply elem_of_map_to_list in Hin. apply elem_of_dom. eauto.
Qed.

(** X1. [Update] merges entry by entry: a participant that [other]
    mentions ends at the larger of the two counters, any other participant
    keeps the counter it had. *)
Theorem Update_entrywise (other vc : VectorClock) (p : string) :
  vcGet (Update other vc) p
  = if decide (p ∈ dom other) then Z.max (vcGet vc p) (vcGet other p)
    else vcGet vc p.
Proof.
  destruct (decide (p ∈ dom other)) as [Hin | Hout].
  - apply vcGet_Update_inside, Hin.
  - apply vcGet_Update_outside, Hout.
Qed.

(** X2. [Update] never lowers a counter of the receiver, and afterwards
    the receiver is at least [other] on every participant [other]
    mentions. *)
Theorem Update_upper_bound (other vc : VectorClock) :
  vc_le vc (Update other vc) /\ dominates (Update other vc) other.
Proof.
  split.
  - intros p. destruct (decide (p ∈ dom other)) as [Hin | Hout].
    + rewrite vcGet_Update_inside by exact Hin. lia.
    + rewrite vcGet_Update_outside by exact Hout. lia.
  - intros p Hp. rewrite vcGet_Update_inside by exact Hp. lia.
Qed.

Lemma update_fold_fixed l acc :
  (forall k t, (k, t) ∈ l -> t <= vcGet acc k) ->
  fold_left updateStep l acc = acc.
Proof.
  induction l as [| [k t] l IH]; intros H; [reflexivity |].
  cbn [fold_left].
  assert (updateStep acc (k, t) = acc) as ->.
  { cbn. destruct (Z.ltb_spec (vcGet acc k) t); [| reflexivity].
    specialize (H k t ltac:(left)). lia. }
  apply IH. intros k' t' Hin. apply H. right. exact Hin.
Qed.

(** X3. Merging a clock that the receiver already dominates leaves the
    receiver's map untouched; in particular merging a clock into itself
    does nothing. *)
Theorem Update_dominated (other vc : VectorClock) :
  dominates vc other -> Update other vc = vc.
Proof.
  intros Hd. rewrite Update_unfold. apply update_fold_fixed.
  intros k t Hin. apply elem_of_map_to_list in Hin.
  rewrite <- (vcGet_entry other k t Hin). apply Hd, elem_of_dom. eauto.
Qed.

Lemma dominates_refl (vc : VectorClock) : dominates vc vc.
Proof. intros k _. lia. Qed.

Lemma Update_dominated_witness :
  Update {[ "u1" := 2 ]} {[ "u1" := 2 ]} = ({[ "u1" := 2 ]} : VectorClock).
Proof.
  apply (Update_dominated {[ "u1" := 2 ]} {[ "u1" := 2 ]}).
  apply dominates_refl.
Defined.

(** X4. [HappensBefore] is a strict partial order on clocks: no clock is
    before itself, and the relation is transitive. *)
Theorem HappensBefore_strict_order :
  (forall a : VectorClock, HappensBefore a a = false)
  /\ (forall a b c : VectorClock,
        HappensBefore a b = true -> HappensBefore b c = true ->
        HappensBefore a c = true).
Proof.
  split.
  - intros a. destruct (HappensBefore a a) eqn:E; [| reflexivity].
    apply HappensBefore_iff_lt in E as [_ [p Hp]]. lia.
  - intros a b c Hab Hbc.
    apply HappensBefore_iff_lt in Hab as [Hab [p Hp]].
    apply HappensBefore_iff_lt in Hbc as [Hbc _].
    apply HappensBefore_iff_lt. split.
    + intros q. specialize (Hab q). specialize (Hbc q). lia.
    + exists p. specialize (Hbc p). lia.
Qed.

Lemma HappensBefore_strict_order_witness :
  HappensBefore {[ "u1" := 1 ]} {[ "u1" := 3 ]} = true.
Proof.
  apply (proj2 HappensBefore_strict_order
           {[ "u1" := 1 ]} {[ "u1" := 2 ]} {[ "u1" := 3 ]});
    vm_compute; reflexivity.
Defined.

(** X5. Away from the top of the integer range, [Increment] raises the
    participant's counter by one, leaves every other counter alone, and the
    old clock happens before the new one. *)
Theorem Increment_advances (u : string) (vc : VectorClock) :
  MinInt64 <= vcGet vc u < MaxInt64 ->
  vcGet (Increment u vc) u = vcGet vc u + 1
  /\ (forall p, p <> u -> vcGet (Increment u vc) p = vcGet vc p)
  /\ HappensBefore vc (Increment u vc) = true.
Proof.
  intros Hr.
  assert (forall p, vcGet (Increment u vc) p
                    = if decide (u = p) then vcGet vc u + 1 else vcGet vc p)
    as Hget.
  { intros p. unfold Increment. rewrite vcGet_insert, wrap64_small;
      [reflexivity |]. unfold inInt64, MinInt64, MaxInt64 in *. lia. }
  split; [rewrite Hget; destruct (decide (u = u)); [reflexivity | contradiction] |].
  split.
  - intros p Hp. rewrite Hget. destruct (decide (u = p)); [congruence | reflexivity].
  - apply HappensBefore_iff_lt. split.
    + intros p. rewrite Hget. destruct (decide (u = p)); [subst; lia | lia].
    + exists u. rewrite Hget. destruct (decide (u = u)); [lia | contradiction].
Qed.

Lemma Increment_advances_witness :
  vcGet (Increment "u1" ∅) "u1" = vcGet ∅ "u1" + 1
  /\ (forall p, p <> "u1" -> vcGet (Increment "u1" ∅) p = vcGet ∅ p)
  /\ HappensBefore ∅ (Increment "u1" ∅) = true.
Proof.
  apply (Increment_advances "u1" ∅).
  split; [vm_compute; discriminate | vm_compute; reflexivity].
Defined.

(** [Equals] answers [true] whenever the two clocks agree entry by entry. *)
Lemma Equals_complete (a b : VectorClock) :
  (forall p, vcGet a p = vcGet b p) -> Equals a b = true.
Proof.
  intros H. apply Equals_true.
  destruct (negb (Nat.eqb (size a) (size b))); intros k _; rewrite H; reflexivity.
Qed.

(** X6. When every participant of [b] is a participant of [a], [Equals a b]
    decides equality of the two clocks read entry by entry (missing entries
    as 0). *)
Theorem Equals_exact_on_subdomain (a b : VectorClock) :
  dom b ⊆ dom a ->
  Equals a b = true <-> forall p, vcGet a p = vcGet b p.
Proof.
  intros Hsub. split; [| apply Equals_complete].
  intros He p. apply Equals_true in He.
  destruct (negb (Nat.eqb (size a) (size b))).
  - apply (vc_pointwise_eq_outside a b He).
  - destruct (decide (p ∈ dom a)) as [Ha | Ha].
    + symmetry. apply He, Ha.
    + rewrite !vcGet_outside; [reflexivity | | exact Ha].
      intros Hb. apply Ha, Hsub, Hb.
Qed.

Lemma Equals_exact_on_subdomain_witness :
  Equals {[ "u1" := 1 ]} {[ "u1" := 1 ]} = true
  <-> forall p, vcGet ({[ "u1" := 1 ]} : VectorClock) p
                = vcGet ({[ "u1" := 1 ]} : VectorClock) p.
Proof.
  apply (Equals_exact_on_subdomain {[ "u1" := 1 ]} {[ "u1" := 1 ]}).
  reflexivity.
Defined.

(** X7. The blind spot of [Equals]: when the two maps have the same number
    of entries only the receiver's keys are compared.  Trading an entry that
    is 0 for a non-zero entry under a fresh key gives a clock that differs
    from the receiver and that [Equals] reports as equal. *)
Theorem Equals_blind_spot (a : VectorClock) (j k : string) (v : Z) :
  a !! j = Some 0 -> a !! k = None -> v <> 0 ->
  let b : VectorClock := <[k := v]> (delete j a) in
  Equals a b = true /\ vcGet a k <> vcGet b k.
Proof.
  intros Hj Hk Hv b.
  assert (j <> k) as Hjk by (intros ->; congruence).
  assert (size b = size a) as Hsize.
  { unfold b. rewrite map_size_insert_None
      by (rewrite lookup_delete_ne by exact Hjk; exact Hk).
    rewrite map_size_delete_Some by eauto.
    destruct (size a) eqn:E; [| reflexivity].
    apply map_size_empty_inv in E. subst a. rewrite lookup_empty in Hj.
    discriminate. }
  split.
  - apply Equals_true. rewrite Hsize, Nat.eqb_refl. cbn [negb].
    intros p Hp. unfold b, vcGet.
    destruct (decide (p = j)) as [-> | Hpj].
    + rewrite lookup_insert_ne by congruence.
      rewrite lookup_delete_eq, Hj. reflexivity.
    + assert (k <> p) as Hkp.
      { intros ->. apply elem_of_dom in Hp as [x Hx]. congruence. }
      rewrite lookup_insert_ne by exact Hkp.
      rewrite lookup_delete_ne by congruence. reflexivity.
  - unfold b, vcGet. rewrite Hk, lookup_insert_eq. congruence.
Qed.

Lemma Equals_blind_spot_witness :
  Equals {[ "a" := 0 ]} (<[ "b" := 1 ]> (delete "a" {[ "a" := 0 ]})) = true
  /\ vcGet ({[ "a" := 0 ]} : VectorClock) "b"
     <> vcGet (<[ "b" := 1 ]> (delete "a" ({[ "a" := 0 ]} : VectorClock))) "b".
Proof.
  apply (Equals_blind_spot {[ "a" := 0 ]} "a" "b" 1);
    [reflexivity | reflexivity | discriminate].
Defined.

Lemma forallb_false_exists {A} (f : A -> bool) (l : list A) :
  forallb f l = false -> exists x, In x l /\ f x = false.
Proof.
  induction l as [| x l IH]; [discriminate |].
  cbn. destruct (f x) eqn:E.
  - intros H. destruct (IH H) as (y & Hy & Hf). exists y. auto.
  - intros _. exists x. auto.
Qed.

(** Either [a] is below [b] entry by entry, or some entry of [a] exceeds
    that of [b]. *)
Lemma vc_le_or_witness (a b : VectorClock) :
  vc_le a b \/ exists q, vcGet b q < vcGet a q.
Proof.
  destruct (forallb (fun k => vcGet a k <=? vcGet b k)
              (elements (dom a ∪ dom b))) eqn:E.
  - left. intros p. rewrite forallb_forall in E.
    destruct (decide (p ∈ dom a ∪ dom b)) as [Hp | Hp].
    + apply Z.leb_le, E, list_elem_of_In, elem_of_elements, Hp.
    + apply not_elem_of_union in Hp as [Ha Hb].
      rewrite !vcGet_outside by assumption. lia.
  - right. apply forallb_false_exists in E as (q & _ & Hq).
    exists q. apply Z.leb_gt in Hq. exact Hq.
Qed.

Lemma Equals_false_differs (a b : VectorClock) :
  Equals a b = false -> exists p, vcGet a p <> vcGet b p.
Proof.
  unfold Equals. destruct (negb (Nat.eqb (size a) (size b))); intros E;
    apply forallb_false_exists in E.
  - destruct E as (k & _ & Hk). exists k. apply Z.eqb_neq in Hk. exact Hk.
  - destruct E as ([k t] & Hin & Hk). exists k.
    apply list_elem_of_In, elem_of_map_to_list in Hin.
    rewrite (vcGet_entry a k t Hin). apply Z.eqb_neq in Hk. congruence.
Qed.

Lemma HappensBefore_false_witness (a b : VectorClock) p :
  HappensBefore a b = false -> vcGet a p < vcGet b p ->
  exists q, vcGet b q < vcGet a q.
Proof.
  intros Hhb Hp. destruct (vc_le_or_witness a b) as [Hle | Hw]; [| exact Hw].
  assert (HappensBefore a b = true) as Ht; [| congruence].
  apply HappensBefore_iff_lt. split; [exact Hle | eauto].
Qed.

(** A pair that [IsConcurrent] accepts is ordered neither way. *)
Lemma IsConcurrent_sound (a b : VectorClock) :
  IsConcurrent a b = true -> vc_incomparable a b.
Proof.
  unfold IsConcurrent. rewrite !andb_true_iff, !negb_true_iff.
  intros [[Hab Hba] He].
  destruct (Equals_false_differs a b He) as [p Hp].
  destruct (Z.lt_total (vcGet a p) (vcGet b p)) as [Hlt | [Heq | Hgt]];
    [| contradiction |].
  - split; [eauto |]. exact (HappensBefore_false_witness a b p Hab Hlt).
  - split; [| eauto]. exact (HappensBefore_false_witness b a p Hba Hgt).
Qed.

(** X8. Against a clock without negative counters, [IsConcurrent] holds
    exactly for the pairs ordered neither way: some entry of [a] is below
    that of [b] and some entry of [b] is below that of [a]. *)
Theorem IsConcurrent_incomparable (a b : VectorClock) :
  vc_nonneg b ->
  IsConcurrent a b = true <-> vc_incomparable a b.
Proof.
  intros Hb. split; [apply IsConcurrent_sound |].
  intros [[p Hp] [q Hq]]. unfold IsConcurrent.
  rewrite !andb_true_iff, !negb_true_iff. repeat split.
  - destruct (HappensBefore a b) eqn:E; [| reflexivity].
    apply HappensBefore_iff_lt in E as [Hle _]. specialize (Hle q). lia.
  - destruct (HappensBefore b a) eqn:E; [| reflexivity].
    apply HappensBefore_iff_lt in E as [Hle _]. specialize (Hle p). lia.
  - destruct (Equals a b) eqn:E; [| reflexivity].
    pose proof (Equals_vc_le a b Hb E q). lia.
Qed.

Lemma singleton_nonneg (k : string) (v : Z) :
  0 <= v -> vc_nonneg {[ k := v ]}.
Proof.
  intros Hv p. unfold vcGet.
  destruct (({[ k := v ]} : VectorClock) !! p) as [t |] eqn:E; [| lia].
  apply lookup_singleton_Some in E as [_ <-]. exact Hv.
Qed.

Lemma IsConcurrent_incomparable_witness :
  IsConcurrent {[ "u1" := 1 ]} {[ "u2" := 1 ]} = true
  <-> vc_incomparable {[ "u1" := 1 ]} {[ "u2" := 1 ]}.
Proof.
  apply (IsConcurrent_incomparable {[ "u1" := 1 ]} {[ "u2" := 1 ]}).
  apply singleton_nonneg. lia.
Defined.

(** ** Acknowledgement and clean-up of the pending buffer *)

Lemma elem_of_idSet (id : string) (ops : list Operation) :
  id ∈ idSet ops <-> exists op, In op ops /\ ID op = id.
Proof.
  unfold idSet. rewrite elem_of_list_to_set, list_elem_of_In, in_map_iff.
  split; intros (op & H1 & H2); exists op; auto.
Qed.

Lemma pendingID_true (ops : list Operation) (id : string) :
  pendingID ops id = true <-> id ∈ idSet ops.
Proof.
  unfold pendingID. rewrite existsb_exists, elem_of_idSet.
  split; intros (op & H1 & H2); exists op; split; try assumption.
  - apply String.eqb_eq, H2.
  - apply String.eqb_eq, H2.
Qed.

(** Removing from a buffer those of its operations whose id is in a set
    removes every operation whose id is in the set. *)
Lemma RemoveApplied_filter (acks : gset string) (ob : list Operation) :
  OperationBuffer_RemoveApplied
    (List.filter (fun op => bool_decide (ID op ∈ acks)) ob) ob
  = List.filter (fun op => negb (bool_decide (ID op ∈ acks))) ob.
Proof.
  unfold OperationBuffer_RemoveApplied. apply filter_ext_in.
  intros op Hin. f_equal.
  destruct (bool_decide (ID op ∈ acks)) eqn:E.
  - apply bool_decide_eq_true. apply elem_of_idSet. exists op.
    split; [| reflexivity]. apply filter_In. auto.
  - apply bool_decide_eq_false. rewrite elem_of_idSet.
    intros (op' & Hin' & Hid). apply filter_In in Hin' as [_ Ht].
    rewrite Hid in Ht. congruence.
Qed.

Lemma filter_keep_in {A} (f : A -> bool) (l : list A) :
  (forall x, In x l -> f x = true) -> List.filter f l = l.
Proof.
  induction l as [| x l IH]; intros H; [reflexivity |].
  cbn. rewrite (H x) by (left; reflexivity).
  f_equal. apply IH. intros y Hy. apply H. right. exact Hy.
Qed.

Lemma CleanupHistory_parts (sm : SyncManager) :
  localBuffer (CleanupHistory sm)
  = List.filter (fun op => negb (bool_decide (ID op ∈ acknowledgedOps sm)))
      (localBuffer sm)
  /\ acknowledgedOps (CleanupHistory sm)
     = acknowledgedOps sm ∩ idSet (localBuffer sm).
Proof.
  unfold CleanupHistory, OperationBuffer_GetAll. cbn. split.
  - apply RemoveApplied_filter.
  - apply set_eq. intros id.
    rewrite elem_of_filter, elem_of_intersection, pendingID_true. tauto.
Qed.

(** X9. [CleanupHistory] removes from the pending buffer every operation
    whose id has been acknowledged and keeps the others in order.  Of the
    acknowledgements it keeps those whose id was in the buffer on entry,
    which are the ones of the operations it has just removed, and forgets
    those of ids the buffer did not hold.  The document is not touched. *)
Theorem CleanupHistory_effect (sm : SyncManager) :
  let sm' := CleanupHistory sm in
  localBuffer sm'
  = List.filter (fun op => negb (bool_decide (ID op ∈ acknowledgedOps sm)))
      (localBuffer sm)
  /\ acknowledgedOps sm' = acknowledgedOps sm ∩ idSet (localBuffer sm)
  /\ document sm' = document sm
  /\ operationHistory sm' = operationHistory sm.
Proof.
  cbn zeta. destruct (CleanupHistory_parts sm) as [Hb Ha].
  repeat split; [exact Hb | exact Ha].
Qed.

(** X10. A second [CleanupHistory] in a row leaves the pending buffer as
    the first one left it and empties the set of acknowledgements. *)
Theorem CleanupHistory_twice (sm : SyncManager) :
  localBuffer (CleanupHistory (CleanupHistory sm))
  = localBuffer (CleanupHistory sm)
  /\ acknowledgedOps (CleanupHistory (CleanupHistory sm)) = ∅.
Proof.
  pose proof (CleanupHistory_parts sm) as (Hb & Ha).
  pose proof (CleanupHistory_parts (CleanupHistory sm)) as (Hb2 & Ha2).
  assert (forall op, In op (localBuffer (CleanupHistory sm)) ->
                     ID op ∉ acknowledgedOps (CleanupHistory sm)) as Hfresh.
  { intros op Hin. rewrite Hb in Hin. apply filter_In in Hin as [_ Hn].
    apply negb_true_iff, bool_decide_eq_false in Hn.
    rewrite Ha. intros H. apply elem_of_intersection in H as [H _]. auto. }
  split.
  - rewrite Hb2. apply filter_keep_in. intros op Hin.
    apply negb_true_iff, bool_decide_eq_false, Hfresh, Hin.
  - rewrite Ha2. apply set_eq. intros id. split; [| set_solver].
    intros H. apply elem_of_intersection in H as [H1 H2].
    apply elem_of_idSet in H2 as (op & Hin & <-).
    exfalso. exact (Hfresh op Hin H1).
Qed.

(** ** What the steps of the manager leave alone *)

Lemma sameOutsideDocument_refl sm : sameOutsideDocument sm sm.
Proof. repeat split. Qed.

Lemma sameOutsideDocument_trans sm1 sm2 sm3 :
  sameOutsideDocument sm1 sm2 -> sameOutsideDocument sm2 sm3 ->
  sameOutsideDocument sm1 sm3.
Proof.
  unfold sameOutsideDocument. intros H1 H2.
  repeat match goal with H : _ /\ _ |- _ => destruct H end.
  repeat split; congruence.
Qed.

Lemma sameOutsideDocument_notify b e sm :
  sameOutsideDocument sm (notify b e sm).
Proof. destruct b; repeat split. Qed.

Lemma sameOutsideDocument_commit op c sm :
  sameOutsideDocument sm (commitToDocument op c sm).
Proof.
  unfold commitToDocument. cbn zeta.
  eapply sameOutsideDocument_trans; [| apply sameOutsideDocument_notify].
  repeat split.
Qed.

Lemma sameOutsideDocument_applyOperationToDocument op sm :
  sameOutsideDocument sm (fst (applyOperationToDocument op sm)).
Proof.
  unfold applyOperationToDocument. cbn zeta.
  repeat match goal with
         | |- context [if ?c then _ else _] => destruct c
         end; cbn [fst];
    first [apply sameOutsideDocument_refl | apply sameOutsideDocument_commit].
Qed.

Lemma sameOutsideDocument_applyOperationDirectly op sm :
  sameOutsideDocument sm (fst (applyOperationDirectly op sm)).
Proof. repeat split. Qed.

Lemma sameOutsideDocument_applyEach f prefix ops :
  (forall op sm, sameOutsideDocument sm (fst (f op sm))) ->
  forall sm, sameOutsideDocument sm (fst (applyEach f prefix ops sm)).
Proof.
  intros Hf. induction ops as [| op ops IH]; intros sm; cbn [applyEach].
  - apply sameOutsideDocument_refl.
  - pose proof (Hf op sm) as H. destruct (f op sm) as [sm1 [e |]]; cbn [fst] in *.
    + exact H.
    + eapply sameOutsideDocument_trans; [exact H | apply IH].
Qed.

Lemma sameOutsideDocument_undoLocalOperations ops sm :
  sameOutsideDocument sm (fst (undoLocalOperations ops sm)).
Proof.
  unfold undoLocalOperations. cbn zeta.
  eapply sameOutsideDocument_trans;
    [| apply sameOutsideDocument_applyEach,
         sameOutsideDocument_applyOperationDirectly].
  repeat split.
Qed.

(** ** The bound on the history *)

Lemma addToHistory_bounded op sm :
  2 <= maxHistorySize sm -> historyBounded sm ->
  historyBounded (addToHistory op sm).
Proof.
  unfold historyBounded, addToHistory. cbn. intros Hmax Hb.
  rewrite length_app. cbn [length].
  destruct (maxHistorySize sm <=? Z.of_nat (length (operationHistory sm)))
    eqn:E.
  - apply Z.leb_le in E. rewrite length_drop.
    assert (Z.of_nat (length (operationHistory sm)) = maxHistorySize sm)
      as Heq by lia.
    pose proof (Z.div_le_lower_bound
                  (Z.of_nat (length (operationHistory sm))) 2 1) as Hd.
    pose proof (Z.div_le_upper_bound
                  (Z.of_nat (length (operationHistory sm))) 2
                  (Z.of_nat (length (operationHistory sm)))) as Hu.
    lia.
  - apply Z.leb_gt in E. lia.
Qed.

Lemma historyBounded_same sm sm' :
  operationHistory sm' = operationHistory sm ->
  maxHistorySize sm' = maxHistorySize sm ->
  historyBounded sm -> historyBounded sm'.
Proof. unfold historyBounded. intros -> ->. auto. Qed.

Lemma historyBounded_frame sm sm' :
  sameOutsideDocument sm sm' -> historyBounded sm -> historyBounded sm'.
Proof.
  intros H. apply historyBounded_same; apply H.
Qed.

Lemma ApplyLocalOperation_history op sm :
  let sm' := fst (ApplyLocalOperation op sm) in
  maxHistorySize sm' = maxHistorySize sm
  /\ (operationHistory sm' = operationHistory sm
      \/ operationHistory sm' = operationHistory (addToHistory op sm)).
Proof.
  cbn zeta. unfold ApplyLocalOperation. cbn zeta.
  pose proof (sameOutsideDocument_applyOperationToDocument op
                (set_localBuffer (localBuffer sm ++ [op]) sm)) as H.
  destruct (applyOperationToDocument op _) as [sm2 [e |]]; cbn [fst] in *;
    destruct H as (_ & _ & _ & _ & _ & Hh & Hm & _); cbn in Hh, Hm.
  - split; [exact Hm | left; exact Hh].
  - split; [exact Hm |]. right. unfold addToHistory. cbn.
    rewrite Hh, Hm. reflexivity.
Qed.

Section HistoryOfRemote.

Variable sortSlice :
  (Operation -> Operation -> bool) -> list Operation -> list Operation.

Lemma ApplyRemoteOperation_history r sm :
  let sm' := fst (ApplyRemoteOperation sortSlice r sm) in
  maxHistorySize sm' = maxHistorySize sm
  /\ (operationHistory sm' = operationHistory sm
      \/ exists r', operationHistory sm'
                    = operationHistory (addToHistory r' sm)).
Proof.
  cbn zeta. unfold ApplyRemoteOperation. cbn zeta.
  set (sm2 := set_vectorClock _ (set_remoteBuffer _ sm)).
  assert (sameOutsideHistory : operationHistory sm2 = operationHistory sm
                               /\ maxHistorySize sm2 = maxHistorySize sm)
    by (split; reflexivity).
  destruct sameOutsideHistory as [Hh2 Hm2].
  destruct (performOperationalTransformation_shape sortSlice r
              (localBuffer sm2) sm2) as (r' & ls' & Hot & _).
  rewrite Hot. clear Hot.
  set (sm3 := set_notified _ sm2).
  pose proof (sameOutsideDocument_undoLocalOperations (localBuffer sm2) sm3)
    as H4.
  destruct (undoLocalOperations (localBuffer sm2) sm3) as [sm4 [e4 |]];
    cbn [fst] in *.
  { destruct H4 as (_ & _ & _ & _ & _ & Hh & Hm & _). cbn in Hh, Hm.
    split; [congruence | left; congruence]. }
  pose proof (sameOutsideDocument_applyOperationToDocument r' sm4) as H5.
  destruct (applyOperationToDocument r' sm4) as [sm5 [e5 |]]; cbn [fst] in *.
  { pose proof (sameOutsideDocument_trans _ _ _ H4 H5)
      as (_ & _ & _ & _ & _ & Hh & Hm & _). cbn in Hh, Hm.
    split; [congruence | left; congruence]. }
  pose proof (sameOutsideDocument_applyEach applyOperationToDocument
                "failed to reapply transformed local operation" ls'
                sameOutsideDocument_applyOperationToDocument sm5) as H6.
  destruct (applyEach applyOperationToDocument _ ls' sm5) as [sm6 [e6 |]];
    cbn [fst] in *;
    pose proof (sameOutsideDocument_trans _ _ _
                  (sameOutsideDocument_trans _ _ _ H4 H5) H6)
      as (_ & _ & _ & _ & _ & Hh & Hm & _); cbn in Hh, Hm.
  { split; [congruence | left; congruence]. }
  split.
  - destruct (onOperationApplied _); cbn; congruence.
  - right. exists r'.
    destruct (onOperationApplied _); cbn; rewrite Hh, Hm; reflexivity.
Qed.

(** X11. With a limit of at least 2 the history never outgrows it: a
    history within the limit is still within it after a local operation and
    after a remote one, whether they succeed or fail, and the limit itself
    is not changed. *)
Theorem history_stays_bounded (op : Operation) (sm : SyncManager) :
  2 <= maxHistorySize sm -> historyBounded sm ->
  let l := fst (ApplyLocalOperation op sm) in
  let r := fst (ApplyRemoteOperation sortSlice op sm) in
  historyBounded l /\ maxHistorySize l = maxHistorySize sm
  /\ historyBounded r /\ maxHistorySize r = maxHistorySize sm.
Proof.
  intros Hmax Hb. cbn zeta.
  destruct (ApplyLocalOperation_history op sm) as [Hm [Hh | Hh]];
    destruct (ApplyRemoteOperation_history op sm) as [Hm' [Hh' | [r' Hh']]];
    repeat split; try assumption;
    try (apply (historyBounded_same sm); assumption);
    try (apply (historyBounded_same (addToHistory op sm));
         [assumption | assumption | apply addToHistory_bounded; assumption]);
    try (apply (historyBounded_same (addToHistory r' sm));
         [assumption | assumption | apply addToHistory_bounded; assumption]).
Qed.

End HistoryOfRemote.

Lemma history_stays_bounded_witness :
  historyBounded (fst (ApplyLocalOperation ex_remoteA NewSyncManager))
  /\ historyBounded
       (fst (ApplyRemoteOperation insertionSort ex_remoteA NewSyncManager)).
Proof.
  pose proof (history_stays_bounded insertionSort ex_remoteA NewSyncManager)
    as H.
  cbn zeta in H.
  destruct H as (H1 & _ & H2 & _);
    [vm_compute; discriminate | vm_compute; discriminate |].
  split; assumption.
Defined.

(** ** The content of the document against its log *)

(** The two ways of applying an operation leave the same content. *)
Lemma stepContent_directContent op c : stepContent op c = directContent op c.
Proof.
  unfold stepContent, directContent. cbn zeta.
  destruct (String.eqb (Type_ op) OpInsert);
    [| destruct (String.eqb (Type_ op) OpDelete)];
    repeat match goal with
           | |- context [?a <? ?b] => destruct (Z.ltb_spec a b)
           | |- context [?a <=? ?b] => destruct (Z.leb_spec a b)
           end; cbn [orb andb]; try reflexivity; exfalso; lia.
Qed.

Lemma contentInv_document sm sm' :
  document sm' = document sm -> contentInv sm -> contentInv sm'.
Proof. unfold contentInv. intros ->. auto. Qed.

Lemma contentInv_applyOperationToDocument op sm :
  contentInv sm -> contentInv (fst (applyOperationToDocument op sm)).
Proof.
  intros H. pose proof (applyOperationToDocument_log op sm) as Hlog.
  pose proof (applyOperationToDocument_content op sm) as Hc.
  cbn zeta in Hlog. destruct Hlog as [Hd | [_ Hops]].
  - apply (contentInv_document sm); assumption.
  - unfold contentInv in *. rewrite Hc, Hops, replayContent_snoc, <- H.
    apply stepContent_directContent.
Qed.

Lemma contentInv_applyEach prefix ops :
  forall sm, contentInv sm ->
    contentInv (fst (applyEach applyOperationToDocument prefix ops sm)).
Proof.
  induction ops as [| op ops IH]; intros sm H; cbn [applyEach]; [exact H |].
  pose proof (contentInv_applyOperationToDocument op sm H) as H1.
  destruct (applyOperationToDocument op sm) as [sm1 [e |]]; cbn [fst] in *.
  - exact H1.
  - apply IH, H1.
Qed.

Lemma contentInv_undoLocalOperations ops sm :
  contentInv (fst (undoLocalOperations ops sm)).
Proof.
  unfold undoLocalOperations, contentInv. cbn zeta.
  match goal with
  | |- context [applyEach _ ?pre ?l ?s] =>
    destruct (replay_fields pre l s) as (Hc & Ho & _)
  end.
  cbn zeta in Hc, Ho. rewrite Hc, Ho. reflexivity.
Qed.

(** X12. A local operation keeps the content of the document equal to the
    replay of its log from the empty string. *)
Theorem ApplyLocalOperation_keeps_contentInv
    (op : Operation) (sm : SyncManager) :
  contentInv sm -> contentInv (fst (ApplyLocalOperation op sm)).
Proof.
  intros H. unfold ApplyLocalOperation. cbn zeta.
  pose proof (contentInv_applyOperationToDocument op
                (set_localBuffer (localBuffer sm ++ [op]) sm) H) as H1.
  destruct (applyOperationToDocument op _) as [sm2 [e |]]; cbn [fst] in *.
  - exact H1.
  - exact H1.
Qed.

Lemma ApplyLocalOperation_keeps_contentInv_witness :
  contentInv (fst (ApplyLocalOperation ex_remoteA NewSyncManager)).
Proof.
  apply (ApplyLocalOperation_keeps_contentInv ex_remoteA NewSyncManager).
  reflexivity.
Defined.

Section ContentOfRemote.

Variable sortSlice :
  (Operation -> Operation -> bool) -> list Operation -> list Operation.

(** X13. After a remote operation, applied or refused, the content of the
    document is the replay of its log from the empty string, whatever the
    document held before: content that no logged operation produced, such
    as the text given to [InitializeDocument], does not survive. *)
Theorem ApplyRemoteOperation_content_is_replay
    (r : Operation) (sm : SyncManager) :
  contentInv (fst (ApplyRemoteOperation sortSlice r sm)).
Proof.
  unfold ApplyRemoteOperation. cbn zeta.
  set (sm2 := set_vectorClock _ (set_remoteBuffer _ sm)).
  destruct (performOperationalTransformation_shape sortSlice r
              (localBuffer sm2) sm2) as (r' & ls' & Hot & _).
  rewrite Hot. clear Hot.
  set (sm3 := set_notified _ sm2).
  pose proof (contentInv_undoLocalOperations (localBuffer sm2) sm3) as H4.
  destruct (undoLocalOperations (localBuffer sm2) sm3) as [sm4 [e4 |]];
    cbn [fst] in *; [exact H4 |].
  pose proof (contentInv_applyOperationToDocument r' sm4 H4) as H5.
  destruct (applyOperationToDocument r' sm4) as [sm5 [e5 |]];
    cbn [fst] in *; [exact H5 |].
  pose proof (contentInv_applyEach
                "failed to reapply transformed local operation" ls' sm5 H5)
    as H6.
  destruct (applyEach applyOperationToDocument _ ls' sm5) as [sm6 [e6 |]];
    cbn [fst] in *; [exact H6 |].
  destruct (onOperationApplied _); exact H6.
Qed.

End ContentOfRemote.

Section InitialContent.

Variable sortSlice :
  (Operation -> Operation -> bool) -> list Operation -> list Operation.

Hypothesis sortSlice_singleton :
  forall less (x : Operation), sortSlice less [x] = [x].

(** X14. The text given to [InitializeDocument] is discarded by the first
    remote operation: with nothing pending, the content after the delivery
    is what the operation makes of the empty document. *)
Theorem InitializeDocument_content_discarded
    (S : string) (r : Operation) (sm0 : SyncManager) :
  localBuffer sm0 = [] ->
  GetDocumentContent
    (fst (ApplyRemoteOperation sortSlice r (InitializeDocument S sm0)))
  = stepContent r "".
Proof.
  intros Hb. set (sm := InitializeDocument S sm0).
  destruct (remoteStage_nothing_pending sortSlice sortSlice_singleton r sm Hb)
    as (sm4 & Hst & Hc & _).
  rewrite (ApplyRemoteOperation_steps sortSlice r sm sm4 r [] Hst).
  change (replayContent (Operations (document sm))) with "" in Hc.
  pose proof (applyOperationToDocument_content r sm4) as Hstep.
  rewrite Hc in Hstep. unfold GetDocumentContent.
  destruct (applyOperationToDocument r sm4) as [sm5 [e |]]; cbn [fst] in *;
    [exact Hstep |].
  unfold finishRemote. cbn [applyEach].
  destruct (onOperationApplied _); exact Hstep.
Qed.

End InitialContent.

Lemma InitializeDocument_content_discarded_witness :
  GetDocumentContent
    (fst (ApplyRemoteOperation insertionSort ex_remoteA
            (InitializeDocument "hello" (SetUserID "u1" NewSyncManager))))
  = stepContent ex_remoteA "".
Proof.
  apply (InitializeDocument_content_discarded insertionSort
           (@insertionSort_singleton Operation)).
  reflexivity.
Defined.

(** ** Transformation keeps the identity of the operations *)

Lemma sameIdentity_refl op : sameIdentity op op.
Proof. repeat split. Qed.

Lemma sameIdentity_trans a b c :
  sameIdentity a b -> sameIdentity b c -> sameIdentity a c.
Proof.
  unfold sameIdentity. intros (? & ? & ? & ? & ?) (? & ? & ? & ? & ?).
  repeat split; congruence.
Qed.

Lemma inclusionTransform_sameIdentity op against f :
  sameIdentity op (inclusionTransform op against f).
Proof.
  unfold inclusionTransform, sameIdentity.
  destruct (String.eqb (Type_ op) OpInsert && String.eqb (Type_ against) OpInsert).
  { pose proof (transformInsertInsert_frame op against f) as H.
    cbn zeta in H. tauto. }
  destruct (String.eqb (Type_ op) OpInsert && String.eqb (Type_ against) OpDelete).
  { pose proof (transformInsertDelete_frame op against) as H.
    cbn zeta in H. tauto. }
  destruct (String.eqb (Type_ op) OpDelete && String.eqb (Type_ against) OpInsert).
  { pose proof (transformDeleteInsert_frame op against) as H.
    cbn zeta in H. tauto. }
  destruct (String.eqb (Type_ op) OpDelete && String.eqb (Type_ against) OpDelete).
  { pose proof (transformDeleteDelete_frame op against f) as H.
    cbn zeta in H. tauto. }
  repeat split.
Qed.

Lemma Forall2_sameIdentity_refl ls : Forall2 sameIdentity ls ls.
Proof. induction ls; constructor; auto using sameIdentity_refl. Qed.

Lemma updateFirstByID_sameIdentity id f ls ls' :
  (forall x, sameIdentity x (f x)) ->
  Forall2 sameIdentity ls ls' ->
  Forall2 sameIdentity ls (updateFirstByID id f ls').
Proof.
  intros Hf H. induction H as [| x y l l' Hxy Hl IH]; cbn [updateFirstByID].
  - constructor.
  - destruct (String.eqb (ID y) id).
    + constructor; [| exact Hl].
      eapply sameIdentity_trans; [exact Hxy | apply Hf].
    + constructor; assumption.
Qed.

(** The loop invariant of [performOperationalTransformation]. *)
Lemma transformTarget_sameIdentity r ls remoteOp target against f st :
  sameIdentity r (transformedRemoteOp st)
  /\ Forall2 sameIdentity ls (transformedLocalOps st) ->
  sameIdentity r (transformedRemoteOp
                    (transformTarget remoteOp target against f st))
  /\ Forall2 sameIdentity ls
       (transformedLocalOps (transformTarget remoteOp target against f st)).
Proof.
  intros [Hr Hl]. unfold transformTarget.
  destruct (String.eqb (ID target) (ID remoteOp)); cbn; split;
    try assumption.
  - eapply sameIdentity_trans;
      [exact Hr | apply inclusionTransform_sameIdentity].
  - apply updateFirstByID_sameIdentity; [| exact Hl].
    intros x. apply inclusionTransform_sameIdentity.
Qed.

Lemma transformPair_sameIdentity r ls h remoteOp op1 op2 st :
  sameIdentity r (transformedRemoteOp st)
  /\ Forall2 sameIdentity ls (transformedLocalOps st) ->
  sameIdentity r (transformedRemoteOp (transformPair h remoteOp op1 op2 st))
  /\ Forall2 sameIdentity ls
       (transformedLocalOps (transformPair h remoteOp op1 op2 st)).
Proof.
  intros H. unfold transformPair. cbn zeta.
  destruct (HappensBefore (Op_VectorClock op1) (Op_VectorClock op2));
    [apply transformTarget_sameIdentity, H |].
  destruct (HappensBefore (Op_VectorClock op2) (Op_VectorClock op1));
    [apply transformTarget_sameIdentity, H |].
  destruct (IsConcurrent (Op_VectorClock op1) (Op_VectorClock op2));
    [| exact H].
  destruct (calculatePriority op1 <? calculatePriority op2);
    destruct h; cbn; apply transformTarget_sameIdentity, H.
Qed.

Lemma transformAll_sameIdentity r ls h remoteOp sorted :
  forall st,
    sameIdentity r (transformedRemoteOp st)
    /\ Forall2 sameIdentity ls (transformedLocalOps st) ->
    sameIdentity r (transformedRemoteOp (transformAll h remoteOp sorted st))
    /\ Forall2 sameIdentity ls
         (transformedLocalOps (transformAll h remoteOp sorted st)).
Proof.
  induction sorted as [| op1 rest IH]; intros st H; cbn [transformAll];
    [exact H |].
  apply IH. clear IH. revert st H.
  induction rest as [| op2 rest IH]; intros st H; cbn [fold_left];
    [exact H |].
  apply IH, transformPair_sameIdentity, H.
Qed.

Section Identity.

Variable sortSlice :
  (Operation -> Operation -> bool) -> list Operation -> list Operation.

(** X15. [performOperationalTransformation] never fails, and whatever the
    sort returns it gives back the remote operation and the pending
    operations, as many and in the order given, each with the type, user,
    timestamp, id and vector clock it had. *)
Theorem performOperationalTransformation_keeps_identity
    (remoteOp : Operation) (localOps : list Operation) (sm : SyncManager) :
  let res := snd (performOperationalTransformation sortSlice remoteOp localOps sm) in
  snd res = None
  /\ sameIdentity remoteOp (fst (fst res))
  /\ Forall2 sameIdentity localOps (snd (fst res)).
Proof.
  cbn zeta. unfold performOperationalTransformation. cbn.
  split; [reflexivity |].
  apply transformAll_sameIdentity. cbn.
  split; [apply sameIdentity_refl | apply Forall2_sameIdentity_refl].
Qed.

(** X16. A remote operation, applied or refused, loses none of the pending
    operations: afterwards the pending buffer holds as many operations as
    before, in the same order, each with the type, user, timestamp, id and
    vector clock it had. *)
Theorem ApplyRemoteOperation_keeps_pending
    (r : Operation) (sm : SyncManager) :
  Forall2 sameIdentity (localBuffer sm)
    (localBuffer (fst (ApplyRemoteOperation sortSlice r sm))).
Proof.
  unfold ApplyRemoteOperation. cbn zeta.
  set (sm2 := set_vectorClock _ (set_remoteBuffer _ sm)).
  pose proof (performOperationalTransformation_shape sortSlice r
                (localBuffer sm2) sm2) as (r' & ls' & Hot & _).
  pose proof (transformAll_sameIdentity r (localBuffer sm2)
                (onConflictResolved sm2) r
                (topologicalSort sortSlice (r :: localBuffer sm2))
                (mkOTState r (localBuffer sm2) [])
                (conj (sameIdentity_refl r)
                      (Forall2_sameIdentity_refl (localBuffer sm2))))
    as [_ Hls].
  assert (ls' = transformedLocalOps
                  (transformAll (onConflictResolved sm2) r
                     (topologicalSort sortSlice (r :: localBuffer sm2))
                     (mkOTState r (localBuffer sm2) []))) as Hls'.
  { unfold performOperationalTransformation in Hot. cbn zeta in Hot.
    congruence. }
  rewrite <- Hls' in Hls. clear Hls'.
  rewrite Hot. clear Hot.
  set (sm3 := set_notified _ sm2).
  pose proof (sameOutsideDocument_undoLocalOperations (localBuffer sm2) sm3)
    as H4.
  destruct (undoLocalOperations (localBuffer sm2) sm3) as [sm4 [e4 |]];
    cbn [fst] in *.
  { destruct H4 as (_ & _ & Hb & _). rewrite Hb.
    apply Forall2_sameIdentity_refl. }
  pose proof (sameOutsideDocument_applyOperationToDocument r' sm4) as H5.
  destruct (applyOperationToDocument r' sm4) as [sm5 [e5 |]]; cbn [fst] in *.
  { pose proof (sameOutsideDocument_trans _ _ _ H4 H5) as (_ & _ & Hb & _).
    rewrite Hb. apply Forall2_sameIdentity_refl. }
  pose proof (sameOutsideDocument_applyEach applyOperationToDocument
                "failed to reapply transformed local operation" ls'
                sameOutsideDocument_applyOperationToDocument sm5) as H6.
  destruct (applyEach applyOperationToDocument _ ls' sm5) as [sm6 [e6 |]];
    cbn [fst] in *.
  { pose proof (sameOutsideDocument_trans _ _ _
                  (sameOutsideDocument_trans _ _ _ H4 H5) H6)
      as (_ & _ & Hb & _).
    rewrite Hb. apply Forall2_sameIdentity_refl. }
  destruct (onOperationApplied _); exact Hls.
Qed.

End Identity.

(** ** Operations with equal clocks are not transformed *)

Lemma HappensBefore_irrefl (vc : VectorClock) : HappensBefore vc vc = false.
Proof.
  destruct (HappensBefore vc vc) eqn:E; [| reflexivity].
  apply HappensBefore_iff_lt in E as [_ [p Hp]]. lia.
Qed.

Lemma IsConcurrent_irrefl (vc : VectorClock) : IsConcurrent vc vc = false.
Proof.
  unfold IsConcurrent. rewrite (Equals_complete vc vc) by reflexivity.
  apply andb_false_r.
Qed.

Lemma transformPair_same_clock h r op1 op2 st :
  Op_VectorClock op1 = Op_VectorClock op2 ->
  transformPair h r op1 op2 st = st.
Proof.
  intros H. unfold transformPair.
  rewrite H, HappensBefore_irrefl, IsConcurrent_irrefl. reflexivity.
Qed.

Lemma transformAll_same_clock vc h r sorted :
  (forall op, In op sorted -> Op_VectorClock op = vc) ->
  forall st, transformAll h r sorted st = st.
Proof.
  induction sorted as [| op1 rest IH]; intros Hall st; cbn [transformAll];
    [reflexivity |].
  assert (fold_left (fun st op2 => transformPair h r op1 op2 st) rest st = st)
    as ->.
  { assert (forall op, In op rest -> Op_VectorClock op1 = Op_VectorClock op)
      as Hrest.
    { intros op Hin. rewrite (Hall op1), (Hall op);
        [reflexivity | right; exact Hin | left; reflexivity]. }
    clear IH Hall. revert st.
    induction rest as [| op2 rest IH2]; intros st; cbn [fold_left];
      [reflexivity |].
    rewrite transformPair_same_clock by (apply Hrest; left; reflexivity).
    apply IH2. intros op Hin. apply Hrest. right. exact Hin. }
  apply IH. intros op Hin. apply Hall. right. exact Hin.
Qed.

Lemma set_notified_same sm : set_notified (notified sm ++ []) sm = sm.
Proof. destruct sm. unfold set_notified. cbn. rewrite app_nil_r. reflexivity. Qed.

Lemma Update_empty (vc : VectorClock) : Update ∅ vc = vc.
Proof. rewrite Update_unfold, map_to_list_empty. reflexivity. Qed.

Lemma sinkLeft_In {A} (less : A -> A -> bool) (x y : A) (r : list A) :
  In y (sinkLeft less x r) -> y = x \/ In y r.
Proof.
  induction r as [| z r IH]; cbn [sinkLeft].
  - intros [<- | []]. left. reflexivity.
  - destruct (less x z).
    + intros [<- | H]; [right; left; reflexivity |].
      destruct (IH H) as [-> | Hin]; [left; reflexivity | right; right; exact Hin].
    + intros [<- | H]; [left; reflexivity | right; exact H].
Qed.

Lemma insertionSort_In {A} (less : A -> A -> bool) (l : list A) (y : A) :
  In y (insertionSort less l) -> In y l.
Proof.
  unfold insertionSort. rewrite <- in_rev.
  assert (forall acc, In y (fold_left (fun revPrefix x => sinkLeft less x revPrefix) l acc)
                      -> In y l \/ In y acc) as H.
  { induction l as [| x l IH]; intros acc; cbn [fold_left]; [auto |].
    intros Hin. destruct (IH _ Hin) as [Hl | Hs].
    - left. right. exact Hl.
    - destruct (sinkLeft_In less x y acc Hs) as [-> | Hacc].
      + left. left. reflexivity.
      + right. exact Hacc. }
  intros Hin. destruct (H [] Hin) as [Hl | []]. exact Hl.
Qed.

Section EqualClocks.

Variable sortSlice :
  (Operation -> Operation -> bool) -> list Operation -> list Operation.

(** Sorting returns elements of the slice it is given. *)
Hypothesis sortSlice_In :
  forall less (l : list Operation) x, In x (sortSlice less l) -> In x l.

Lemma performOperationalTransformation_equal_clocks_aux vc r ls sm :
  Op_VectorClock r = vc ->
  Forall (fun op => Op_VectorClock op = vc) ls ->
  performOperationalTransformation sortSlice r ls sm = (sm, (r, ls, None)).
Proof.
  intros Hr Hl. unfold performOperationalTransformation. cbn zeta.
  rewrite (transformAll_same_clock vc).
  - cbn. rewrite set_notified_same. reflexivity.
  - intros op Hin. unfold topologicalSort in Hin.
    apply sortSlice_In in Hin. destruct Hin as [<- | Hin]; [exact Hr |].
    rewrite Forall_forall in Hl. apply Hl, list_elem_of_In, Hin.
Qed.

(** The clock of the manager after a local and after a remote operation. *)
Lemma ApplyLocalOperation_clock op sm :
  vectorClock (fst (ApplyLocalOperation op sm))
  = match snd (ApplyLocalOperation op sm) with
    | Some _ => vectorClock sm
    | None => Update (Op_VectorClock op) (vectorClock sm)
    end.
Proof.
  unfold ApplyLocalOperation. cbn zeta.
  pose proof (sameOutsideDocument_applyOperationToDocument op
                (set_localBuffer (localBuffer sm ++ [op]) sm))
    as (_ & Hv & _).
  destruct (applyOperationToDocument op _) as [sm2 [e |]]; cbn in *.
  - exact Hv.
  - rewrite Hv. reflexivity.
Qed.

Lemma ApplyRemoteOperation_clock r sm :
  vectorClock (fst (ApplyRemoteOperation sortSlice r sm))
  = Update (Op_VectorClock r) (vectorClock sm).
Proof.
  unfold ApplyRemoteOperation. cbn zeta.
  set (sm2 := set_vectorClock _ (set_remoteBuffer _ sm)).
  destruct (performOperationalTransformation_shape sortSlice r
              (localBuffer sm2) sm2) as (r' & ls' & Hot & _).
  rewrite Hot. clear Hot.
  set (sm3 := set_notified _ sm2).
  pose proof (sameOutsideDocument_undoLocalOperations (localBuffer sm2) sm3)
    as H4.
  destruct (undoLocalOperations (localBuffer sm2) sm3) as [sm4 [e4 |]];
    cbn [fst] in *.
  { destruct H4 as (_ & Hv & _). exact Hv. }
  pose proof (sameOutsideDocument_applyOperationToDocument r' sm4) as H5.
  destruct (applyOperationToDocument r' sm4) as [sm5 [e5 |]]; cbn [fst] in *.
  { pose proof (sameOutsideDocument_trans _ _ _ H4 H5) as (_ & Hv & _).
    exact Hv. }
  pose proof (sameOutsideDocument_applyEach applyOperationToDocument
                "failed to reapply transformed local operation" ls'
                sameOutsideDocument_applyOperationToDocument sm5) as H6.
  destruct (applyEach applyOperationToDocument _ ls' sm5) as [sm6 [e6 |]];
    cbn [fst] in *;
    pose proof (sameOutsideDocument_trans _ _ _
                  (sameOutsideDocument_trans _ _ _ H4 H5) H6)
      as (_ & Hv & _).
  { exact Hv. }
  destruct (onOperationApplied _); exact Hv.
Qed.

(** X17. When the remote operation and all the pending ones carry the same
    vector clock, [performOperationalTransformation] transforms nothing: it
    returns the operations it was given and reports no conflict. *)
Theorem performOperationalTransformation_equal_clocks
    (vc : VectorClock) (remoteOp : Operation) (localOps : list Operation)
    (sm : SyncManager) :
  Op_VectorClock remoteOp = vc ->
  Forall (fun op => Op_VectorClock op = vc) localOps ->
  performOperationalTransformation sortSlice remoteOp localOps sm
  = (sm, (remoteOp, localOps, None)).
Proof.
  apply performOperationalTransformation_equal_clocks_aux.
Qed.

Lemma ApplyRemoteOperation_equal_clocks_buffer vc r sm :
  Op_VectorClock r = vc ->
  Forall (fun op => Op_VectorClock op = vc) (localBuffer sm) ->
  localBuffer (fst (ApplyRemoteOperation sortSlice r sm)) = localBuffer sm.
Proof.
  intros Hr Hl. unfold ApplyRemoteOperation. cbn zeta.
  set (sm2 := set_vectorClock _ (set_remoteBuffer _ sm)).
  rewrite (performOperationalTransformation_equal_clocks_aux vc r
             (localBuffer sm2) sm2 Hr Hl).
  pose proof (sameOutsideDocument_undoLocalOperations (localBuffer sm2) sm2)
    as H4.
  destruct (undoLocalOperations (localBuffer sm2) sm2) as [sm4 [e4 |]];
    cbn [fst] in *.
  { destruct H4 as (_ & _ & Hb & _). exact Hb. }
  pose proof (sameOutsideDocument_applyOperationToDocument r sm4) as H5.
  destruct (applyOperationToDocument r sm4) as [sm5 [e5 |]]; cbn [fst] in *.
  { pose proof (sameOutsideDocument_trans _ _ _ H4 H5) as (_ & _ & Hb & _).
    exact Hb. }
  destruct (applyEach applyOperationToDocument _ (localBuffer sm2) sm5)
    as [sm6 [e6 |]] eqn:E6.
  { pose proof (sameOutsideDocument_applyEach applyOperationToDocument
                  "failed to reapply transformed local operation"
                  (localBuffer sm2)
                  sameOutsideDocument_applyOperationToDocument sm5) as H6.
    rewrite E6 in H6. cbn [fst] in *.
    pose proof (sameOutsideDocument_trans _ _ _
                  (sameOutsideDocument_trans _ _ _ H4 H5) H6)
      as (_ & _ & Hb & _).
    exact Hb. }
  cbn [fst]. destruct (onOperationApplied _); reflexivity.
Qed.

(** X18. Operations that come in through [handleDocumentOperation] carry
    no vector clock.  As long as the pending operations are such, the
    handler never transforms them: an operation of the session's own user
    is appended to the pending buffer, an operation of anyone else leaves
    the buffer exactly as it was, and the manager's clock stays where it
    was. *)
Theorem handleDocumentOperation_never_transforms
    (op : DocumentOperation) (now : Z) (randomBytes : list ascii) (idNow : Z)
    (cm : CollabManager) :
  clockless (localBuffer (syncManager cm)) ->
  let sm' :=
    syncManager (fst (handleDocumentOperation sortSlice op now randomBytes idNow cm)) in
  let syncOp :=
    mkOperation (DO_Type op) (DO_Position op) (DO_Content op) (DO_Length op)
      (DO_UserID op) now
      (generateOperationID (DO_UserID op) randomBytes idNow) ∅ in
  localBuffer sm'
  = (if String.eqb (DO_UserID op) (sessionUserID cm)
     then (localBuffer (syncManager cm) ++ [syncOp])%list
     else localBuffer (syncManager cm))
  /\ clockless (localBuffer sm')
  /\ vectorClock sm' = vectorClock (syncManager cm).
Proof.
  intros Hc. cbn zeta. unfold handleDocumentOperation. cbn zeta.
  set (syncOp := mkOperation _ _ _ _ _ _ _ ∅).
  destruct (String.eqb (DO_UserID op) (sessionUserID cm)).
  - pose proof (ApplyLocalOperation_appends syncOp (syncManager cm)) as Hb.
    pose proof (ApplyLocalOperation_clock syncOp (syncManager cm)) as Hv.
    destruct (ApplyLocalOperation syncOp (syncManager cm)) as [sm' e].
    cbn [fst syncManager] in *. rewrite Hb. repeat split.
    + apply Forall_app. split; [exact Hc |]. constructor; [reflexivity |].
      constructor.
    + rewrite Hv. destruct e; [reflexivity | apply Update_empty].
  - pose proof (ApplyRemoteOperation_equal_clocks_buffer ∅ syncOp
                  (syncManager cm) eq_refl Hc) as Hb.
    pose proof (ApplyRemoteOperation_clock syncOp (syncManager cm)) as Hv.
    destruct (ApplyRemoteOperation sortSlice syncOp (syncManager cm))
      as [sm' e].
    cbn [fst syncManager] in *. rewrite Hb. repeat split.
    + exact Hc.
    + rewrite Hv. apply Update_empty.
Qed.

End EqualClocks.

Lemma performOperationalTransformation_equal_clocks_witness :
  performOperationalTransformation insertionSort
    (insertOp 0 "a" "u2" 1 "u2-1" ∅) [insertOp 0 "b" "u1" 1 "u1-1" ∅]
    NewSyncManager
  = (NewSyncManager,
     (insertOp 0 "a" "u2" 1 "u2-1" ∅, [insertOp 0 "b" "u1" 1 "u1-1" ∅], None)).
Proof.
  apply (performOperationalTransformation_equal_clocks insertionSort
           (@insertionSort_In Operation) ∅).
  - reflexivity.
  - repeat constructor.
Defined.

Lemma handleDocumentOperation_never_transforms_witness :
  clockless
    (localBuffer
       (syncManager
          (fst (handleDocumentOperation insertionSort
                  (mkDocumentOperation "insert" 0 "a" 1 "u2") 1 [] 1
                  (NewCollabManager "u1"))))).
Proof.
  pose proof (handleDocumentOperation_never_transforms insertionSort
                (@insertionSort_In Operation)
                (mkDocumentOperation "insert" 0 "a" 1 "u2") 1 [] 1
                (NewCollabManager "u1")) as H.
  cbn zeta in H. destruct H as (_ & H & _); [constructor | exact H].
Defined.

(** ** Building local operations *)

Lemma Update_self (vc : VectorClock) : Update vc vc = vc.
Proof.
  rewrite Update_unfold. apply update_fold_fixed.
  intros k t Hin. apply elem_of_map_to_list in Hin.
  rewrite (vcGet_entry vc k t Hin). lia.
Qed.

(** X19. An insert built by [CreateInsertOperation] for a position inside
    the document applies as a local operation without error: the text is
    inserted at the position, the operation becomes the last pending one,
    and the manager's clock ends at the clock the operation carries, the
    old clock with the user's own counter incremented once. *)
Theorem CreateInsertOperation_applies
    (position : Z) (content : string) (now : Z) (randomBytes : list ascii)
    (idNow : Z) (sm : SyncManager) :
  0 <= position <= len (GetDocumentContent sm) ->
  let sm1 := fst (CreateInsertOperation position content now randomBytes idNow sm) in
  let op := snd (CreateInsertOperation position content now randomBytes idNow sm) in
  let res := ApplyLocalOperation op sm1 in
  snd res = None
  /\ GetDocumentContent (fst res)
     = String.append (sliceTo (GetDocumentContent sm) position)
         (String.append content (sliceFrom (GetDocumentContent sm) position))
  /\ localBuffer (fst res) = (localBuffer sm ++ [op])%list
  /\ vectorClock (fst res) = Op_VectorClock op
  /\ vectorClock (fst res) = Increment (userID sm) (vectorClock sm).
Proof.
  intros Hp. cbn zeta. unfold CreateInsertOperation. cbn [fst snd].
  set (sm1 := set_vectorClock _ sm).
  set (op := mkOperation _ _ _ _ _ _ _ _).
  pose proof (ApplyLocalOperation_appends op sm1) as Hb.
  pose proof (ApplyLocalOperation_clock op sm1) as Hv.
  assert (applyOperationToDocument op (set_localBuffer (localBuffer sm1 ++ [op]) sm1)
          = (commitToDocument op
               (String.append (sliceTo (GetDocumentContent sm) position)
                  (String.append content (sliceFrom (GetDocumentContent sm) position)))
               (set_localBuffer (localBuffer sm1 ++ [op]) sm1), None)) as Happ.
  { unfold applyOperationToDocument. cbn.
    unfold GetDocumentContent in Hp.
    destruct (Z.ltb_spec position 0); [lia |].
    destruct (Z.ltb_spec (len (Doc_Content (document sm))) position); [lia |].
    reflexivity. }
  unfold ApplyLocalOperation in *. cbn zeta in *. rewrite Happ in *.
  cbn [fst snd] in *.
  split; [reflexivity |]. split.
  { unfold GetDocumentContent, commitToDocument, addToHistory. cbn.
    destruct (onDocumentChanged sm); reflexivity. }
  split; [exact Hb |].
  rewrite Hv. unfold op, sm1. cbn. unfold Copy. split; apply Update_self.
Qed.

Lemma CreateInsertOperation_applies_witness :
  snd (ApplyLocalOperation
         (snd (CreateInsertOperation 1 "X" 1 [] 1 (managerWith "abc")))
         (fst (CreateInsertOperation 1 "X" 1 [] 1 (managerWith "abc"))))
  = None.
Proof.
  pose proof (CreateInsertOperation_applies 1 "X" 1 [] 1 (managerWith "abc"))
    as H.
  cbn zeta in H. destruct H as (H & _); [| exact H].
  vm_compute. split; discriminate.
Defined.

(** X20. [CreateDeleteOperation] panics, on the slice that captures the
    deleted text, exactly when the position lies inside the document and
    the end [position + length], as a 64-bit sum, falls before the
    position: a negative length, or a length that overflows the sum. *)
Theorem CreateDeleteOperation_panics
    (position length : Z) (now : Z) (randomBytes : list ascii) (idNow : Z)
    (sm : SyncManager) :
  snd (CreateDeleteOperation position length now randomBytes idNow sm) = None
  <-> 0 <= position < len (GetDocumentContent sm)
      /\ wrap64 (position + length) < position.
Proof.
  unfold CreateDeleteOperation, GetDocumentContent, sliceBetween. cbn.
  set (doc := Doc_Content (document sm)).
  destruct (Z.leb_spec 0 position); destruct (Z.ltb_spec position (len doc));
    cbn [andb]; try (split; [discriminate | lia]).
  destruct (Z.ltb_spec (len doc) (wrap64 (position + length))).
  - destruct (Z.leb_spec position (len doc)); [| lia].
    rewrite Z.leb_refl. cbn. split; [discriminate | lia].
  - destruct (Z.leb_spec position (wrap64 (position + length)));
      destruct (Z.leb_spec (wrap64 (position + length)) (len doc));
      cbn; try lia; split; try discriminate; try lia; auto.
Qed.

Lemma len_sdrop_stake a b s :
  (a <= b <= String.length s)%nat ->
  len (sdrop a (stake b s)) = Z.of_nat (b - a).
Proof.
  intros H. rewrite len_chars, chars_sdrop, chars_stake, length_drop, length_take.
  rewrite chars_length. lia.
Qed.

Lemma ApplyLocalOperation_content op sm :
  GetDocumentContent (fst (ApplyLocalOperation op sm))
  = stepContent op (GetDocumentContent sm).
Proof.
  unfold GetDocumentContent, ApplyLocalOperation. cbn zeta.
  pose proof (applyOperationToDocument_content op
                (set_localBuffer (localBuffer sm ++ [op]) sm)) as H.
  destruct (applyOperationToDocument op _) as [sm2 [e |]]; cbn [fst] in *;
    exact H.
Qed.

(** X21. For a position inside the document and a length that is not
    negative, [CreateDeleteOperation] stores in the operation the text the
    delete removes: the stored text has the length of the range clipped to
    the end of the document, it is the part of the document at the
    position, and applying the operation locally leaves the document
    without that part. *)
Theorem CreateDeleteOperation_captures
    (position length : Z) (now : Z) (randomBytes : list ascii) (idNow : Z)
    (sm : SyncManager) :
  let doc := GetDocumentContent sm in
  0 <= position < len doc -> 0 <= length -> position + length <= MaxInt64 ->
  exists op,
    snd (CreateDeleteOperation position length now randomBytes idNow sm)
    = Some op
    /\ len (Content op) = Z.min length (len doc - position)
    /\ doc = String.append (sliceTo doc position)
               (String.append (Content op)
                  (sliceFrom doc (position + len (Content op))))
    /\ GetDocumentContent
         (fst (ApplyLocalOperation op
                 (fst (CreateDeleteOperation position length now randomBytes
                         idNow sm))))
       = String.append (sliceTo doc position)
           (sliceFrom doc (position + len (Content op))).
Proof.
  cbn zeta. intros Hp Hn Hmax.
  unfold CreateDeleteOperation. cbn [fst snd].
  set (sm1 := set_vectorClock _ sm).
  change (Doc_Content (document sm1)) with (GetDocumentContent sm).
  set (doc := GetDocumentContent sm) in *.
  rewrite wrap64_small by (unfold inInt64, MinInt64, MaxInt64 in *; lia).
  destruct (Z.leb_spec 0 position) as [_ |]; [| lia].
  destruct (Z.ltb_spec position (len doc)) as [_ |]; [| lia].
  cbn [andb].
  set (e := if len doc <? position + length then len doc else position + length).
  assert (position <= e <= len doc
          /\ e - position = Z.min length (len doc - position)) as (He & Hmin).
  { unfold e. destruct (Z.ltb_spec (len doc) (position + length)).
    - repeat split; lia.
    - repeat split; lia. }
  unfold sliceBetween.
  destruct (Z.leb_spec 0 position) as [_ |]; [| lia].
  destruct (Z.leb_spec position e) as [_ |]; [| lia].
  destruct (Z.leb_spec e (len doc)) as [_ |]; [| lia].
  cbn [andb].
  eexists. split; [reflexivity |]. cbn [Content].
  assert (len (sdrop (Z.to_nat position) (stake (Z.to_nat e) doc)) = e - position)
    as Hlen.
  { rewrite len_sdrop_stake; [lia |]. unfold len in *. lia. }
  rewrite Hlen. replace (position + (e - position)) with e by lia.
  split; [exact Hmin |]. split.
  - apply chars_inj. unfold sliceTo, sliceFrom.
    rewrite !chars_append, chars_stake, chars_sdrop, chars_sdrop, chars_stake.
    rewrite <- (take_drop (Z.to_nat position) (chars doc)) at 1.
    f_equal.
    rewrite <- (take_drop (Z.to_nat e - Z.to_nat position)
                  (drop (Z.to_nat position) (chars doc))) at 1.
    rewrite take_drop_commute, drop_drop.
    replace (Z.to_nat position + (Z.to_nat e - Z.to_nat position))%nat
      with (Z.to_nat e) by lia.
    reflexivity.
  - rewrite ApplyLocalOperation_content.
    change (GetDocumentContent sm1) with doc.
    unfold stepContent. cbn [Type_ Position Length].
    change (String.eqb OpDelete OpInsert) with false.
    change (String.eqb OpDelete OpDelete) with true. cbv iota.
    destruct (Z.ltb_spec position 0) as [| _]; [lia |].
    destruct (Z.leb_spec (len doc) position) as [| _]; [lia |].
    cbn [orb]. cbn zeta.
    rewrite wrap64_small by (unfold inInt64, MinInt64, MaxInt64 in *; lia).
    fold e. destruct (Z.leb_spec e position); [| reflexivity].
    assert (e = position) as -> by lia.
    apply chars_inj. unfold sliceTo, sliceFrom.
    rewrite chars_append, chars_stake, chars_sdrop, take_drop. reflexivity.
Qed.

Lemma CreateDeleteOperation_captures_witness :
  exists op,
    snd (CreateDeleteOperation 1 3 1 [] 1 (managerWith "abcdef")) = Some op
    /\ len (Content op) = 3.
Proof.
  destruct (CreateDeleteOperation_captures 1 3 1 [] 1 (managerWith "abcdef"))
    as (op & H1 & H2 & _).
  - vm_compute. split; [discriminate | reflexivity].
  - vm_compute. discriminate.
  - vm_compute. discriminate.
  - exists op. split; [exact H1 | rewrite H2; reflexivity].
Defined.

(** ** Transformed operations stay in range *)

(** X23. A transformed operation stays inside the document it is meant
    for: when [a] and [b] are valid on [S] and the lengths fit the machine
    integers, [b] transformed against [a] is valid on the content that [a]
    leaves. *)
Theorem inclusionTransform_stays_valid (S : string) (a b : Operation) (f : bool) :
  validOn S a -> validOn S b ->
  len S + Length a + Length b <= MaxInt64 ->
  validOn (stepContent a S) (inclusionTransform b a f).
Proof.
  intros Va Vb Hmax. pose proof (len_nonneg S) as HS.
  destruct Va as [(Ta & Pa & La) | (Ta & Pa & La & Ha)];
    destruct Vb as [(Tb & Pb & Lb) | (Tb & Pb & Lb & Hb)].
  - pose proof (len_nonneg (Content a)). pose proof (len_nonneg (Content b)).
    rewrite (inclusionTransform_insert_insert b a f Tb Ta).
    pose proof (transformInsertInsert_frame b a f) as (Ht & Hc & Hl & _).
    left. rewrite Ht, Hl, Hc, (len_insert a S Ta Pa).
    rewrite transformInsertInsert_position by int64.
    repeat split; try assumption;
      destruct ((Position a <? Position b) || _); lia.
  - pose proof (len_nonneg (Content a)).
    rewrite (inclusionTransform_delete_insert b a f Tb Ta).
    pose proof (transformDeleteInsert_frame b a) as (Ht & _).
    pose proof (transformDeleteInsert_position_length b a) as Hpl.
    right. rewrite Ht, (len_insert a S Ta Pa).
    split; [assumption |].
    assert (forall x y : Z * Z, x = y -> fst x = fst y /\ snd x = snd y) as Hpair
      by (intros ? ? ->; auto).
    apply Hpair in Hpl as [Hp Hl]; try int64. cbn [fst snd] in Hp, Hl.
    rewrite Hp, Hl.
    destruct (Position a <=? Position b) eqn:E1; cbn [fst snd]; [lia |].
    destruct (Position a <? Position b + Length b); cbn [fst snd]; lia.
  - pose proof (len_nonneg (Content b)).
    rewrite (inclusionTransform_insert_delete b a f Tb Ta).
    pose proof (transformInsertDelete_frame b a) as (Ht & Hc & Hl & _).
    left. rewrite Ht, Hl, Hc, (len_delete a S Ta Pa La Ha) by lia.
    rewrite transformInsertDelete_position by int64.
    repeat split; try assumption;
      destruct (Z.leb_spec (Position a) (Position b));
      try destruct (Z.leb_spec (Position a + Length a) (Position b)); lia.
  - rewrite (inclusionTransform_delete_delete b a f Tb Ta).
    pose proof (transformDeleteDelete_frame b a f) as (Ht & _).
    pose proof (transformDeleteDelete_position_length b a f) as Hpl.
    right. rewrite Ht, (len_delete a S Ta Pa La Ha) by lia.
    split; [assumption |].
    assert (forall x y : Z * Z, x = y -> fst x = fst y /\ snd x = snd y) as Hpair
      by (intros ? ? ->; auto).
    apply Hpair in Hpl as [Hp Hl]; try lia. cbn [fst snd] in Hp, Hl.
    rewrite Hp, Hl. cbn zeta.
    destruct (Z.leb_spec (Position a + Length a) (Position b)); cbn [fst snd]; [lia |].
    destruct (Z.leb_spec (Position b + Length b) (Position a)); cbn [fst snd]; [lia |].
    destruct (Z.leb_spec (Position a) (Position b));
      destruct (Z.leb_spec (Position b + Length b) (Position a + Length a));
      cbn [andb fst snd]; try lia;
      destruct (Z.leb_spec (Position b) (Position a));
      destruct (Z.leb_spec (Position a + Length a) (Position b + Length b));
      cbn [andb fst snd]; try lia;
      destruct (Z.ltb_spec (Position a) (Position b)); cbn [fst snd]; lia.
Qed.

Lemma inclusionTransform_stays_valid_witness :
  validOn (stepContent (insertOp 2 "X" "u1" 1 "u1-1" {[ "u1" := 1 ]}) "abcdef")
    (inclusionTransform (deleteOp 3 "de" 2 "u2" 1 "u2-1" {[ "u2" := 1 ]})
       (insertOp 2 "X" "u1" 1 "u1-1" {[ "u1" := 1 ]}) false).
Proof.
  apply inclusionTransform_stays_valid.
  - left. repeat split; vm_compute; congruence.
  - right. repeat split; vm_compute; congruence.
  - vm_compute. congruence.
Defined.

(** ** The clock of the document *)

Lemma vc_le_refl (a : VectorClock) : vc_le a a.
Proof. intros p. lia. Qed.

Lemma vc_le_trans (a b c : VectorClock) : vc_le a b -> vc_le b c -> vc_le a c.
Proof. intros H1 H2 p. specialize (H1 p). specialize (H2 p). lia. Qed.

Lemma vc_le_Update (other vc : VectorClock) : vc_le vc (Update other vc).
Proof.
  intros p. destruct (decide (p ∈ dom other)) as [Hin | Hout].
  - rewrite vcGet_Update_inside by exact Hin. lia.
  - rewrite vcGet_Update_outside by exact Hout. lia.
Qed.

Lemma dominates_Update (other vc : VectorClock) : dominates (Update other vc) other.
Proof. intros p Hp. rewrite vcGet_Update_inside by exact Hp. lia. Qed.

Lemma dominates_vc_le (a b small : VectorClock) :
  vc_le a b -> dominates a small -> dominates b small.
Proof. intros Hle Hd k Hk. specialize (Hd k Hk). specialize (Hle k). lia. Qed.

Lemma applyOperationToDocument_doc op sm :
  let d := document sm in
  let d' := document (fst (applyOperationToDocument op sm)) in
  d' = d \/ loggedStep op d d'.
Proof.
  cbn zeta. unfold applyOperationToDocument. cbn zeta.
  repeat match goal with
         | |- context [if ?c then _ else _] => destruct c
         end; cbn [fst]; try (left; reflexivity);
    right; unfold commitToDocument, notify; cbn zeta;
    destruct (onDocumentChanged _); split; reflexivity.
Qed.

Lemma docClock_step op sm sm' :
  document sm' = document sm \/ loggedStep op (document sm) (document sm') ->
  vc_le (Doc_VectorClock (document sm)) (Doc_VectorClock (document sm'))
  /\ (docClockInv sm -> docClockInv sm').
Proof.
  intros [Hd | [Ho Hv]].
  - split; [rewrite Hd; apply vc_le_refl |].
    unfold docClockInv. rewrite Hd. auto.
  - split; [rewrite Hv; apply vc_le_Update |].
    unfold docClockInv. rewrite Ho, Hv. intros H. apply Forall_app. split.
    + eapply Forall_impl; [exact H |]. intros x Hx. cbn in *.
      eapply dominates_vc_le; [apply vc_le_Update | exact Hx].
    + constructor; [apply dominates_Update | constructor].
Qed.

Lemma docClock_applyEach f prefix ops :
  (forall op sm,
      document (fst (f op sm)) = document sm
      \/ loggedStep op (document sm) (document (fst (f op sm)))) ->
  forall sm,
    vc_le (Doc_VectorClock (document sm))
      (Doc_VectorClock (document (fst (applyEach f prefix ops sm))))
    /\ (docClockInv sm -> docClockInv (fst (applyEach f prefix ops sm))).
Proof.
  intros Hf. induction ops as [| op ops IH]; intros sm; cbn [applyEach].
  - split; [apply vc_le_refl | auto].
  - pose proof (docClock_step op sm _ (Hf op sm)) as [H1 H2].
    destruct (f op sm) as [sm1 [e |]]; cbn [fst] in *; [split; assumption |].
    destruct (IH sm1) as [H3 H4]. split; [eapply vc_le_trans; eassumption | auto].
Qed.

Lemma docClock_undoLocalOperations ops sm :
  vc_le (Doc_VectorClock (document sm))
    (Doc_VectorClock (document (fst (undoLocalOperations ops sm))))
  /\ docClockInv (fst (undoLocalOperations ops sm)).
Proof.
  unfold undoLocalOperations. cbn zeta.
  match goal with
  | |- context [applyEach _ ?pre ?l ?s] =>
    destruct (docClock_applyEach applyOperationDirectly pre l
                (fun op sm => or_intror (conj eq_refl eq_refl)) s) as [H1 H2]
  end.
  split; [exact H1 |]. apply H2. constructor.
Qed.

Lemma docClock_ApplyLocalOperation op sm :
  vc_le (Doc_VectorClock (document sm))
    (Doc_VectorClock (document (fst (ApplyLocalOperation op sm))))
  /\ (docClockInv sm -> docClockInv (fst (ApplyLocalOperation op sm))).
Proof.
  unfold ApplyLocalOperation. cbn zeta.
  pose proof (docClock_step op (set_localBuffer (localBuffer sm ++ [op]) sm) _
                (applyOperationToDocument_doc op _)) as [H1 H2].
  destruct (applyOperationToDocument op _) as [sm2 [e |]]; cbn [fst] in *;
    split; assumption.
Qed.

(** X24. A local operation keeps the clock of the document at or above the
    clock of every operation in its log, on the participants that clock
    mentions, and never lowers a counter of the document's clock. *)
Theorem ApplyLocalOperation_document_clock (op : Operation) (sm : SyncManager) :
  docClockInv sm ->
  let sm' := fst (ApplyLocalOperation op sm) in
  docClockInv sm'
  /\ vc_le (Doc_VectorClock (document sm)) (Doc_VectorClock (document sm')).
Proof.
  intros H. cbn zeta.
  destruct (docClock_ApplyLocalOperation op sm) as [H1 H2]. auto.
Qed.

Lemma ApplyLocalOperation_document_clock_witness :
  docClockInv (fst (ApplyLocalOperation ex_remoteA NewSyncManager)).
Proof.
  pose proof (ApplyLocalOperation_document_clock ex_remoteA NewSyncManager)
    as H.
  cbn zeta in H. destruct H as [H _]; [constructor | exact H].
Defined.

Section ClockOfRemote.

Variable sortSlice :
  (Operation -> Operation -> bool) -> list Operation -> list Operation.

Lemma docClock_ApplyRemoteOperation r sm :
  docClockInv (fst (ApplyRemoteOperation sortSlice r sm))
  /\ vc_le (Doc_VectorClock (document sm))
       (Doc_VectorClock (document (fst (ApplyRemoteOperation sortSlice r sm)))).
Proof.
  unfold ApplyRemoteOperation. cbn zeta.
  set (sm2 := set_vectorClock _ (set_remoteBuffer _ sm)).
  destruct (performOperationalTransformation_shape sortSlice r
              (localBuffer sm2) sm2) as (r' & ls' & Hot & _).
  rewrite Hot. clear Hot.
  set (sm3 := set_notified _ sm2).
  pose proof (docClock_undoLocalOperations (localBuffer sm2) sm3) as [L4 I4].
  change (Doc_VectorClock (document sm3)) with (Doc_VectorClock (document sm))
    in L4.
  destruct (undoLocalOperations (localBuffer sm2) sm3) as [sm4 [e4 |]];
    cbn [fst] in *; [split; assumption |].
  pose proof (docClock_step r' sm4 _ (applyOperationToDocument_doc r' sm4))
    as [L5 I5].
  destruct (applyOperationToDocument r' sm4) as [sm5 [e5 |]]; cbn [fst] in *.
  { split; [auto | eapply vc_le_trans; eassumption]. }
  pose proof (docClock_applyEach applyOperationToDocument
                "failed to reapply transformed local operation" ls'
                applyOperationToDocument_doc sm5) as [L6 I6].
  destruct (applyEach applyOperationToDocument _ ls' sm5) as [sm6 [e6 |]];
    cbn [fst] in *.
  { split; [auto | eapply vc_le_trans; [eapply vc_le_trans |]; eassumption]. }
  destruct (onOperationApplied _); cbn;
    (split; [apply I6, I5, I4
            | eapply vc_le_trans; [eapply vc_le_trans |]; eassumption]).
Qed.

(** X25. After a remote operation, applied or refused, the clock of the
    document is at or above the clock of every operation in its log, on the
    participants that clock mentions, whatever the state was before; and no
    counter of the document's clock has been lowered, although the pending
    operations were undone on the way. *)
Theorem ApplyRemoteOperation_document_clock (r : Operation) (sm : SyncManager) :
  let sm' := fst (ApplyRemoteOperation sortSlice r sm) in
  docClockInv sm'
  /\ vc_le (Doc_VectorClock (document sm)) (Doc_VectorClock (document sm')).
Proof.
  cbn zeta. apply docClock_ApplyRemoteOperation.
Qed.

End ClockOfRemote.

(** X26. Asked for the operations since the clock of its own snapshot, a
    manager whose document clock covers its log and has no negative
    counter returns none. *)
Theorem GetOperationsSince_own_clock (sm : SyncManager) :
  docClockInv sm -> vc_nonneg (Doc_VectorClock (document sm)) ->
  GetOperationsSince (Doc_VectorClock (GetDocumentState sm)) sm = [].
Proof.
  intros Hinv Hnn. unfold GetOperationsSince, GetDocumentState. cbn. unfold Copy.
  unfold docClockInv in Hinv.
  induction (Operations (document sm)) as [| op ops IH]; [reflexivity |].
  apply Forall_cons in Hinv as [Hop Hops]. cbn [List.filter].
  assert (vc_le (Op_VectorClock op) (Doc_VectorClock (document sm))) as Hle.
  { intros p. destruct (decide (p ∈ dom (Op_VectorClock op))) as [Hin | Hout].
    - apply Hop, Hin.
    - rewrite (vcGet_outside _ _ Hout). apply Hnn. }
  destruct (vc_le_HappensBefore_or_Equals _ _ Hle) as [-> | ->];
    cbn; rewrite ?andb_false_r; apply IH, Hops.
Qed.

Lemma GetOperationsSince_own_clock_witness :
  GetOperationsSince
    (Doc_VectorClock
       (GetDocumentState (fst (ApplyLocalOperation ex_remoteA NewSyncManager))))
    (fst (ApplyLocalOperation ex_remoteA NewSyncManager)) = [].
Proof.
  apply GetOperationsSince_own_clock.
  - apply docClock_ApplyLocalOperation. constructor.
  - apply (singleton_nonneg "u2" 1). lia.
Defined.

(** ** The remote buffer *)

Section RemoteBuffer.

Variable sortSlice :
  (Operation -> Operation -> bool) -> list Operation -> list Operation.

(** X27. Nothing ever leaves the remote buffer: a remote operation is
    appended to it whether it is applied or refused, and a local operation,
    an acknowledgement, a clean-up and a new document leave the buffer as it
    is. *)
Theorem remoteBuffer_only_grows (op : Operation) (sm : SyncManager) :
  remoteBuffer (fst (ApplyRemoteOperation sortSlice op sm))
  = (remoteBuffer sm ++ [op])%list
  /\ remoteBuffer (fst (ApplyLocalOperation op sm)) = remoteBuffer sm
  /\ remoteBuffer (CleanupHistory sm) = remoteBuffer sm
  /\ (forall opID, remoteBuffer (AcknowledgeOperation opID sm)
                   = remoteBuffer sm)
  /\ (forall content, remoteBuffer (InitializeDocument content sm)
                      = remoteBuffer sm).
Proof.
  split; [apply ApplyRemoteOperation_always_stages |].
  split; [| repeat split].
  unfold ApplyLocalOperation. cbn zeta.
  pose proof (sameOutsideDocument_applyOperationToDocument op
                (set_localBuffer (localBuffer sm ++ [op]) sm))
    as (_ & _ & _ & Hr & _).
  destruct (applyOperationToDocument op _) as [sm2 [e |]]; cbn in *; exact Hr.
Qed.

End RemoteBuffer.

(** ** Operation identifiers *)

Lemma formatInt_inj a b : formatInt a = formatInt b -> a = b.
Proof.
  unfold formatInt. intros H.
  assert (forall z, NilZero.int_of_string (NilZero.string_of_int (Z.to_int z))
                    = Some (Z.to_int z)) as Hparse.
  { intros z. apply NilZero.isi; destruct z; cbn; try discriminate;
      intros [= E]; exact (Unsigned.to_uint_nonnil _ E). }
  apply (f_equal NilZero.int_of_string) in H. rewrite !Hparse in H.
  injection H as H. apply DecimalZ.to_int_inj, H.
Qed.

Lemma hexDigit_inj a3 a2 a1 a0 b3 b2 b1 b0 :
  hexDigit a3 a2 a1 a0 = hexDigit b3 b2 b1 b0 ->
  a3 = b3 /\ a2 = b2 /\ a1 = b1 /\ a0 = b0.
Proof.
  destruct a3, a2, a1, a0, b3, b2, b1, b0; cbn; intros H;
    first [discriminate H | repeat split].
Qed.

Lemma hexEncode_length bytes :
  String.length (hexEncode bytes) = (2 * List.length bytes)%nat.
Proof.
  induction bytes as [| [a0 a1 a2 a3 a4 a5 a6 a7] rest IH]; cbn [hexEncode];
    [reflexivity |].
  cbn [String.length List.length]. rewrite IH. lia.
Qed.

Lemma hexEncode_inj xs ys : hexEncode xs = hexEncode ys -> xs = ys.
Proof.
  revert ys. induction xs as [| [a0 a1 a2 a3 a4 a5 a6 a7] xs IH];
    intros [| [b0 b1 b2 b3 b4 b5 b6 b7] ys]; cbn [hexEncode];
    try reflexivity; try discriminate.
  intros H. injection H as H1 H2 H3.
  apply hexDigit_inj in H1 as (-> & -> & -> & ->).
  apply hexDigit_inj in H2 as (-> & -> & -> & ->).
  f_equal. apply IH, H3.
Qed.

Lemma append_inv_head (p a b : string) :
  String.append p a = String.append p b -> a = b.
Proof.
  induction p as [| c p IH]; cbn; [auto |]. intros [= H]. apply IH, H.
Qed.

Lemma append_inv_length (a a' b b' : string) :
  String.length b = String.length b' ->
  String.append a b = String.append a' b' -> a = a' /\ b = b'.
Proof.
  intros Hl H. apply (f_equal chars) in H. rewrite !chars_append in H.
  apply app_inj_2 in H as [H1 H2].
  - split; apply chars_inj; assumption.
  - rewrite !chars_length. exact Hl.
Qed.

(** X28. For one user, two identifiers built by [generateOperationID] from
    as many random bytes are equal only when the bytes and the clock
    readings are. *)
Theorem generateOperationID_distinct
    (userID : string) (bytes bytes' : list ascii) (t t' : Z) :
  List.length bytes = List.length bytes' ->
  generateOperationID userID bytes t = generateOperationID userID bytes' t'
  <-> bytes = bytes' /\ t = t'.
Proof.
  intros Hl. split; [| intros [-> ->]; reflexivity].
  unfold generateOperationID. intros H.
  apply append_inv_head in H. apply append_inv_head in H.
  apply append_inv_length in H as [Ht Hb].
  - split.
    + apply hexEncode_inj. apply (append_inv_head "-"), Hb.
    + apply formatInt_inj, Ht.
  - change (String.append "-" (hexEncode bytes))
      with (String "-" (hexEncode bytes)).
    change (String.append "-" (hexEncode bytes'))
      with (String "-" (hexEncode bytes')).
    cbn [String.length]. rewrite !hexEncode_length, Hl. reflexivity.
Qed.

Lemma generateOperationID_distinct_witness :
  generateOperationID "u1" ["a"%char] 1 = generateOperationID "u1" ["b"%char] 2
  <-> ["a"%char] = ["b"%char] /\ 1 = 2.
Proof.
  apply (generateOperationID_distinct "u1" ["a"%char] ["b"%char] 1 2).
  reflexivity.
Defined.

(** ** Undoing the pending operations *)

(** X29. [undoLocalOperations] never fails.  It drops from the log every
    operation whose id is that of one of the given operations and keeps the
    others in order; the content becomes the replay of what is kept from
    the empty string, and the version the number of operations kept. *)
Theorem undoLocalOperations_effect
    (operations : list Operation) (sm : SyncManager) :
  let kept :=
    List.filter (fun op => negb (bool_decide (ID op ∈ idSet operations)))
      (Operations (document sm)) in
  let res := undoLocalOperations operations sm in
  snd res = None
  /\ Operations (document (fst res)) = kept
  /\ Doc_Content (document (fst res)) = replayContent kept
  /\ Version (document (fst res)) = wrap64 (Z.of_nat (length kept))
  /\ (forall op, In op kept
                 <-> In op (Operations (document sm))
                     /\ forall o, In o operations -> ID o <> ID op).
Proof.
  cbn zeta. split; [apply undoLocalOperations_no_error |].
  unfold undoLocalOperations. cbn zeta.
  match goal with
  | |- context [applyEach _ ?pre ?l ?s] =>
    destruct (replay_fields pre l s) as (Hc & Ho & Hv & _)
  end.
  cbn zeta in Hc, Ho, Hv. rewrite Hc, Ho. cbn [app].
  split; [reflexivity |]. split; [reflexivity |]. split.
  - specialize (Hv eq_refl). unfold versionInv in Hv. rewrite Hv, Ho.
    reflexivity.
  - intros op. rewrite filter_In, negb_true_iff, bool_decide_eq_false,
      elem_of_idSet.
    split; intros [Hin Hn]; (split; [exact Hin |]).
    + intros o Ho' Hid. apply Hn. exists o. auto.
    + intros (o & Ho' & Hid). exact (Hn o Ho' Hid).
Qed.

(** ** What the observers are told *)

(** X30. A local operation tells the document observer exactly when it is
    logged, once, with the content that results; an operation that is
    refused or skipped tells nobody, and the observer of applied operations
    is never called for a local operation. *)
Theorem ApplyLocalOperation_tells_observer (op : Operation) (sm : SyncManager) :
  let sm' := fst (ApplyLocalOperation op sm) in
  (document sm' = document sm /\ notified sm' = notified sm)
  \/ (Operations (document sm') = (Operations (document sm) ++ [op])%list
      /\ notified sm'
         = (notified sm
            ++ (if onDocumentChanged sm
                then [DocumentChanged (Doc_Content (document sm'))]
                else []))%list).
Proof.
  cbn zeta. unfold ApplyLocalOperation, applyOperationToDocument. cbn zeta.
  repeat match goal with
         | |- context [if ?c then _ else _] =>
           lazymatch c with
           | onDocumentChanged _ => fail
           | _ => destruct c
           end
         end; cbn [fst];
    try (left; split; reflexivity);
    right; unfold commitToDocument, notify, addToHistory; cbn;
    destruct (onDocumentChanged sm); cbn; rewrite ?app_nil_r;
    split; reflexivity.
Qed.

(** ** Delivering a remote operation twice *)

Lemma Update_idempotent (other vc : VectorClock) :
  Update other (Update other vc) = Update other vc.
Proof.
  rewrite (Update_unfold other (Update other vc)). apply update_fold_fixed.
  intros k t Hin. apply elem_of_map_to_list in Hin.
  rewrite vcGet_Update_inside by (apply elem_of_dom; eauto).
  rewrite (vcGet_entry other k t Hin). lia.
Qed.

(** Logging an operation whose clock the document's clock already covers
    leaves that clock as it is. *)
Lemma loggedStep_clock_fixed op d d' :
  loggedStep op d d' ->
  dominates (Doc_VectorClock d) (Op_VectorClock op) ->
  Doc_VectorClock d' = Doc_VectorClock d.
Proof.
  intros [_ Hv] Hd. rewrite Hv, Update_unfold. apply update_fold_fixed.
  intros k t Hin. apply elem_of_map_to_list in Hin.
  rewrite <- (vcGet_entry _ k t Hin). apply Hd, elem_of_dom. eauto.
Qed.

Lemma docClock_fixed_step op sm sm' :
  document sm' = document sm \/ loggedStep op (document sm) (document sm') ->
  dominates (Doc_VectorClock (document sm)) (Op_VectorClock op) ->
  Doc_VectorClock (document sm') = Doc_VectorClock (document sm).
Proof.
  intros [-> | Hstep] Hd; [reflexivity |].
  exact (loggedStep_clock_fixed op _ _ Hstep Hd).
Qed.

Lemma docClock_fixed_applyEach f prefix ops :
  (forall op sm,
      document (fst (f op sm)) = document sm
      \/ loggedStep op (document sm) (document (fst (f op sm)))) ->
  forall sm,
    Forall (fun op => dominates (Doc_VectorClock (document sm))
                        (Op_VectorClock op)) ops ->
    Doc_VectorClock (document (fst (applyEach f prefix ops sm)))
    = Doc_VectorClock (document sm).
Proof.
  intros Hf. induction ops as [| op ops IH]; intros sm Hall;
    cbn [applyEach]; [reflexivity |].
  apply Forall_cons in Hall as [Hop Hops].
  pose proof (docClock_fixed_step op sm _ (Hf op sm) Hop) as H1.
  destruct (f op sm) as [sm1 [e |]]; cbn [fst] in *; [exact H1 |].
  rewrite IH; [exact H1 |]. rewrite H1. exact Hops.
Qed.

Lemma docClock_fixed_undoLocalOperations ops sm :
  docClockInv sm ->
  Doc_VectorClock (document (fst (undoLocalOperations ops sm)))
  = Doc_VectorClock (document sm).
Proof.
  intros Hinv. unfold undoLocalOperations. cbn zeta.
  rewrite (docClock_fixed_applyEach applyOperationDirectly);
    [reflexivity | intros op s; right; split; reflexivity |].
  cbn. unfold docClockInv in Hinv. rewrite Forall_forall in Hinv.
  apply Forall_forall. intros op Hin.
  apply list_elem_of_In, filter_In in Hin as [Hin _].
  apply Hinv, list_elem_of_In, Hin.
Qed.

Section Redelivered.

Variable sortSlice :
  (Operation -> Operation -> bool) -> list Operation -> list Operation.

(** A remote operation does not move the clock of the document when that
    clock already covers the log, the operation and the pending
    operations. *)
Lemma docClock_fixed_ApplyRemoteOperation r sm :
  docClockInv sm ->
  dominates (Doc_VectorClock (document sm)) (Op_VectorClock r) ->
  Forall (fun op => dominates (Doc_VectorClock (document sm))
                      (Op_VectorClock op)) (localBuffer sm) ->
  Doc_VectorClock (document (fst (ApplyRemoteOperation sortSlice r sm)))
  = Doc_VectorClock (document sm).
Proof.
  intros Hinv Hr Hls. unfold ApplyRemoteOperation. cbn zeta.
  set (sm2 := set_vectorClock _ (set_remoteBuffer _ sm)).
  pose proof (performOperationalTransformation_shape sortSlice r
                (localBuffer sm2) sm2) as (r' & ls' & Hot & _).
  pose proof (transformAll_sameIdentity r (localBuffer sm2)
                (onConflictResolved sm2) r
                (topologicalSort sortSlice (r :: localBuffer sm2))
                (mkOTState r (localBuffer sm2) [])
                (conj (sameIdentity_refl r)
                      (Forall2_sameIdentity_refl (localBuffer sm2))))
    as [Hr' Hls'].
  assert (r' = transformedRemoteOp
                 (transformAll (onConflictResolved sm2) r
                    (topologicalSort sortSlice (r :: localBuffer sm2))
                    (mkOTState r (localBuffer sm2) []))
          /\ ls' = transformedLocalOps
                     (transformAll (onConflictResolved sm2) r
                        (topologicalSort sortSlice (r :: localBuffer sm2))
                        (mkOTState r (localBuffer sm2) []))) as [E1 E2].
  { unfold performOperationalTransformation in Hot. cbn zeta in Hot.
    split; congruence. }
  rewrite <- E1 in Hr'. rewrite <- E2 in Hls'. clear E1 E2.
  rewrite Hot. clear Hot.
  set (sm3 := set_notified _ sm2).
  assert (Forall (fun op => dominates (Doc_VectorClock (document sm))
                              (Op_VectorClock op)) ls') as Hls2.
  { change (localBuffer sm2) with (localBuffer sm) in Hls'.
    clear - Hls Hls'. induction Hls' as [| x y l l' Hxy _ IH];
      [constructor |].
    apply Forall_cons in Hls as [Hx Hl]. constructor; [| apply IH, Hl].
    destruct Hxy as (_ & _ & _ & _ & ->). exact Hx. }
  assert (dominates (Doc_VectorClock (document sm)) (Op_VectorClock r'))
    as Hr2 by (destruct Hr' as (_ & _ & _ & _ & ->); exact Hr).
  pose proof (docClock_fixed_undoLocalOperations (localBuffer sm2) sm3 Hinv)
    as H4.
  change (Doc_VectorClock (document sm3)) with (Doc_VectorClock (document sm))
    in H4.
  destruct (undoLocalOperations (localBuffer sm2) sm3) as [sm4 [e4 |]];
    cbn [fst] in *; [exact H4 |].
  rewrite <- H4 in Hr2, Hls2.
  pose proof (docClock_fixed_step r' sm4 _
                (applyOperationToDocument_doc r' sm4) Hr2) as H5.
  destruct (applyOperationToDocument r' sm4) as [sm5 [e5 |]]; cbn [fst] in *;
    [congruence |].
  rewrite <- H5 in Hls2.
  pose proof (docClock_fixed_applyEach applyOperationToDocument
                "failed to reapply transformed local operation" ls'
                applyOperationToDocument_doc sm5 Hls2) as H6.
  destruct (applyEach applyOperationToDocument _ ls' sm5) as [sm6 [e6 |]];
    cbn [fst] in *; [congruence |].
  destruct (onOperationApplied _); cbn; congruence.
Qed.

(** C2, amended. [ApplyRemoteOperation] keeps no record of the ids it has
    applied and rejects nothing: delivering the same remote operation again
    runs the whole algorithm again.  Of content, clock and version only the
    clock is unchanged by the second delivery: for every operation and
    every state the manager's clock after the second call is its clock
    after the first, while the operation is staged in the remote buffer a
    second time.  With nothing pending and [r] an insert at offset 0 (and a
    sort that leaves a one-element slice alone), both deliveries succeed;
    the second one logs [r] again, inserts its content again and bumps the
    version again, and leaves the clock of the document where the first one
    put it. *)
Theorem ApplyRemoteOperation_redelivery_reapplies
    (r : Operation) (sm : SyncManager) :
  let s1 := fst (ApplyRemoteOperation sortSlice r sm) in
  let s2 := fst (ApplyRemoteOperation sortSlice r s1) in
  vectorClock s2 = vectorClock s1
  /\ remoteBuffer s2 = (remoteBuffer sm ++ [r; r])%list
  /\ ((forall less (x : Operation), sortSlice less [x] = [x]) ->
      localBuffer sm = [] -> Type_ r = OpInsert -> Position r = 0 ->
      snd (ApplyRemoteOperation sortSlice r sm) = None
      /\ snd (ApplyRemoteOperation sortSlice r s1) = None
      /\ Operations (document s1) = (Operations (document sm) ++ [r])%list
      /\ Operations (document s2)
         = (Operations (document sm) ++ [r; r])%list
      /\ Doc_Content (document s2)
         = String.append (Content r) (Doc_Content (document s1))
      /\ Version (document s1)
         = wrap64 (Z.of_nat (length (Operations (document sm))) + 1)
      /\ Version (document s2)
         = wrap64 (Z.of_nat (length (Operations (document sm))) + 2)
      /\ Doc_VectorClock (document s2) = Doc_VectorClock (document s1)).
Proof.
  intros s1 s2. split; [| split].
  - unfold s2, s1. rewrite !ApplyRemoteOperation_clock.
    apply Update_idempotent.
  - unfold s2, s1. rewrite !ApplyRemoteOperation_always_stages.
    rewrite <- app_assoc. reflexivity.
  - intros sortSlice_singleton Hb Ht Hp.
    destruct (ApplyRemoteOperation_twice_at_head sortSlice sortSlice_singleton
                r sm Hb Ht Hp)
      as (He1 & He2 & _ & Ho1 & Ho2 & Hc2 & Hv1 & Hv2).
    fold s1 in He2, Ho1, Ho2, Hc2, Hv1, Hv2. fold s2 in Ho2, Hc2, Hv2.
    repeat split; try assumption.
    destruct (docClock_ApplyRemoteOperation sortSlice r sm) as [Hinv _].
    fold s1 in Hinv.
    apply docClock_fixed_ApplyRemoteOperation; [exact Hinv | |].
    + unfold docClockInv in Hinv. rewrite Ho1 in Hinv.
      apply Forall_app in Hinv as [_ Hlast].
      apply Forall_cons in Hlast as [Hlast _]. exact Hlast.
    + destruct (ApplyRemoteOperation_insert_head sortSlice sortSlice_singleton
                  r sm Hb Ht Hp) as (_ & Hl1 & _).
      fold s1 in Hl1. rewrite Hl1. constructor.
Qed.

End Redelivered.

Lemma ApplyRemoteOperation_redelivery_reapplies_witness :
  let sm := managerWith "" in
  let r := ex_remoteA in
  let s1 := fst (ApplyRemoteOperation insertionSort r sm) in
  let s2 := fst (ApplyRemoteOperation insertionSort r s1) in
  vectorClock s2 = vectorClock s1
  /\ snd (ApplyRemoteOperation insertionSort r sm) = None
  /\ snd (ApplyRemoteOperation insertionSort r s1) = None
  /\ remoteBuffer s2 = (remoteBuffer sm ++ [r; r])%list
  /\ Operations (document s1) = (Operations (document sm) ++ [r])%list
  /\ Operations (document s2) = (Operations (document sm) ++ [r; r])%list
  /\ Doc_Content (document s2)
     = String.append (Content r) (Doc_Content (document s1))
  /\ Version (document s1)
     = wrap64 (Z.of_nat (length (Operations (document sm))) + 1)
  /\ Version (document s2)
     = wrap64 (Z.of_nat (length (Operations (document sm))) + 2)
  /\ Doc_VectorClock (document s2) = Doc_VectorClock (document s1).
Proof.
  destruct (ApplyRemoteOperation_redelivery_reapplies insertionSort
              ex_remoteA (managerWith ""))
    as (Hv & Hr & Hrest).
  destruct (Hrest (fun less x => insertionSort_singleton less x)
              eq_refl eq_refl eq_refl)
    as (H1 & H2 & H3 & H4 & H5 & H6 & H7 & H8).
  cbn zeta. repeat split; assumption.
Defined.
